(** * StaticInjector: a shallow embedding of packages/core/src/di/injector.ts

    The development follows the source file top to bottom: JavaScript values,
    token identity ([getId]), the registry builder ([computeDeps],
    [resolveProvider], [recursivelyProcessProviders]), the resolver
    ([tryResolveToken], [resolveToken]) and the injector chain ([get]).

    Conventions of the embedding.
    - A [Records] object is a finite map from id strings to records.  Every
      record object of the source is stored under exactly one key, so a
      reference to a record is the key it is stored under.
    - The value slot of a record holds either one of the two module-private
      sentinels [EMPTY] and [CIRCULAR] or a value.  The sentinels are not
      exported, so no provider value and no function result is one of them;
      the slot is therefore a three-way sum.  The test for [EMPTY] is by
      reference ([===]); the test for [CIRCULAR] is the loose [==], which
      also holds of a string equal to the source text of [IDENT]
      ([equalsIDENT], [equalsCIRCULAR]).
    - Injectors are the two implementations of this file, [_NullInjector]
      and [StaticInjector]; a parent chain is a list of registries ending in
      the null injector.
    - The functions of providers are pure: [f.apply(this, args)] is a
      function of [f], [this] and [args] that returns or throws, and does not
      call back into the injector.
    - Exceptions are results: [Err e] is a thrown error [e].  The two
      [catch] blocks write to what they caught and may throw a [TypeError]
      of their own; the host says on which thrown values they do
      ([catchResolve], [catchGet]).
    - Recursion of the resolver is bounded by a fuel argument; [None] means
      that the fuel ran out.  Totality is proved separately.

    The theorems C1 to C10 settle the statements of the specification; the
    theorems X1 to X25 are further properties read off the code: token ids,
    annotation lists, the registry builder and its invariants, aliases,
    lookup along the chain, errors and their token paths, dependency cycles,
    and what a call of [get] resolves.  [StaticInjector.toString] and the
    message text of [staticError] are not embedded: they format with
    [stringify] of [../util], and the first enumerates the registry in
    insertion order, which a finite map does not keep. *)

From stdpp Require Import gmap strings list fin_maps pretty.
From Stdlib Require Import ZArith Ascii.

Local Open Scope Z_scope.
Local Open Scope string_scope.
Set Warnings "-register-all".

(** ** JavaScript values *)

(** The three parameter decorators of [./metadata] that [computeDeps]
    recognises. *)
Inductive metaKind := Optional | SkipSelf | Self.

Inductive jsval :=
| VUndefined
| VNull
| VBool (b : bool)
| VNum (z : Z)                      (* integral numbers *)
| VStr (s : string)
| VArr (elems : list jsval)
| VFun (n : nat)                    (* a function or class, named [n] *)
| VObj (n : nat)                    (* an object without provider keys *)
| VInst (addr : nat)                (* made by [Object.create(fn.prototype)] *)
| VInjector (self : nat)            (* a [StaticInjector] instance *)
| VThrowIfNotFound                  (* the object [_THROW_IF_NOT_FOUND] *)
| VMeta (k : metaKind) (instance : bool)
                                    (* [new Optional()] or [Optional] itself *)
| VInject (token : jsval)           (* [new Inject(token)] *)
| VProvider (provide useValue useFactory useExisting useClass : option jsval)
            (deps : option (list jsval)) (multi : option jsval).
                                    (* an object literal; [None] = key absent *)

(** The abstract class [Injector], used as a token. *)
Definition Injector : jsval := VFun 0.

Definition truthy (v : jsval) : bool :=
  match v with
  | VUndefined | VNull => false
  | VBool b => b
  | VNum z => negb (Z.eqb z 0)
  | VStr s => negb (bool_decide (s = ""))
  | _ => true
  end.

Definition typeof (v : jsval) : string :=
  match v with
  | VUndefined => "undefined"
  | VBool _ => "boolean"
  | VNum _ => "number"
  | VStr _ => "string"
  | VFun _ | VMeta _ false => "function"
  | _ => "object"
  end.

(** [String(v)] for the primitives that reach the string concatenation of
    [getId]. *)
Definition toString (v : jsval) : string :=
  match v with
  | VStr s => s
  | VNum z => pretty z
  | VBool true => "true"
  | VBool false => "false"
  | VNull => "null"
  | _ => "undefined"
  end.

(** Modelled from the spec: [resolveForwardRef] of [./forward_ref], which is
    not part of the sources ("dereference forward-declared tokens before
    use").  The embedding has no forward-reference wrappers; on every other
    value the operation returns its argument. *)
Definition resolveForwardRef (v : jsval) : jsval := v.

(** ** Errors *)

(** One constructor per [throw] site; the comment gives the message. *)
Inductive ErrorKind :=
| NoProvider (token : jsval)          (* NullInjectorError: No provider for .. *)
| CircularDependency                  (* Circular dependency *)
| TokenMustBeTruthy (obj : jsval)     (* Token must be truthy *)
| DepsRequired (provider : jsval)     (* 'deps' required *)
| NotNewable (provider : jsval)       (* StaticProvider does not have .. *)
| FunctionNotSupported (provider : jsval) (* Function/Class not supported *)
| UnexpectedProvider (provider : jsval)   (* Unexpected provider *)
| MultiProviderMix (token : jsval)    (* Cannot mix multi providers and .. *)
| TypeError                           (* raised by the JavaScript runtime *)
| HostThrown (payload : jsval).       (* thrown by a provider's function *)

(** An error object with the two properties the injector attaches. *)
Record Error := mkError {
  kind : ErrorKind;
  ngTempTokenPath : list jsval;
  ngTokenPath : option (list jsval)
}.

Definition newError (k : ErrorKind) : Error := mkError k [] None.

Inductive result (A : Type) :=
| Ok (a : A)
| Err (e : Error).
Arguments Ok {A} a.
Arguments Err {A} e.

(** A [throw] skips the rest of the block. *)
Global Instance result_bind : MBind result := λ A B f r,
  match r with Ok a => f a | Err e => Err e end.

(** ** The host: what the embedding takes from the JavaScript runtime *)

Inductive outcome := Return (v : jsval) | Throw (payload : jsval).

(** [expando obj] is the number [idCounter] held when [getId] first saw the
    object or function [obj]; the source caches it on [obj] under
    [ID_EXPANDO].  [call f this args] is [f.apply(this, args)] for a callable
    [f].

    [identSource] is the source text of the function [IDENT], the string
    the runtime converts [IDENT] to when [==] compares it with a string.

    [hasPrototype f]: [f.prototype] is an object or [null], so that
    [Object.create(f.prototype)] returns; it is [undefined] for an arrow
    function, a bound function and a method.

    [thrown e] and [reportable e] say how the two [catch] blocks fare on a
    value [e] that a function threw.  [thrown e] is [None] when lines 263 to
    267 throw a [TypeError] on it: [new Error(e)] cannot convert [e] to a
    string, or [e] is an [Error] that takes no [ngTempTokenPath] (it is
    frozen or not extensible) or holds one that cannot be extended.
    Otherwise it is the list [e] held under [ngTempTokenPath] when it was
    thrown, which is empty unless [e] was given such a property.
    [reportable e] is false when lines 133 to 139 throw a [TypeError] on the
    error made of [e]: its [message] is truthy and no string, or [message]
    or [ngTokenPath] cannot be written. *)
Class Host := {
  expando : jsval → nat;
  call : jsval → jsval → list jsval → outcome;
  identSource : string;
  hasPrototype : jsval → bool;
  thrown : jsval → option (list jsval);
  reportable : jsval → bool
}.

(** ** Records *)

Definition OPT_OPTIONAL : Z := 1.
Definition OPT_CHECK_SELF : Z := 2.
Definition OPT_CHECK_PARENT : Z := 4.
Definition OPT_DEFAULT : Z := Z.lor OPT_CHECK_PARENT OPT_CHECK_SELF.

Inductive Fn :=
| IDENT
| MULTI_PROVIDER_FN
| UserFn (f : jsval).

(** The value slot; [CIRCULAR] is the in-progress mark. *)
Inductive slot :=
| EMPTY
| CIRCULAR
| Value (v : jsval).

Record DependencyRecord := mkDep {
  dep_id : string;
  dep_token : jsval;
  options : Z
}.

Record Record_ := mkRecord {
  token : jsval;
  fn : Fn;
  useNew : bool;
  deps : list DependencyRecord;
  value : slot
}.

Abbreviation Records := (gmap string Record_).

Definition set_value (s : slot) (r : Record_) : Record_ :=
  mkRecord (token r) (fn r) (useNew r) (deps r) s.

Definition push_dep (d : DependencyRecord) (r : Record_) : Record_ :=
  mkRecord (token r) (fn r) (useNew r) (deps r ++ [d]) (value r).

Definition is_multi_fn (f : Fn) : bool :=
  match f with MULTI_PROVIDER_FN => true | _ => false end.

(** The provider object literal, as [resolveProvider] reads it. *)
Record StaticProvider := mkProvider {
  provide : option jsval;
  useValue : option jsval;
  useFactory : option jsval;
  useExisting : option jsval;
  useClass : option jsval;
  provider_deps : option (list jsval);
  multi : option jsval
}.

Definition to_jsval (p : StaticProvider) : jsval :=
  VProvider (provide p) (useValue p) (useFactory p) (useExisting p)
            (useClass p) (provider_deps p) (multi p).

(** A property read: an absent key reads as [undefined]. *)
Definition prop (o : option jsval) : jsval := default VUndefined o.

(** ** Injector objects and the observable history *)

(** An injector is the terminal [_NullInjector] or a [StaticInjector] with
    its registry and its parent; [self] names the instance ([this]). *)
Inductive InjectorObj :=
| NULL_INJECTOR
| StaticInjector (self : nat) (_records : Records) (parent : InjectorObj).

(** What happened so far, newest first: each [fn.apply] and each [throw] of
    a new error.  The history is not read by the program. *)
Inductive Event :=
| Invoke (f : Fn) (this : jsval) (args : list jsval)
| Raise (k : ErrorKind).

(** [next] is the address [Object.create] hands out next. *)
Record World := mkWorld {
  log : list Event;
  next : nat
}.

Definition record_event (ev : Event) (w : World) : World :=
  mkWorld (ev :: log w) (next w).

Definition alloc (w : World) : World := mkWorld (log w) (S (next w)).

(** The state a resolution runs in: the registry of the current scope, its
    parent, and the world. *)
Record State := mkState {
  st_records : Records;
  st_parent : InjectorObj;
  st_world : World
}.

Definition with_records (f : Records → Records) (st : State) : State :=
  mkState (f (st_records st)) (st_parent st) (st_world st).

Definition with_parent (p : InjectorObj) (st : State) : State :=
  mkState (st_records st) p (st_world st).

Definition with_world (f : World → World) (st : State) : State :=
  mkState (st_records st) (st_parent st) (f (st_world st)).

(** [records[id]] as a reference: the key, when a record is stored there. *)
Definition lookupRef (records : Records) (id : string) : option string :=
  match records !! id with Some _ => Some id | None => None end.

Definition deref (records : Records) (record : option string)
  : option (string * Record_) :=
  k ← record; r ← records !! k; Some (k, r).

Definition has_opt (opts flag : Z) : bool := negb (Z.eqb (Z.land opts flag) 0).

Definition is_throw_if_not_found (v : jsval) : bool :=
  match v with
  | VThrowIfNotFound | VUndefined => true   (* [undefined] takes the default *)
  | _ => false
  end.

Inductive callResult := Returned (v : jsval) | Threw (k : ErrorKind).

Section Model.
Context `{Host}.

(** ** Token identity *)

Definition getId (obj : jsval) : result string :=
  if negb (truthy obj) then Err (newError (TokenMustBeTruthy obj))
  else
    let type := typeof obj in
    if bool_decide (type = "function") || bool_decide (type = "object")
    then Ok (type +:+ "_" +:+ pretty (expando obj))
    else Ok (type +:+ "_" +:+ toString obj).

(** ** Registry builder *)

(** One step of the annotation loop of [computeDeps]. *)
Definition annotate (acc : Z * jsval) (annotation : jsval) : Z * jsval :=
  let '(opts, tok) := acc in
  match annotation with
  | VMeta Optional _ => (Z.lor opts OPT_OPTIONAL, tok)
  | VMeta SkipSelf _ => (Z.land opts (Z.lnot OPT_CHECK_SELF), tok)
  | VMeta Self _ => (Z.land opts (Z.lnot OPT_CHECK_PARENT), tok)
  | VInject t => (opts, t)
  | _ => (opts, resolveForwardRef annotation)
  end.

(** The body of the outer loop of [computeDeps]. *)
Definition computeDep (providerDep : jsval) : result DependencyRecord :=
  let tok := resolveForwardRef providerDep in
  let '(opts, tok) :=
    match tok with
    | VArr annotations => fold_left annotate annotations (OPT_DEFAULT, tok)
    | _ => (OPT_DEFAULT, tok)
    end in
  id ← getId tok;
  Ok (mkDep id tok opts).

Fixpoint computeDepsLoop (providerDeps : list jsval)
  : result (list DependencyRecord) :=
  match providerDeps with
  | [] => Ok []
  | d :: rest =>
      r ← computeDep d;
      rs ← computeDepsLoop rest;
      Ok (r :: rs)
  end.

Definition computeDeps (provider : StaticProvider)
  : result (list DependencyRecord) :=
  match provider_deps provider with
  | Some (d :: rest) => computeDepsLoop (d :: rest)
  | providerDeps =>
      match useExisting provider with
      | Some e =>
          let tok := resolveForwardRef e in
          id ← getId tok;
          Ok [mkDep id tok OPT_DEFAULT]
      | None =>
          match providerDeps, useValue provider with
          | None, None => Err (newError (DepsRequired (to_jsval provider)))
          | _, _ => Ok []
          end
      end
  end.

Definition resolveProvider (provider : StaticProvider) : result Record_ :=
  ds ← computeDeps provider;
  let tok := resolveForwardRef (prop (provide provider)) in
  match useValue provider, useFactory provider,
        useExisting provider, useClass provider with
  | Some v, _, _, _ => Ok (mkRecord tok IDENT false ds (Value v))
  | None, Some f, _, _ => Ok (mkRecord tok (UserFn f) false ds EMPTY)
  | None, None, Some _, _ => Ok (mkRecord tok IDENT false ds EMPTY)
  | None, None, None, Some c =>
      Ok (mkRecord tok (UserFn (resolveForwardRef c)) true ds EMPTY)
  | None, None, None, None =>
      if bool_decide (typeof tok = "function")
      then Ok (mkRecord tok (UserFn tok) true ds EMPTY)
      else Err (newError (NotNewable (to_jsval provider)))
  end.

Definition multiProviderMixError (tok : jsval) : Error :=
  newError (MultiProviderMix tok).

(** The private key of the [n]-th constituent of a multi provider. *)
Definition multiId (n : nat) (id : string) : string :=
  "_" +:+ pretty n +:+ "_" +:+ id.

(** The last step of the provider branch: the check before the store. *)
Definition storeProvider (records : Records) (id : string) (tok : jsval)
    (resolvedProvider : Record_) : result Records :=
  match records !! id with
  | Some r =>
      if is_multi_fn (fn r) then Err (multiProviderMixError tok)
      else Ok (<[id := resolvedProvider]> records)
  | None => Ok (<[id := resolvedProvider]> records)
  end.

(** The branch of [recursivelyProcessProviders] for [{provide: .., ..}]. *)
Definition processProvider (records : Records) (provider : StaticProvider)
  : result Records :=
  let tok := resolveForwardRef (prop (provide provider)) in
  id ← getId tok;
  resolvedProvider ← resolveProvider provider;
  match multi provider with
  | Some (VBool true) =>
      match records !! id with
      | Some multiProvider =>
          if is_multi_fn (fn multiProvider) then
            let id' := multiId (length (deps multiProvider)) id in
            let records :=
              <[id := push_dep (mkDep id' tok OPT_DEFAULT) multiProvider]>
                records in
            storeProvider records id' tok resolvedProvider
          else Err (multiProviderMixError tok)
      | None =>
          let multiProvider :=
            mkRecord (prop (provide provider)) MULTI_PROVIDER_FN false [] EMPTY in
          let id' := multiId 0 id in
          let records :=
            <[id := push_dep (mkDep id' tok OPT_DEFAULT) multiProvider]>
              records in
          storeProvider records id' tok resolvedProvider
      end
  | _ => storeProvider records id tok resolvedProvider
  end.

Fixpoint recursivelyProcessProviders (records : Records) (provider : jsval)
  : result Records :=
  if negb (truthy provider) then Ok records
  else
    match resolveForwardRef provider with
    | VArr elems =>
        (fix loop (l : list jsval) (records : Records) : result Records :=
           match l with
           | [] => Ok records
           | p :: rest =>
               match recursivelyProcessProviders records p with
               | Ok records' => loop rest records'
               | Err e => Err e
               end
           end) elems records
    | VFun _ | VMeta _ false =>
        Err (newError (FunctionNotSupported provider))
    | VProvider (Some p) v f e c d m =>
        processProvider records (mkProvider (Some p) v f e c d m)
    | _ => Err (newError (UnexpectedProvider provider))
    end.

(** ** Resolver *)

(** [fn.apply(this, args)]. *)
Definition applyFn (f : Fn) (this : jsval) (args : list jsval) : callResult :=
  match f with
  | IDENT => Returned (default VUndefined (head args))
  | MULTI_PROVIDER_FN => Returned (VArr args)
  | UserFn g =>
      if bool_decide (typeof g = "function") then
        match call g this args with
        | Return v => Returned v
        | Throw p => Threw (HostThrown p)
        end
      else Threw TypeError
  end.

(** Whether [Object.create(fn.prototype)] returns; otherwise it throws a
    [TypeError]. *)
Definition has_prototype (f : Fn) : bool :=
  match f with
  | UserFn g => bool_decide (typeof g = "function") && hasPrototype g
  | _ => true
  end.

(** The part of [resolveToken] after the dependency loop. *)
Definition construct (k : string) (r : Record_) (args : list jsval)
    (st : State) : result jsval * State :=
  let finish obj st :=
    let st := with_world (record_event (Invoke (fn r) obj args)) st in
    match applyFn (fn r) obj args with
    | Threw e => (Err (newError e), with_world (record_event (Raise e)) st)
    | Returned v =>
        let v :=
          match useNew r, v with
          | true, VUndefined => obj
          | _, _ => v
          end in
        (Ok v, with_records (alter (set_value (Value v)) k) st)
    end in
  if useNew r then
    if has_prototype (fn r) then
      finish (VInst (next (st_world st))) (with_world alloc st)
    else
      (Err (newError TypeError), with_world (record_event (Raise TypeError)) st)
  else finish VUndefined st.

(** The record the loop passes for a dependency:
    [options & OPT_CHECK_SELF ? records[depRecord.id] : undefined]. *)
Definition childRecordOf (records : Records) (d : DependencyRecord)
  : option string :=
  if has_opt (options d) OPT_CHECK_SELF
  then lookupRef records (dep_id d) else None.

(** [!childRecord && !(options & OPT_CHECK_PARENT)]: the dependency is
    handed the null injector instead of the parent. *)
Definition delegatesToNull (childRecord : option string)
    (d : DependencyRecord) : bool :=
  match childRecord with
  | None => negb (has_opt (options d) OPT_CHECK_PARENT)
  | Some _ => false
  end.

Definition notFoundFor (d : DependencyRecord) : jsval :=
  if has_opt (options d) OPT_OPTIONAL then VNull else VThrowIfNotFound.

(** One iteration of the dependency loop of [resolveToken]; [try] is
    [tryResolveToken]. *)
Definition resolveDep
    (try : jsval → option string → State → jsval → option (result jsval * State))
    (d : DependencyRecord) (st : State) : option (result jsval * State) :=
  let childRecord := childRecordOf (st_records st) d in
  if delegatesToNull childRecord d then
    match try (dep_token d) childRecord (with_parent NULL_INJECTOR st)
              (notFoundFor d) with
    | None => None
    | Some (r, st') => Some (r, with_parent (st_parent st) st')
    end
  else try (dep_token d) childRecord st (notFoundFor d).

(** The dependency loop; [acc] is the array [deps] being filled. *)
Fixpoint resolveDeps
    (try : jsval → option string → State → jsval → option (result jsval * State))
    (depRecords : list DependencyRecord) (st : State) (acc : list jsval)
  : option (result (list jsval) * State) :=
  match depRecords with
  | [] => Some (Ok acc, st)
  | depRecord :: rest =>
      match resolveDep try depRecord st with
      | None => None
      | Some (Err e, st') => Some (Err e, st')
      | Some (Ok v, st') => resolveDeps try rest st' (acc ++ [v])
      end
  end.

(** [v == IDENT] for a value [v] other than the function itself: the
    comparison converts the function to its source text, so it holds for
    the string equal to that text and for nothing else. *)
Definition equalsIDENT (v : jsval) : bool :=
  match v with
  | VStr s => bool_decide (s = identSource)
  | _ => false
  end.

(** [value == CIRCULAR], where [CIRCULAR] is the function [IDENT]. *)
Definition equalsCIRCULAR (s : slot) : bool :=
  match s with
  | CIRCULAR => true
  | Value v => equalsIDENT v
  | EMPTY => false
  end.

(** [e[NG_TEMP_TOKEN_PATH] || []] once [e] is an [Error] that holds it:
    [None] when making sure of that throws.  Errors of this file and of the
    runtime are new objects and take the property; what a function threw is
    asked of the host when it is caught first, which is when it carries
    neither path. *)
Definition pathOf (e : Error) : option (list jsval) :=
  match kind e, ngTempTokenPath e, ngTokenPath e with
  | HostThrown payload, [], None => thrown payload
  | _, path, _ => Some path
  end.

(** The [catch] block of [tryResolveToken].  The statements before the
    reset of the mark may throw; the reset is then not reached. *)
Definition catchResolve (tok : jsval) (record : option string) (e : Error)
    (st : State) : result jsval * State :=
  let typeError :=
    (Err (newError TypeError), with_world (record_event (Raise TypeError)) st) in
  match pathOf e with
  | None => typeError
  | Some path =>
      let first :=
        if truthy tok then Some tok
        else (λ kr, token kr.2) <$> deref (st_records st) record in
      match first with
      | None => typeError
      | Some t =>
          let e := mkError (kind e) (t :: path) (ngTokenPath e) in
          match deref (st_records st) record with
          | Some (k, r) =>
              if equalsCIRCULAR (value r)
              then (Err e, with_records (alter (set_value EMPTY) k) st)
              else (Err e, st)
          | None => (Err e, st)
          end
      end
  end.

(** Whether the [catch] block of [get] can rewrite the message of [e] and
    store the path on it. *)
Definition reported (e : Error) : bool :=
  match kind e with
  | HostThrown payload => reportable payload
  | _ => true
  end.

(** The [catch] block of [StaticInjector.get]: the error it throws.  The
    path is [undefined] when the error carries none. *)
Definition catchGet (e : Error) (w : World) : Error * World :=
  if reported e then
    (mkError (kind e) []
       match ngTempTokenPath e with [] => None | path => Some path end, w)
  else (newError TypeError, record_event (Raise TypeError) w).

Fixpoint get (fuel : nat) (this : InjectorObj) (w : World)
    (tok notFoundValue : jsval) {struct fuel}
  : option (result jsval * InjectorObj * World) :=
  match fuel with
  | O => None
  | S fuel =>
      match this with
      | NULL_INJECTOR =>
          if is_throw_if_not_found notFoundValue then
            Some (Err (newError (NoProvider tok)), this,
                  record_event (Raise (NoProvider tok)) w)
          else Some (Ok notFoundValue, this, w)
      | StaticInjector self records parent =>
          match getId tok with
          | Err e => Some (Err e, this, record_event (Raise (kind e)) w)
          | Ok id =>
              let record := lookupRef records id in
              match tryResolveToken fuel tok record
                      (mkState records parent w) notFoundValue with
              | None => None
              | Some (Ok v, st) =>
                  Some (Ok v,
                        StaticInjector self (st_records st) (st_parent st),
                        st_world st)
              | Some (Err e, st) =>
                  let (e, w) := catchGet e (st_world st) in
                  Some (Err e,
                        StaticInjector self (st_records st) (st_parent st), w)
              end
          end
      end
  end
with tryResolveToken (fuel : nat) (tok : jsval) (record : option string)
    (st : State) (notFoundValue : jsval) {struct fuel}
  : option (result jsval * State) :=
  match fuel with
  | O => None
  | S fuel =>
      match resolveToken fuel tok record st notFoundValue with
      | Some (Err e, st') => Some (catchResolve tok record e st')
      | r => r
      end
  end
with resolveToken (fuel : nat) (tok : jsval) (record : option string)
    (st : State) (notFoundValue : jsval) {struct fuel}
  : option (result jsval * State) :=
  match fuel with
  | O => None
  | S fuel =>
      match deref (st_records st) record with
      | Some (k, r) =>
          (* [value == CIRCULAR] holds of the mark and of a value that [==]
             equates with the function *)
          let circular :=
            Some (Err (newError CircularDependency),
                  with_world (record_event (Raise CircularDependency)) st) in
          match value r with
          | CIRCULAR => circular
          | Value v => if equalsIDENT v then circular else Some (Ok v, st)
          | EMPTY =>
              let st := with_records (alter (set_value CIRCULAR) k) st in
              match resolveDeps (tryResolveToken fuel) (deps r) st [] with
              | None => None
              | Some (Err e, st) => Some (Err e, st)
              | Some (Ok args, st) => Some (construct k r args st)
              end
          end
      | None =>
          match get fuel (st_parent st) (st_world st) tok notFoundValue with
          | None => None
          | Some (r, parent, w) => Some (r, mkState (st_records st) parent w)
          end
      end
  end.

(** ** Scope construction: [Injector.create] / [new StaticInjector] *)

Definition selfRecord (self : nat) : Record_ :=
  mkRecord Injector IDENT false [] (Value (VInjector self)).

Definition create (self : nat) (providers : jsval) (parent : InjectorObj)
  : result InjectorObj :=
  id ← getId Injector;
  records ← recursivelyProcessProviders {[ id := selfRecord self ]} providers;
  Ok (StaticInjector self records parent).

End Model.

(** ** Key names *)

(** [GET_PROPERTY_NAME], the marker object of the key-name literals. *)
Definition GET_PROPERTY_NAME : jsval := VObj 0.

(** [v === GET_PROPERTY_NAME]. *)
Definition is_GET_PROPERTY_NAME (v : jsval) : bool :=
  match v with VObj 0 => true | _ => false end.

(** [getClosureSafeProperty] over an object literal, given as its keys and
    values in the order written; [None] is [throw Error('!prop')]. *)
Fixpoint getClosureSafeProperty
    (objWithPropertyToExtract : list (string * jsval)) : option string :=
  match objWithPropertyToExtract with
  | [] => None
  | (key, v) :: rest =>
      if is_GET_PROPERTY_NAME v then Some key else getClosureSafeProperty rest
  end.

(** The key-name constants; [String] is a function, [EMPTY] an empty
    array. *)
Definition USE_CLASS : option string :=
  getClosureSafeProperty
    [("provide", VFun 1); ("useClass", GET_PROPERTY_NAME); ("deps", VArr [])].

Definition USE_VALUE : option string :=
  getClosureSafeProperty
    [("provide", VFun 1); ("useValue", GET_PROPERTY_NAME)].

Definition USE_FACTORY : option string :=
  getClosureSafeProperty
    [("provide", VFun 1); ("useFactory", GET_PROPERTY_NAME)].

Definition USE_EXISTING : option string :=
  getClosureSafeProperty
    [("provide", VFun 1); ("useExisting", GET_PROPERTY_NAME)].

Definition PROVIDE : option string :=
  getClosureSafeProperty
    [("provide", GET_PROPERTY_NAME); ("useValue", VNull)].

Definition MULTI : option string :=
  getClosureSafeProperty
    [("provide", VFun 1); ("multi", GET_PROPERTY_NAME); ("deps", VArr [])].

(** ** Predicates used to state the properties *)

(** How a value slot may differ before and after a call that returned. *)
Inductive ok_step : slot → slot → Prop :=
| ok_keep s : ok_step s s
| ok_fill v : ok_step EMPTY (Value v).

(** How a value slot may differ before and after a call that threw: a
    [catch] block resets what [==] takes for the mark, and the mark stays
    on a record whose [catch] block threw, which takes a value the host
    does not let it annotate. *)
Inductive err_step `{Host} : slot → slot → Prop :=
| err_keep s : err_step s s
| err_fill v : err_step EMPTY (Value v)
| err_reset s : equalsCIRCULAR s = true → err_step s EMPTY
| err_stuck payload : thrown payload = None → err_step EMPTY CIRCULAR.

Definition step_of `{Host} {A} (r : result A) : slot → slot → Prop :=
  match r with Ok _ => ok_step | Err _ => err_step end.

(** The same record object, its slot related by [R]. *)
Definition same_record (R : slot → slot → Prop) (r r' : Record_) : Prop :=
  token r = token r' ∧ fn r = fn r' ∧ useNew r = useNew r' ∧
  deps r = deps r' ∧ R (value r) (value r').

Definition records_rel (R : slot → slot → Prop) (m m' : Records) : Prop :=
  ∀ k, option_Forall2 (same_record R) (m !! k) (m' !! k).

Inductive injector_rel (R : slot → slot → Prop)
  : InjectorObj → InjectorObj → Prop :=
| rel_null : injector_rel R NULL_INJECTOR NULL_INJECTOR
| rel_static self m m' p p' :
    records_rel R m m' → injector_rel R p p' →
    injector_rel R (StaticInjector self m p) (StaticInjector self m' p').

Definition state_rel (R : slot → slot → Prop) (st st' : State) : Prop :=
  records_rel R (st_records st) (st_records st') ∧
  injector_rel R (st_parent st) (st_parent st').

Definition is_empty (s : slot) : bool :=
  match s with EMPTY => true | _ => false end.

Definition is_circular (s : slot) : bool :=
  match s with CIRCULAR => true | _ => false end.

(** The registry while [resolveToken] runs on [record]: an unresolved
    record carries the mark. *)
Definition mark_records (record : option string) (m : Records) : Records :=
  match deref m record with
  | Some (k, r) =>
      if is_empty (value r) then alter (set_value CIRCULAR) k m else m
  | None => m
  end.

(** The registry after the reset in the [catch] block of
    [tryResolveToken]. *)
Definition unmark_records `{Host} (record : option string) (m : Records)
  : Records :=
  match deref m record with
  | Some (k, r) =>
      if equalsCIRCULAR (value r) then alter (set_value EMPTY) k m else m
  | None => m
  end.

Definition marked (record : option string) (st : State) : State :=
  with_records (mark_records record) st.

(** [mark_records] and [unmark_records] change the slot of one record. *)
Definition at_record (f : slot → slot) (record : option string) (m : Records)
  : Records :=
  match record with
  | Some k => alter (λ r, set_value (f (value r)) r) k m
  | None => m
  end.

Definition mark_slot (s : slot) : slot := if is_empty s then CIRCULAR else s.

Definition unmark_slot `{Host} (s : slot) : slot :=
  if equalsCIRCULAR s then EMPTY else s.

(** The keys of the unresolved records of a registry. *)
Definition empties (m : Records) : gset string :=
  dom (filter (λ kr, is_empty (value kr.2)) m).

(** Fuel that suffices for [get], for [tryResolveToken] and for
    [resolveToken]. *)
Fixpoint fuel_bound (inj : InjectorObj) : nat :=
  match inj with
  | NULL_INJECTOR => 1
  | StaticInjector _ m p => 2 * size (empties m) + 3 + fuel_bound p
  end.

Definition try_bound (st : State) : nat :=
  2 * size (empties (st_records st)) + 2 + fuel_bound (st_parent st).

(** No record of the chain is marked in progress. *)
Definition quiet_records (m : Records) : Prop :=
  ∀ k r, m !! k = Some r → value r ≠ CIRCULAR.

Fixpoint quiet (inj : InjectorObj) : Prop :=
  match inj with
  | NULL_INJECTOR => True
  | StaticInjector _ m p => quiet_records m ∧ quiet p
  end.

Local Open Scope nat_scope.
Local Open Scope list_scope.

(** Every dependency token of every record is truthy, as [getId] demands of
    the tokens that [computeDeps] and the multi branch store. *)
Definition truthy_deps (m : Records) : Prop :=
  ∀ k r, m !! k = Some r → Forall (λ d, truthy (dep_token d) = true) (deps r).

Fixpoint truthy_chain (inj : InjectorObj) : Prop :=
  match inj with
  | NULL_INJECTOR => True
  | StaticInjector _ m p => truthy_deps m ∧ truthy_chain p
  end.

Definition is_invoke (ev : Event) : Prop :=
  match ev with Invoke _ _ _ => True | Raise _ => False end.

(** A value thrown by a function on which a [catch] block throws. *)
Definition unhandled `{Host} (payload : jsval) : Prop :=
  thrown payload = None ∨ reportable payload = false.

(** The history [l'] extends [l] by the events of a call that threw [e] and
    whose functions all returned before that: the [Raise] of [e] and nothing
    after it, or, when a [catch] block threw on what a function had thrown,
    the [Raise] of that value and then the one of the [TypeError]. *)
Definition raised `{Host} (e : Error) (d l l' : list Event) : Prop :=
  l' = Raise (kind e) :: d ++ l ∨
  ∃ payload, unhandled payload ∧ kind e = TypeError ∧
             l' = Raise TypeError :: Raise (HostThrown payload) :: d ++ l.

(** The history [l'] extends [l] by the events of a call with result [r]:
    calls of functions and, exactly when the call threw, what [raised]
    says. *)
Definition events_of `{Host} {A} (r : result A) (l l' : list Event) : Prop :=
  ∃ d, Forall is_invoke d ∧
       match r with
       | Ok _ => l' = d ++ l
       | Err e => raised e d l l'
       end.

(** Whatever a function throws, the [catch] block of [tryResolveToken] can
    annotate it. *)
Definition handled_throws `{Host} : Prop := ∀ payload, thrown payload ≠ None.

(** A resolved slot keeps its value, unless [==] takes the value for the
    mark. *)
Definition resolved_kept `{Host} (s s' : slot) : Prop :=
  ∀ v, s = Value v → equalsIDENT v = false → s' = Value v.

(** The states a scope goes through: [later_state inj inj'] when [inj'] is
    what calls of [get], of any tokens and with any outcome, made of [inj]. *)
Inductive later_state `{Host} : InjectorObj → InjectorObj → Prop :=
| later_now inj : later_state inj inj
| later_get fuel inj w tok nf r inj1 w1 inj2 :
    get fuel inj w tok nf = Some (r, inj1, w1) →
    later_state inj1 inj2 → later_state inj inj2.

(** No scope of the chain has a record under [id]. *)
Fixpoint no_provider (inj : InjectorObj) (id : string) : Prop :=
  match inj with
  | NULL_INJECTOR => True
  | StaticInjector _ m p => m !! id = None ∧ no_provider p id
  end.

(** What [tryResolveToken] makes of the outcome of a delegated call: a
    thrown error gets the token prepended to its path. *)
Definition rethrow (tok : jsval) (r : result jsval) : result jsval :=
  match r with
  | Ok v => Ok v
  | Err e => Err (mkError (kind e) (tok :: ngTempTokenPath e) (ngTokenPath e))
  end.


(** The dependency is looked up in the current registry, where its record
    holds the value [x]. *)
Definition resolved_to (m : Records) (d : DependencyRecord) (x : jsval)
  : Prop :=
  has_opt (options d) OPT_CHECK_SELF = true ∧
  ∃ r, m !! dep_id d = Some r ∧ value r = Value x.

Definition resolved_locally (m : Records) (d : DependencyRecord) : Prop :=
  ∃ x, resolved_to m d x.

(** [C] is a set of keys of [m] closed under "depends on": each key in [C]
    has a record that is not resolved and whose first dependency that is not
    already resolved is looked up locally under a key of [C].  A dependency
    cycle of any length is such a set, and so is a chain leading into one. *)
Definition dependency_cycle (m : Records) (C : string → Prop) : Prop :=
  ∀ k, C k →
    ∃ r pre d rest,
      m !! k = Some r ∧ (∀ v, value r ≠ Value v) ∧
      deps r = pre ++ d :: rest ∧ Forall (resolved_locally m) pre ∧
      has_opt (options d) OPT_CHECK_SELF = true ∧ C (dep_id d).

(** An id as [getId] makes them: it does not start with an underscore. *)
Definition raw (id : string) : Prop :=
  ∃ c s, id = String c s ∧ c ≠ "_"%char.

Fixpoint no_underscore (s : string) : Prop :=
  match s with
  | EmptyString => True
  | String c s => c ≠ "_"%char ∧ no_underscore s
  end.

(** The entries [recursivelyProcessProviders] reaches, in the order it
    reaches them: nested arrays are entered, falsy entries are left out. *)
Fixpoint flatten (provider : jsval) : list jsval :=
  if negb (truthy provider) then []
  else
    match provider with
    | VArr elems =>
        (fix go (l : list jsval) : list jsval :=
           match l with
           | [] => []
           | p :: rest => flatten p ++ go rest
           end) elems
    | _ => [provider]
    end.

(** [recursivelyProcessProviders] over the entries of a list, in order. *)
Fixpoint processAll `{Host} (records : Records) (entries : list jsval)
  : result Records :=
  match entries with
  | [] => Ok records
  | e :: rest =>
      match recursivelyProcessProviders records e with
      | Ok records' => processAll records' rest
      | Err err => Err err
      end
  end.

(** An entry that is an object with a [provide] key. *)
Definition as_provider (entry : jsval) : option StaticProvider :=
  match entry with
  | VProvider (Some p) v f e c d m => Some (mkProvider (Some p) v f e c d m)
  | _ => None
  end.

(** The provider descriptions of a provider list, in registration order. *)
Definition descriptions (providers : jsval) : list StaticProvider :=
  omap as_provider (flatten providers).

Fixpoint processProviders `{Host} (records : Records)
    (sps : list StaticProvider) : result Records :=
  match sps with
  | [] => Ok records
  | sp :: rest =>
      match processProvider records sp with
      | Ok records' => processProviders records' rest
      | Err err => Err err
      end
  end.

Definition id_of `{Host} (sp : StaticProvider) : result string :=
  getId (resolveForwardRef (prop (provide sp))).

(** [provider.multi === true]. *)
Definition is_multi (sp : StaticProvider) : bool :=
  match multi sp with Some (VBool true) => true | _ => false end.

Definition has_id `{Host} (id : string) (sp : StaticProvider) : bool :=
  match id_of sp with Ok i => bool_decide (i = id) | Err _ => false end.

(** The descriptions registered for the token with id [id]. *)
Definition contributions `{Host} (id : string) (sps : list StaticProvider)
  : list StaticProvider :=
  filter (λ sp, has_id id sp = true) sps.

(** The placeholder record a first multi description creates. *)
Definition multiPlaceholder (sp : StaticProvider) : Record_ :=
  mkRecord (prop (provide sp)) MULTI_PROVIDER_FN false [] EMPTY.

(** The dependency the multi branch pushes for the [n]-th constituent. *)
Definition multiDep (id : string) (n : nat) (sp : StaticProvider)
  : DependencyRecord :=
  mkDep (multiId n id) (resolveForwardRef (prop (provide sp))) OPT_DEFAULT.

(** What a registry built from the descriptions [done] holds under the id of
    each token: nothing when the token has no description; the placeholder,
    unresolved, with one dependency per description in registration order and
    the record of the [i]-th description under the [i]-th private key, when
    the descriptions are multi; a regular record when none of them is. *)
Definition registry_inv `{Host} (done : list StaticProvider)
    (recs : Records) : Prop :=
  ∀ id, raw id →
    let cs := contributions id done in
    match recs !! id with
    | None => cs = []
    | Some r =>
        if is_multi_fn (fn r) then
          Forall (λ sp, is_multi sp = true) cs ∧
          value r = EMPTY ∧ useNew r = false ∧
          deps r = imap (multiDep id) cs ∧
          ∀ i sp, cs !! i = Some sp →
            ∃ rp, resolveProvider sp = Ok rp ∧ recs !! multiId i id = Some rp
        else Forall (λ sp, is_multi sp = false) cs
    end.

(** The registry of an injector; the null injector has none. *)
Definition records_of (inj : InjectorObj) : Records :=
  match inj with
  | NULL_INJECTOR => ∅
  | StaticInjector _ m _ => m
  end.


(** ** Predicates for the further properties *)

(** Tokens that [getId] identifies by the number cached on them rather than
    by their text. *)
Definition by_reference (v : jsval) : bool :=
  bool_decide (typeof v = "function") || bool_decide (typeof v = "object").






(** The id of the [Injector] token, under which the constructor seeds the
    record of the injector itself. *)
Definition injectorId `{Host} : string :=
  typeof Injector +:+ "_" +:+ pretty (expando Injector).


(** Which keys a registry built from the descriptions [done] holds: the
    seeded one, the ids of described tokens, and the private keys of the
    constituents of multi providers; multi records sit under ids only. *)
Definition keys_inv `{Host} (done : list StaticProvider) (recs : Records)
  : Prop :=
  (∃ r, recs !! injectorId = Some r ∧ is_multi_fn (fn r) = false) ∧
  (∀ k r, recs !! k = Some r → is_multi_fn (fn r) = true →
          raw k ∧ contributions k done ≠ []) ∧
  (∀ k, raw k → is_Some (recs !! k) →
        k = injectorId ∨ contributions k done ≠ []) ∧
  (∀ k, ¬ raw k → is_Some (recs !! k) →
        ∃ i id r, k = multiId i id ∧ raw id ∧
                  i < length (contributions id done) ∧
                  recs !! id = Some r ∧ is_multi_fn (fn r) = true).

(** The error a chain without a provider for [tok] throws: the null
    injector's, with the token path when a [StaticInjector] passed it on. *)
Definition noProviderError (inj : InjectorObj) (tok : jsval) : Error :=
  match inj with
  | NULL_INJECTOR => newError (NoProvider tok)
  | StaticInjector _ _ _ => mkError (NoProvider tok) [] (Some [tok])
  end.

(** The errors a resolution raises by itself, as opposed to those of the
    registry builder. *)
Definition raised_by_resolution (k : ErrorKind) : Prop :=
  match k with
  | NoProvider _ | CircularDependency | TypeError | HostThrown _ => True
  | _ => False
  end.

(** [path] follows dependencies from the record [record]: its first token is
    a dependency of that record, the next one a dependency of the record the
    loop looks up for the first, and so on. *)
Fixpoint dep_chain (m : Records) (record : option string) (path : list jsval)
  : Prop :=
  match path with
  | [] => True
  | t :: rest =>
      ∃ k r d, record = Some k ∧ m !! k = Some r ∧ d ∈ deps r ∧
               dep_token d = t ∧ dep_chain m (childRecordOf m d) rest
  end.

(** What the path of an error of kind [k] ends with, after the tokens the
    [catch] blocks put in front: nothing, or the path that the value a
    function threw carried already. *)
Definition carried `{Host} (k : ErrorKind) (tail : list jsval) : Prop :=
  tail = [] ∨ ∃ payload, k = HostThrown payload ∧ thrown payload = Some tail.

(** [path] follows dependencies from [record] and ends with what the error
    carried. *)
Definition path_along `{Host} (m : Records) (record : option string)
    (e : Error) (path : list jsval) : Prop :=
  ∃ rest tail, path = rest ++ tail ∧ dep_chain m record rest ∧
               carried (kind e) tail.

(** What a function threw, before any [catch] block saw it. *)
Definition unseen (e : Error) : Prop :=
  ∃ payload, kind e = HostThrown payload ∧ ngTempTokenPath e = [] ∧
             ngTokenPath e = None.

(** The error that leaves [tryResolveToken] for [tok]: it carries no path
    when the [catch] block threw, and a path from [tok] on otherwise. *)
Definition annotated `{Host} (m : Records) (tok : jsval) (record : option string)
    (e : Error) : Prop :=
  pathOf e = Some (ngTempTokenPath e) ∧
  (ngTempTokenPath e = [] ∧ kind e = TypeError ∨
   ∃ path, ngTempTokenPath e = tok :: path ∧ path_along m record e path).

(** The record under [k] has a dependency that the loop looks up in the same
    registry, under [k']. *)
Definition depends_on (m : Records) (k k' : string) : Prop :=
  ∃ r d, m !! k = Some r ∧ d ∈ deps r ∧ childRecordOf m d = Some k'.

(** Some registry of the chain has a record that depends on itself, directly
    or through other records. *)
Fixpoint has_cycle (inj : InjectorObj) : Prop :=
  match inj with
  | NULL_INJECTOR => False
  | StaticInjector _ m p => (∃ k, tc (depends_on m) k k) ∨ has_cycle p
  end.

(** What a circular-dependency error out of the resolution of [record]
    witnesses: a cycle, or a record in progress that [record] leads to. *)
Definition cycle_or_mark (st : State) (record : option string) : Prop :=
  (∃ k, tc (depends_on (st_records st)) k k) ∨
  has_cycle (st_parent st) ∨
  ∃ k0 k1 r1,
    record = Some k0 ∧ rtc (depends_on (st_records st)) k0 k1 ∧
    st_records st !! k1 = Some r1 ∧ value r1 = CIRCULAR.

(** No slot of the registry holds the string that [==] equates with
    [IDENT]. *)
Definition plain_records `{Host} (m : Records) : Prop :=
  ∀ k r v, m !! k = Some r → value r = Value v → equalsIDENT v = false.

Fixpoint plain_chain `{Host} (inj : InjectorObj) : Prop :=
  match inj with
  | NULL_INJECTOR => True
  | StaticInjector _ m p => plain_records m ∧ plain_chain p
  end.

(** No call of the history returned that string. *)
Definition plain_calls `{Host} (l : list Event) : Prop :=
  ∀ f this args v,
    Invoke (UserFn f) this args ∈ l → call f this args = Return v →
    equalsIDENT v = false.

(** What a resolution that starts without coerced values leaves behind when
    it returns, and what a circular error out of it witnesses. *)
Definition sound `{Host} (st : State) (record : option string) (nf : jsval)
    (r : result jsval) (st' : State) : Prop :=
  match r with
  | Ok v =>
      plain_records (st_records st') ∧ plain_chain (st_parent st') ∧
      (equalsIDENT nf = false → equalsIDENT v = false)
  | Err e => kind e = CircularDependency → cycle_or_mark st record
  end.

(** Some scope of the chain has a record under [id]. *)
Fixpoint provided (inj : InjectorObj) (id : string) : Prop :=
  match inj with
  | NULL_INJECTOR => False
  | StaticInjector _ m p => is_Some (m !! id) ∨ provided p id
  end.

(** The number of unresolved records of a chain. *)
Fixpoint unresolved (inj : InjectorObj) : nat :=
  match inj with
  | NULL_INJECTOR => 0
  | StaticInjector _ m p => size (empties m) + unresolved p
  end.

Definition unresolved_state (st : State) : nat :=
  size (empties (st_records st)) + unresolved (st_parent st).

(** The history [l'] extends [l] by [n] calls of functions. *)
Definition calls_of (n : nat) (l l' : list Event) : Prop :=
  ∃ evs, l' = evs ++ l ∧ Forall is_invoke evs ∧ length evs = n.

(** The record under [k] was unresolved in [m] and is resolved in [m']. *)
Definition resolved_by (m m' : Records) (k : string) : Prop :=
  ∃ r r' v, m !! k = Some r ∧ value r = EMPTY ∧
            m' !! k = Some r' ∧ value r' = Value v.

(** ** A concrete host and concrete provider lists *)

(** Functions are numbered by their [VFun] name: 1 adds one to its argument,
    2 returns its argument, 4 throws, every other one returns [undefined]. *)
Definition host0 : Host := {|
  expando v :=
    match v with
    | VFun n | VObj n | VInst n | VInjector n => n
    | _ => 0
    end;
  call f this args :=
    match f, args with
    | VFun 1, [VNum a] => Return (VNum (a + 1))
    | VFun 2, [x] => Return x
    | VFun 4, _ => Throw (VStr "boom")
    | _, _ => Return VUndefined
    end;
  identSource := "function IDENT(value) { return value; }";
  hasPrototype _ := true;
  thrown _ := Some [];
  reportable _ := true
|}.

Definition valueProvider (tok v : jsval) : jsval :=
  VProvider (Some tok) (Some v) None None None None None.

Definition multiValueProvider (tok v : jsval) : jsval :=
  VProvider (Some tok) (Some v) None None None None (Some (VBool true)).

Definition factoryProvider (tok f : jsval) (ds : list jsval) : jsval :=
  VProvider (Some tok) None (Some f) None None (Some ds) None.

Definition world0 : World := mkWorld [] 0.

Definition created (r : result InjectorObj) : InjectorObj :=
  match r with Ok inj => inj | Err _ => NULL_INJECTOR end.

(** [{provide: 'A', useValue: 1}, {provide: 'B', useFactory: a => a + 1,
    deps: ['A']}] *)
Definition providersAB : jsval :=
  VArr [valueProvider (VStr "A") (VNum 1);
        factoryProvider (VStr "B") (VFun 1) [VStr "A"]].

Definition injectorAB : InjectorObj :=
  created (create (H:=host0) 7 providersAB NULL_INJECTOR).

(** The scope and the world a call of [get] leaves behind. *)
Definition state_after (r : option (result jsval * InjectorObj * World))
  : InjectorObj * World :=
  match r with
  | Some (_, inj, w) => (inj, w)
  | None => (NULL_INJECTOR, world0)
  end.

(** [injectorAB] after [get('B')], and after a following [get('A')]. *)
Definition afterB : InjectorObj * World :=
  state_after (get (H:=host0) 6 injectorAB world0 (VStr "B") VUndefined).

Definition afterBA : InjectorObj * World :=
  state_after (get (H:=host0) 6 afterB.1 afterB.2 (VStr "A") VUndefined).

(** [{provide: 'X', useFactory: x => x, deps: ['X']}] *)
Definition providersX : jsval :=
  VArr [factoryProvider (VStr "X") (VFun 2) [VStr "X"]].

Definition injectorX : InjectorObj :=
  created (create (H:=host0) 7 providersX NULL_INJECTOR).

(** Three multi values for ['M'], one behind a falsy entry and one nested. *)
Definition providersM : jsval :=
  VArr [multiValueProvider (VStr "M") (VNum 1); VNull;
        VArr [multiValueProvider (VStr "M") (VNum 2)];
        multiValueProvider (VStr "M") (VNum 3)].

Definition injectorM : InjectorObj :=
  created (create (H:=host0) 7 providersM NULL_INJECTOR).

(** A provider list that overrides the [Injector] token. *)
Definition providersOverride : jsval :=
  VArr [valueProvider Injector (VNum 42)].



Definition existingProvider (tok existing : jsval) : jsval :=
  VProvider (Some tok) None None (Some existing) None None None.

(** ['A'] registered twice, then ['B']. *)
Definition providersAAB : jsval :=
  VArr [valueProvider (VStr "A") (VNum 1); valueProvider (VStr "A") (VNum 2);
        factoryProvider (VStr "B") (VFun 1) [VStr "A"]].

Definition injectorAAB : InjectorObj :=
  created (create (H:=host0) 7 providersAAB NULL_INJECTOR).

(** [{provide: 'B', useValue: 5}, {provide: 'A', useExisting: 'B'}] *)
Definition providersAlias : jsval :=
  VArr [valueProvider (VStr "B") (VNum 5);
        existingProvider (VStr "A") (VStr "B")].

Definition injectorAlias : InjectorObj :=
  created (create (H:=host0) 7 providersAlias NULL_INJECTOR).

(** [{provide: 'T', useFactory: () => { throw 'boom' }, deps: []}] *)
Definition providersThrow : jsval :=
  VArr [factoryProvider (VStr "T") (VFun 4) []].

Definition injectorThrow : InjectorObj :=
  created (create (H:=host0) 7 providersThrow NULL_INJECTOR).

(** The host [host0] with three more functions: 5 throws a frozen [Error]
    (the object 13), which takes no property; 6 returns the source text of
    [IDENT]; 8 is an arrow function, which has no prototype. *)
Definition host1 : Host := {|
  expando := expando (Host:=host0);
  call f this args :=
    match f with
    | VFun 5 => Throw (VObj 13)
    | VFun 6 => Return (VStr (identSource (Host:=host0)))
    | _ => call (Host:=host0) f this args
    end;
  identSource := identSource (Host:=host0);
  hasPrototype f := match f with VFun 8 => false | _ => true end;
  thrown e := match e with VObj 13 => None | _ => Some [] end;
  reportable _ := true
|}.

(** [{provide: 'T', useFactory: () => String(IDENT), deps: []}] *)
Definition providersCoerced : jsval :=
  VArr [factoryProvider (VStr "T") (VFun 6) []].

Definition injectorCoerced : InjectorObj :=
  created (create (H:=host1) 7 providersCoerced NULL_INJECTOR).

(** [{provide: 'T', useFactory: () => { throw Object.freeze(new Error()) },
    deps: []}] *)
Definition providersFrozen : jsval :=
  VArr [factoryProvider (VStr "T") (VFun 5) []].

Definition injectorFrozen : InjectorObj :=
  created (create (H:=host1) 7 providersFrozen NULL_INJECTOR).

Definition classProvider (tok cls : jsval) (ds : list jsval) : jsval :=
  VProvider (Some tok) None None None (Some cls) (Some ds) None.

(** [{provide: 'A', useValue: 1}, {provide: 'C', useClass: function (a) {
    return a + 1 }, deps: ['A']}] *)
Definition providersClass : jsval :=
  VArr [valueProvider (VStr "A") (VNum 1);
        classProvider (VStr "C") (VFun 1) [VStr "A"]].

Definition injectorClass : InjectorObj :=
  created (create (H:=host0) 7 providersClass NULL_INJECTOR).

(** [{provide: 'D', useClass: () => {}, deps: []}] *)
Definition providersArrow : jsval :=
  VArr [classProvider (VStr "D") (VFun 8) []].

Definition injectorArrow : InjectorObj :=
  created (create (H:=host1) 7 providersArrow NULL_INJECTOR).

(** [injectorX] after [get('X')]. *)
Definition afterX : InjectorObj * World :=
  state_after (get (H:=host0) 6 injectorX world0 (VStr "X") VUndefined).

(** * Proofs *)

Section Proofs.
Context `{Host}.

(** ** Slot steps *)

Lemma ok_step_err s s' : ok_step s s' → err_step s s'.
Proof. destruct 1; constructor. Qed.

Lemma ok_step_trans s1 s2 s3 : ok_step s1 s2 → ok_step s2 s3 → ok_step s1 s3.
Proof. destruct 1; inversion 1; subst; constructor. Qed.

Lemma ok_err_step s1 s2 s3 : ok_step s1 s2 → err_step s2 s3 → err_step s1 s3.
Proof. destruct 1; [done|]. inversion 1; subst; by econstructor. Qed.

Lemma step_of_refl {A} (r : result A) s : step_of r s s.
Proof. destruct r; constructor. Qed.

Lemma ok_step_of {A} (r : result A) s1 s2 s3 :
  ok_step s1 s2 → step_of r s2 s3 → step_of r s1 s3.
Proof. destruct r; simpl; eauto using ok_step_trans, ok_err_step. Qed.

Lemma err_step_inv s s' :
  err_step s s' →
  s' = s ∨ (s = EMPTY ∧ ∃ v, s' = Value v) ∨
  (equalsCIRCULAR s = true ∧ s' = EMPTY) ∨
  (s = EMPTY ∧ s' = CIRCULAR ∧ ∃ payload, thrown payload = None).
Proof. destruct 1; eauto 10. Qed.

Lemma resolved_kept_step {A} (r : result A) s s' :
  step_of r s s' → resolved_kept s s'.
Proof.
  destruct r; simpl; inversion 1; subst; intros ? ? ?; simplify_eq/=;
    congruence.
Qed.

Lemma resolved_kept_trans s1 s2 s3 :
  resolved_kept s1 s2 → resolved_kept s2 s3 → resolved_kept s1 s3.
Proof. intros H12 H23 v Hv Hi. eauto. Qed.

(** ** Registries related slot by slot *)

Lemma same_record_refl R r : R (value r) (value r) → same_record R r r.
Proof. by repeat split. Qed.

Lemma records_rel_refl R m : (∀ s, R s s) → records_rel R m m.
Proof.
  intros HR k. destruct (m !! k) as [r|]; constructor.
  by apply same_record_refl.
Qed.

Lemma records_rel_compose R1 R2 R3 m1 m2 m3 :
  (∀ a b c, R1 a b → R2 b c → R3 a c) →
  records_rel R1 m1 m2 → records_rel R2 m2 m3 → records_rel R3 m1 m3.
Proof.
  intros HR H12 H23 k. specialize (H12 k). specialize (H23 k).
  destruct H12 as [r1 r2 (?&?&?&?&?)|]; inversion H23 as [? r3 (?&?&?&?&?)|];
    subst; constructor.
  repeat split; try congruence. eauto.
Qed.

Lemma records_rel_weaken (R1 R2 : slot → slot → Prop) m m' :
  (∀ a b, R1 a b → R2 a b) → records_rel R1 m m' → records_rel R2 m m'.
Proof.
  intros HR Hm k. destruct (Hm k) as [r r' (?&?&?&?&?)|]; constructor.
  repeat split; auto.
Qed.

Lemma records_rel_lookup R m m' k r :
  records_rel R m m' → m !! k = Some r →
  ∃ r', m' !! k = Some r' ∧ same_record R r r'.
Proof. intros Hm Hk. specialize (Hm k). rewrite Hk in Hm. inversion Hm; eauto. Qed.

Lemma records_rel_lookup_r R m m' k r' :
  records_rel R m m' → m' !! k = Some r' →
  ∃ r, m !! k = Some r ∧ same_record R r r'.
Proof. intros Hm Hk. specialize (Hm k). rewrite Hk in Hm. inversion Hm; eauto. Qed.

Lemma records_rel_fill m m1 k r v :
  m !! k = Some r → value r = EMPTY →
  records_rel ok_step (alter (set_value CIRCULAR) k m) m1 →
  records_rel ok_step m (alter (set_value (Value v)) k m1).
Proof.
  intros Hk Hv Hm j. specialize (Hm j). revert Hm.
  destruct (decide (k = j)) as [<-|Hne].
  - rewrite !lookup_alter_eq, Hk. simpl.
    inversion 1 as [? r' (?&?&?&?&Hs) E1 E2|]; subst. simpl in *.
    constructor. repeat split; simpl; try done. rewrite Hv. constructor.
  - by rewrite !lookup_alter_ne.
Qed.

Lemma injector_rel_refl R inj : (∀ s, R s s) → injector_rel R inj inj.
Proof. intros HR. induction inj; constructor; auto using records_rel_refl. Qed.

Lemma injector_rel_compose R1 R2 R3 i1 i2 i3 :
  (∀ a b c, R1 a b → R2 b c → R3 a c) →
  injector_rel R1 i1 i2 → injector_rel R2 i2 i3 → injector_rel R3 i1 i3.
Proof.
  intros HR H12. revert i3. induction H12; inversion 1; subst; constructor;
    eauto using records_rel_compose.
Qed.

Lemma injector_rel_weaken (R1 R2 : slot → slot → Prop) i i' :
  (∀ a b, R1 a b → R2 a b) → injector_rel R1 i i' → injector_rel R2 i i'.
Proof. intros HR. induction 1; constructor; eauto using records_rel_weaken. Qed.

Lemma state_rel_refl R st : (∀ s, R s s) → state_rel R st st.
Proof. split; auto using records_rel_refl, injector_rel_refl. Qed.

Lemma state_rel_compose R1 R2 R3 s1 s2 s3 :
  (∀ a b c, R1 a b → R2 b c → R3 a c) →
  state_rel R1 s1 s2 → state_rel R2 s2 s3 → state_rel R3 s1 s3.
Proof.
  intros HR [] []. split; eauto using records_rel_compose, injector_rel_compose.
Qed.

Lemma state_rel_world R st st' f :
  state_rel R st st' → state_rel R st (with_world f st').
Proof. by intros []. Qed.

(** ** The steps of the resolver *)

Lemma deref_Some m record k r :
  deref m record = Some (k, r) ↔ record = Some k ∧ m !! k = Some r.
Proof.
  unfold deref. destruct record as [k'|]; simpl.
  - destruct (m !! k') as [r'|] eqn:E; simpl; split;
      intros; destruct_and?; simplify_eq; auto; congruence.
  - split; intros; destruct_and?; simplify_eq.
Qed.

Lemma tryResolveToken_unfold n tok record st nf :
  tryResolveToken (S n) tok record st nf =
  match resolveToken n tok record st nf with
  | Some (Err e, st') => Some (catchResolve tok record e st')
  | r => r
  end.
Proof. done. Qed.

Lemma resolveToken_unfold n tok record st nf :
  resolveToken (S n) tok record st nf =
  match deref (st_records st) record with
  | Some (k, r) =>
      let circular :=
        Some (Err (newError CircularDependency),
              with_world (record_event (Raise CircularDependency)) st) in
      match value r with
      | CIRCULAR => circular
      | Value v => if equalsIDENT v then circular else Some (Ok v, st)
      | EMPTY =>
          let st := with_records (alter (set_value CIRCULAR) k) st in
          match resolveDeps (tryResolveToken n) (deps r) st [] with
          | None => None
          | Some (Err e, st) => Some (Err e, st)
          | Some (Ok args, st) => Some (construct k r args st)
          end
      end
  | None =>
      match get n (st_parent st) (st_world st) tok nf with
      | None => None
      | Some (r, parent, w) => Some (r, mkState (st_records st) parent w)
      end
  end.
Proof. done. Qed.

Lemma construct_inv k r args st res st' :
  construct k r args st = (res, st') →
  st_parent st' = st_parent st ∧
  st_records st' =
    match res with
    | Ok v => alter (set_value (Value v)) k (st_records st)
    | Err _ => st_records st
    end.
Proof.
  unfold construct. intros Hc.
  repeat (case_match; simplify_eq/=); auto.
Qed.

Lemma pathOf_None e :
  pathOf e = None →
  ∃ payload, kind e = HostThrown payload ∧ thrown payload = None ∧
             ngTempTokenPath e = [] ∧ ngTokenPath e = None.
Proof.
  unfold pathOf. destruct e as [[] [] []]; simpl; try done. eauto.
Qed.

Lemma pathOf_fresh e :
  (∀ payload, kind e ≠ HostThrown payload) →
  pathOf e = Some (ngTempTokenPath e).
Proof. unfold pathOf. destruct e as [[] ? ?]; simpl; try done. naive_solver. Qed.

Lemma pathOf_reported e path :
  ngTokenPath e = Some path → pathOf e = Some (ngTempTokenPath e).
Proof. unfold pathOf. intros ->. by destruct (kind e), (ngTempTokenPath e). Qed.

Lemma catchResolve_inv tok record e st res st' :
  catchResolve tok record e st = (res, st') →
  st_parent st' = st_parent st ∧
  ((∃ t path,
      pathOf e = Some path ∧
      res = Err (mkError (kind e) (t :: path) (ngTokenPath e)) ∧
      (truthy tok = true → t = tok) ∧
      st_world st' = st_world st ∧
      st_records st' = unmark_records record (st_records st)) ∨
   (res = Err (newError TypeError) ∧
    st_world st' = record_event (Raise TypeError) (st_world st) ∧
    st_records st' = st_records st ∧
    (pathOf e = None ∨
     truthy tok = false ∧ deref (st_records st) record = None))).
Proof.
  unfold catchResolve, unmark_records.
  destruct (pathOf e) as [path|]; [|intros; simplify_eq/=; eauto 10].
  destruct (deref (st_records st) record) as [[k r]|] eqn:Hd; simpl.
  - destruct (truthy tok), (equalsCIRCULAR (value r)); simpl; intros;
      simplify_eq/=; (split; [done|]); left; eexists _, _;
      repeat split; try done; by intros.
  - destruct (truthy tok) eqn:Ht; simpl; intros; simplify_eq/=.
    + split; [done|]. left. eexists _, _. repeat split; done.
    + split; [done|]. right. eauto 10.
Qed.

Lemma catchResolve_not_Ok tok record e st v st' :
  catchResolve tok record e st ≠ (Ok v, st').
Proof.
  intros Hc.
  by apply catchResolve_inv in Hc as (_&[(?&?&_&?&_)|(?&_)]).
Qed.

Lemma catchResolve_parent tok record e st res st' :
  catchResolve tok record e st = (res, st') → st_parent st' = st_parent st.
Proof. intros Hc. by apply catchResolve_inv in Hc as [? _]. Qed.

Lemma marked_empty record st k r :
  deref (st_records st) record = Some (k, r) → value r = EMPTY →
  marked record st = with_records (alter (set_value CIRCULAR) k) st.
Proof.
  intros Hd Hv. unfold marked, with_records, mark_records.
  by rewrite Hd, Hv.
Qed.

Lemma marked_resolved record st k r :
  deref (st_records st) record = Some (k, r) → value r ≠ EMPTY →
  marked record st = st.
Proof.
  intros Hd Hv. unfold marked, with_records, mark_records.
  rewrite Hd. destruct st, (value r); done.
Qed.

Lemma marked_absent record st :
  deref (st_records st) record = None → marked record st = st.
Proof.
  intros Hd. unfold marked, with_records, mark_records.
  rewrite Hd. by destruct st.
Qed.

Lemma set_value_same r : set_value (value r) r = r.
Proof. by destruct r. Qed.

Lemma at_record_lookup f record m j :
  at_record f record m !! j =
  if bool_decide (record = Some j)
  then (λ r, set_value (f (value r)) r) <$> m !! j else m !! j.
Proof.
  destruct record as [k|]; simpl; [|done].
  destruct (decide (k = j)) as [->|Hne].
  - by rewrite lookup_alter_eq, bool_decide_eq_true_2.
  - rewrite lookup_alter_ne by done.
    rewrite bool_decide_eq_false_2; [done|]. congruence.
Qed.

Lemma mark_records_at record m : mark_records record m = at_record mark_slot record m.
Proof.
  apply map_eq. intros j. rewrite at_record_lookup.
  unfold mark_records, deref, mark_slot.
  destruct record as [k|]; simpl; [|done].
  destruct (m !! k) as [r|] eqn:Hk; simpl.
  - destruct (is_empty (value r)) eqn:Hv.
    + destruct (decide (k = j)) as [->|Hne].
      * rewrite lookup_alter_eq, bool_decide_eq_true_2, Hk by done. simpl.
        by rewrite Hv.
      * rewrite lookup_alter_ne by done.
        rewrite bool_decide_eq_false_2; [done|]. congruence.
    + case_bool_decide; [|done]. simplify_eq. rewrite Hk. simpl.
      by rewrite Hv, set_value_same.
  - case_bool_decide; [|done]. simplify_eq. by rewrite Hk.
Qed.

Lemma unmark_records_at record m :
  unmark_records record m = at_record unmark_slot record m.
Proof.
  apply map_eq. intros j. rewrite at_record_lookup.
  unfold unmark_records, deref, unmark_slot.
  destruct record as [k|]; simpl; [|done].
  destruct (m !! k) as [r|] eqn:Hk; simpl.
  - destruct (equalsCIRCULAR (value r)) eqn:Hv.
    + destruct (decide (k = j)) as [->|Hne].
      * rewrite lookup_alter_eq, bool_decide_eq_true_2, Hk by done. simpl.
        by rewrite Hv.
      * rewrite lookup_alter_ne by done.
        rewrite bool_decide_eq_false_2; [done|]. congruence.
    + case_bool_decide; [|done]. simplify_eq. rewrite Hk. simpl.
      by rewrite Hv, set_value_same.
  - case_bool_decide; [|done]. simplify_eq. by rewrite Hk.
Qed.

Lemma at_record_rel (R : slot → slot → Prop) f g record m m' :
  (∀ s s', R (f s) s' → R s (g s')) →
  records_rel R (at_record f record m) m' →
  records_rel R m (at_record g record m').
Proof.
  intros HR Hm j. specialize (Hm j). revert Hm.
  rewrite !at_record_lookup. case_bool_decide; [|done].
  destruct (m !! j) as [r|], (m' !! j) as [r'|]; simpl;
    inversion 1 as [? ? (?&?&?&?&Hs)|]; subst; constructor.
  repeat split; simpl in *; auto.
Qed.

Lemma unmark_mark_slot s s' :
  err_step (mark_slot s) s' → err_step s (unmark_slot s').
Proof.
  unfold mark_slot, unmark_slot. intros Hs.
  apply err_step_inv in Hs as [->|[[? [v ->]]|[[Hc ->]|(? & -> & ?)]]].
  - destruct s as [| |x]; simpl; try (by constructor).
    destruct (equalsIDENT x) eqn:Hx; by constructor.
  - by destruct s.
  - simpl. destruct s; simpl in *; by constructor.
  - by destruct s.
Qed.

Lemma mark_stuck_slot s s' payload :
  thrown payload = None → err_step (mark_slot s) s' → err_step s s'.
Proof.
  unfold mark_slot. intros Hp Hs. destruct s; simpl in *; try done.
  apply err_step_inv in Hs as [->|[[? _]|[[_ ->]|(? & _)]]]; try done.
  - by econstructor.
  - constructor.
Qed.

Lemma unmark_mark_rel record m m' :
  records_rel err_step (mark_records record m) m' →
  records_rel err_step m (unmark_records record m').
Proof.
  rewrite mark_records_at, unmark_records_at.
  apply at_record_rel, unmark_mark_slot.
Qed.

Lemma at_record_id record m : at_record (λ s, s) record m = m.
Proof.
  apply map_eq. intros j. rewrite at_record_lookup. case_bool_decide; [|done].
  destruct (m !! j) as [r|]; simpl; [|done]. by rewrite set_value_same.
Qed.

Lemma mark_stuck_rel record m m' payload :
  thrown payload = None →
  records_rel err_step (mark_records record m) m' → records_rel err_step m m'.
Proof.
  intros Hp. rewrite mark_records_at. intros Hm.
  rewrite <-(at_record_id record m').
  eapply at_record_rel; [|exact Hm]. intros s s'.
  by apply (mark_stuck_slot _ _ payload).
Qed.

Lemma mark_absent_rel R record m m' :
  deref m' record = None →
  records_rel R (mark_records record m) m' → records_rel R m m'.
Proof.
  intros Hd Hm j. specialize (Hm j).
  rewrite mark_records_at, at_record_lookup in Hm.
  case_bool_decide; [|done]. subst. unfold deref in Hd. simpl in Hd.
  destruct (m' !! j) eqn:E; [done|].
  destruct (m !! j); simpl in Hm; inversion Hm. constructor.
Qed.

Lemma catchGet_inv e w e' w' :
  catchGet e w = (e', w') →
  (reported e = true ∧ w' = w ∧
   e' = mkError (kind e) []
          match ngTempTokenPath e with [] => None | path => Some path end) ∨
  (reported e = false ∧ w' = record_event (Raise TypeError) w ∧
   e' = newError TypeError ∧ ∃ payload, kind e = HostThrown payload ∧
                                        reportable payload = false).
Proof.
  unfold catchGet. destruct (reported e) eqn:Hr; intros [= <- <-]; [by left|].
  right. repeat split; try done. unfold reported in Hr.
  destruct (kind e); try done. eauto.
Qed.

Lemma get_unfold n self m p w tok nf :
  get (S n) (StaticInjector self m p) w tok nf =
  match getId tok with
  | Err e =>
      Some (Err e, StaticInjector self m p, record_event (Raise (kind e)) w)
  | Ok id =>
      match tryResolveToken n tok (lookupRef m id) (mkState m p w) nf with
      | None => None
      | Some (Ok v, st) =>
          Some (Ok v, StaticInjector self (st_records st) (st_parent st),
                st_world st)
      | Some (Err e, st) =>
          Some (Err (catchGet e (st_world st)).1,
                StaticInjector self (st_records st) (st_parent st),
                (catchGet e (st_world st)).2)
      end
  end.
Proof.
  cbn [get]. destruct (getId tok); [|done].
  destruct (tryResolveToken n _ _ _ _) as [[[v|e] st]|]; try done.
  by destruct (catchGet e (st_world st)).
Qed.

Lemma getId_truthy tok id : getId tok = Ok id → truthy tok = true.
Proof. unfold getId. destruct (truthy tok); simpl; [done|]. discriminate. Qed.

(** ** The frame of a call: which slots it may change, and how *)

Section LoopFrame.
Variable try :
  jsval → option string → State → jsval → option (result jsval * State).
Hypothesis try_frame : ∀ tok record st nf r st',
  try tok record st nf = Some (r, st') → state_rel (step_of r) st st'.

Lemma resolveDep_frame d st r st' :
  resolveDep try d st = Some (r, st') → state_rel (step_of r) st st'.
Proof.
  unfold resolveDep. destruct (delegatesToNull _ _); [|by apply try_frame].
  destruct (try _ _ _ _) as [[r1 st1]|] eqn:Ht; intros; simplify_eq.
  apply try_frame in Ht as [Hm _]. split; [done|]. simpl.
  apply injector_rel_refl. intros. apply step_of_refl.
Qed.

Lemma resolveDeps_frame ds st acc r st' :
  resolveDeps try ds st acc = Some (r, st') → state_rel (step_of r) st st'.
Proof.
  revert st acc. induction ds as [|d ds IH]; simpl; intros st acc Hr.
  - simplify_eq. apply state_rel_refl. constructor.
  - destruct (resolveDep try d st) as [[[v|e] st1]|] eqn:Hd; simplify_eq.
    + apply resolveDep_frame in Hd. apply IH in Hr.
      eapply state_rel_compose; [|exact Hd|exact Hr].
      intros. by eapply ok_step_of.
    + by apply resolveDep_frame in Hd.
Qed.
End LoopFrame.

Lemma frame fuel :
  (∀ inj w tok nf r inj' w',
     get fuel inj w tok nf = Some (r, inj', w') →
     injector_rel (step_of r) inj inj') ∧
  (∀ tok record st nf r st',
     tryResolveToken fuel tok record st nf = Some (r, st') →
     state_rel (step_of r) st st') ∧
  (∀ tok record st nf r st',
     resolveToken fuel tok record st nf = Some (r, st') →
     match r with
     | Ok _ => state_rel ok_step st st'
     | Err _ => state_rel err_step (marked record st) st'
     end).
Proof.
  induction fuel as [|n (IHg & IHt & IHr)]; [by repeat split|].
  split; [|split].
  - (* get *)
    intros inj w tok nf r inj' w' Hg. simpl in Hg.
    destruct inj as [|self m p].
    { case_match; simplify_eq; constructor. }
    destruct (getId tok) as [id|e].
    2:{ simplify_eq. apply injector_rel_refl. constructor. }
    destruct (tryResolveToken n _ _ _ _) as [[[v|e] st]|] eqn:Ht;
      [|destruct (catchGet e (st_world st))|];
      simplify_eq; apply IHt in Ht as [? ?]; by constructor.
  - (* tryResolveToken *)
    intros tok record st nf r st' Ht. simpl in Ht.
    destruct (resolveToken n _ _ _ _) as [[[v|e] st1]|] eqn:Hr; simplify_eq.
    + by apply IHr in Hr.
    + apply IHr in Hr as [Hm Hp].
      apply catchResolve_inv in Ht as (Hp' & Hres).
      destruct Hres as [(t & path & _ & -> & _ & _ & Hm')
                       |(-> & _ & Hm' & Hwhy)];
        (split; simpl; [rewrite Hm'|by rewrite Hp']).
      * by apply unmark_mark_rel.
      * destruct Hwhy as [Hn|[_ Hd]].
        -- apply pathOf_None in Hn as (payload & _ & Hp0 & _).
           eapply mark_stuck_rel; [exact Hp0|exact Hm].
        -- eapply mark_absent_rel; [exact Hd|exact Hm].
  - (* resolveToken *)
    intros tok record st nf r st' Hr. simpl in Hr.
    destruct (deref (st_records st) record) as [[k r0]|] eqn:Hd.
    + destruct (value r0) eqn:Hv.
      * destruct (resolveDeps _ _ _ _) as [[[args|e] st1]|] eqn:Hl; simplify_eq.
        -- apply resolveDeps_frame in Hl; [|done]. destruct Hl as [Hm Hp].
           destruct (construct k r0 args st1) as [res st2] eqn:Hc.
           simplify_eq. apply construct_inv in Hc as [Hp' Hm'].
           destruct r as [v|e].
           ++ apply deref_Some in Hd as [-> Hk].
              split; [|by rewrite Hp']. rewrite Hm'. simpl in *.
              by eapply records_rel_fill.
           ++ rewrite (marked_empty _ _ _ _ Hd Hv).
              split; [|rewrite Hp'; simpl;
                      eapply injector_rel_weaken; [apply ok_step_err|done]].
              rewrite Hm'. simpl.
              eapply records_rel_weaken; [|exact Hm]. apply ok_step_err.
        -- apply resolveDeps_frame in Hl; [|done].
           by rewrite (marked_empty _ _ _ _ Hd Hv).
      * simplify_eq. apply state_rel_world.
        rewrite (marked_resolved _ _ _ _ Hd) by congruence.
        apply state_rel_refl. constructor.
      * destruct (equalsIDENT v); simplify_eq.
        -- apply state_rel_world.
           rewrite (marked_resolved _ _ _ _ Hd) by congruence.
           apply state_rel_refl. constructor.
        -- apply state_rel_refl. constructor.
    + destruct (get n _ _ _ _) as [[[r1 p1] w1]|] eqn:Hg; simplify_eq.
      apply IHg in Hg.
      assert (state_rel (step_of r) st
                {| st_records := st_records st; st_parent := p1; st_world := w1 |}).
      { split; [|done]. apply records_rel_refl. intros. apply step_of_refl. }
      destruct r; [done|]. by rewrite marked_absent.
Qed.

Lemma quiet_records_rel m m' :
  (∀ payload, thrown payload ≠ None) →
  records_rel err_step m m' → quiet_records m → quiet_records m'.
Proof.
  intros Hh Hm Hq k r' Hk.
  destruct (records_rel_lookup_r _ _ _ _ _ Hm Hk) as (r & Hr & (_&_&_&_&Hs)).
  specialize (Hq k r Hr). inversion Hs; congruence.
Qed.

Lemma quiet_rel inj inj' :
  (∀ payload, thrown payload ≠ None) →
  injector_rel err_step inj inj' → quiet inj → quiet inj'.
Proof.
  intros Hh. induction 1 as [|self m m' p p' Hm Hp IH]; simpl; [done|].
  intros [Hqm Hqp]. eauto using quiet_records_rel.
Qed.

Lemma truthy_deps_rel R m m' :
  records_rel R m m' → truthy_deps m → truthy_deps m'.
Proof.
  intros Hm Ht k r' Hk.
  destruct (records_rel_lookup_r _ _ _ _ _ Hm Hk) as (r & Hr & (_&_&_&Hd&_)).
  rewrite <-Hd. eauto.
Qed.

Lemma truthy_chain_rel R inj inj' :
  injector_rel R inj inj' → truthy_chain inj → truthy_chain inj'.
Proof.
  induction 1; simpl; [done|]. intros [? ?]. eauto using truthy_deps_rel.
Qed.

(** ** Unresolved records and the fuel bound *)

Lemma elem_of_empties m k :
  k ∈ empties m ↔ ∃ r, m !! k = Some r ∧ value r = EMPTY.
Proof.
  unfold empties. rewrite elem_of_dom. unfold is_Some.
  setoid_rewrite map_lookup_filter_Some. simpl. split.
  - intros (r & Hk & Hv). exists r. split; [done|]. by destruct (value r).
  - intros (r & Hk & Hv). exists r. split; [done|]. by rewrite Hv.
Qed.

Lemma empties_rel m m' : records_rel ok_step m m' → empties m' ⊆ empties m.
Proof.
  intros Hm k. rewrite !elem_of_empties. intros (r' & Hk & Hv).
  destruct (records_rel_lookup_r _ _ _ _ _ Hm Hk) as (r & Hr & (_&_&_&_&Hs)).
  exists r. split; [done|]. rewrite Hv in Hs. by inversion Hs.
Qed.

Lemma empties_mark m k r :
  m !! k = Some r → value r = EMPTY →
  S (size (empties (alter (set_value CIRCULAR) k m))) = size (empties m).
Proof.
  intros Hk Hv.
  assert (empties (alter (set_value CIRCULAR) k m) = empties m ∖ {[k]}) as ->.
  { apply set_eq. intros j. rewrite elem_of_difference, !elem_of_empties.
    rewrite elem_of_singleton. destruct (decide (k = j)) as [->|Hne].
    - rewrite lookup_alter_eq, Hk. simpl. split.
      + intros (r' & ? & ?). simplify_eq/=.
      + intros [_ []]. done.
    - rewrite lookup_alter_ne by done. split; [|tauto].
      intros. split; [done|congruence]. }
  assert (k ∈ empties m) by (apply elem_of_empties; eauto).
  rewrite size_difference by set_solver. rewrite size_singleton.
  assert (size (empties m) ≠ 0); [|lia].
  intros Hz. apply size_empty_inv in Hz. set_solver.
Qed.

Lemma fuel_bound_pos inj : 1 ≤ fuel_bound inj.
Proof. destruct inj; simpl; lia. Qed.

Lemma fuel_bound_rel inj inj' :
  injector_rel ok_step inj inj' → fuel_bound inj' ≤ fuel_bound inj.
Proof.
  induction 1 as [|self m m' p p' Hm Hp IH]; simpl; [done|].
  apply empties_rel, subseteq_size in Hm. lia.
Qed.

Lemma try_bound_rel st st' :
  state_rel ok_step st st' → try_bound st' ≤ try_bound st.
Proof.
  intros [Hm Hp]. unfold try_bound.
  apply empties_rel, subseteq_size in Hm. apply fuel_bound_rel in Hp. lia.
Qed.

(** ** Totality: the bound is enough fuel *)

Section LoopTotal.
Variable try :
  jsval → option string → State → jsval → option (result jsval * State).
Variable B : nat.
Hypothesis try_frame : ∀ tok record st nf r st',
  try tok record st nf = Some (r, st') → state_rel (step_of r) st st'.
Hypothesis try_total : ∀ tok record st nf,
  try_bound st ≤ B → is_Some (try tok record st nf).

Lemma resolveDep_total d st :
  try_bound st ≤ B → is_Some (resolveDep try d st).
Proof.
  intros Hb. unfold resolveDep. destruct (delegatesToNull _ _).
  - destruct (try_total (dep_token d) (childRecordOf (st_records st) d)
                (with_parent NULL_INJECTOR st) (notFoundFor d))
      as [[r st'] ->]; [|done].
    unfold try_bound in *. simpl.
    pose proof (fuel_bound_pos (st_parent st)). lia.
  - by apply try_total.
Qed.

Lemma resolveDeps_total ds st acc :
  try_bound st ≤ B → is_Some (resolveDeps try ds st acc).
Proof.
  revert st acc. induction ds as [|d ds IH]; simpl; intros st acc Hb; [done|].
  destruct (resolveDep_total d st Hb) as [[[v|e] st'] Hd]; rewrite Hd; [|done].
  apply IH. apply resolveDep_frame, try_bound_rel in Hd; [lia|done].
Qed.
End LoopTotal.

Lemma total fuel :
  (∀ inj w tok nf, fuel_bound inj ≤ fuel → is_Some (get fuel inj w tok nf)) ∧
  (∀ tok record st nf,
     try_bound st ≤ fuel → is_Some (tryResolveToken fuel tok record st nf)) ∧
  (∀ tok record st nf,
     try_bound st ≤ S fuel → is_Some (resolveToken fuel tok record st nf)).
Proof.
  induction fuel as [|n (IHg & IHt & IHr)].
  { repeat split; intros.
    - pose proof (fuel_bound_pos inj). lia.
    - unfold try_bound in *. lia.
    - unfold try_bound in *. pose proof (fuel_bound_pos (st_parent st)). lia. }
  split; [|split].
  - intros inj w tok nf Hb. destruct inj as [|self m p].
    { simpl. by case_match. }
    rewrite get_unfold.
    destruct (getId tok) as [id|e]; [|done].
    destruct (IHt tok (lookupRef m id) (mkState m p w) nf) as [[[v|e] st] ->];
      [|done..].
    unfold try_bound. simpl in *. lia.
  - intros tok record st nf Hb. simpl.
    destruct (IHr tok record st nf) as [[[v|e] st'] ->]; [lia|done|].
    by destruct (catchResolve _ _ _ _).
  - intros tok record st nf Hb. simpl.
    destruct (deref (st_records st) record) as [[k r]|] eqn:Hd.
    + destruct (value r) as [| |v] eqn:Hv;
        [|done|by destruct (equalsIDENT v)].
      apply deref_Some in Hd as [-> Hk].
      pose proof (empties_mark _ _ _ Hk Hv) as Hsz.
      destruct (resolveDeps_total (tryResolveToken n) n
                  (proj1 (proj2 (frame n))) IHt (deps r)
                  (with_records (alter (set_value CIRCULAR) k) st) [])
        as [[[args|e] st'] ->]; [|by destruct (construct _ _ _ _)|done].
      unfold try_bound in *. simpl. lia.
    + destruct (IHg (st_parent st) (st_world st) tok nf) as [[[r p] w] ->];
        [|done].
      unfold try_bound in Hb. lia.
Qed.

(** ** The history of a call *)

Lemma events_of_refl {A} (a : A) l : events_of (Ok a) l l.
Proof. by exists []. Qed.

Lemma events_of_raise {A} k l :
  events_of (@Err A (newError k)) l (Raise k :: l).
Proof. exists []. split; [done|]. by left. Qed.

Lemma events_of_trans {A B} (a : A) (r : result B) l1 l2 l3 :
  events_of (Ok a) l1 l2 → events_of r l2 l3 → events_of r l1 l3.
Proof.
  intros (d1 & Hd1 & ->) (d2 & Hd2 & Hr). exists (d2 ++ d1).
  split; [by apply Forall_app|]. destruct r as [b|e].
  - by rewrite Hr, app_assoc.
  - destruct Hr as [->|(payload & ? & ? & ->)]; [left|right].
    + by rewrite app_assoc.
    + exists payload. by rewrite app_assoc.
Qed.

Lemma events_of_kind {A B} (e e' : Error) l l' :
  kind e = kind e' → events_of (@Err A e) l l' → events_of (@Err B e') l l'.
Proof.
  intros Hk (d & Hd & Hr). exists d. split; [done|].
  unfold raised in *. by rewrite <-Hk.
Qed.

(** A [catch] block threw on what a function had thrown. *)
Lemma events_of_unhandled {A B} (e : Error) payload l l' :
  kind e = HostThrown payload → unhandled payload →
  events_of (@Err A e) l l' →
  events_of (@Err B (newError TypeError)) l (Raise TypeError :: l').
Proof.
  intros Hk Hp (d & Hd & [->|(? & _ & ? & _)]); [|congruence].
  exists d. split; [done|]. right. exists payload. by rewrite Hk.
Qed.

Lemma construct_events k r args st res st' :
  construct k r args st = (res, st') →
  events_of res (log (st_world st)) (log (st_world st')).
Proof.
  unfold construct. intros Hc.
  repeat (case_match; simplify_eq/=);
    first [ by exists []
          | by (exists []; split; [done|left])
          | eexists [_]; (split; [|first [reflexivity|by left]]);
            by repeat constructor ].
Qed.

Section LoopEvents.
Variable try :
  jsval → option string → State → jsval → option (result jsval * State).
Hypothesis try_frame : ∀ tok record st nf r st',
  try tok record st nf = Some (r, st') → state_rel (step_of r) st st'.
Hypothesis try_events : ∀ tok record st nf r st',
  try tok record st nf = Some (r, st') →
  truthy_deps (st_records st) → truthy_chain (st_parent st) →
  truthy tok = true →
  events_of r (log (st_world st)) (log (st_world st')).

Lemma resolveDep_events d st r st' :
  resolveDep try d st = Some (r, st') →
  truthy_deps (st_records st) → truthy_chain (st_parent st) →
  truthy (dep_token d) = true →
  events_of r (log (st_world st)) (log (st_world st')).
Proof.
  unfold resolveDep. destruct (delegatesToNull _ _); [|by apply try_events].
  destruct (try _ _ _ _) as [[r1 st1]|] eqn:Ht; intros; simplify_eq.
  by apply try_events in Ht.
Qed.

Lemma resolveDeps_events ds st acc r st' :
  resolveDeps try ds st acc = Some (r, st') →
  truthy_deps (st_records st) → truthy_chain (st_parent st) →
  Forall (λ d, truthy (dep_token d) = true) ds →
  events_of r (log (st_world st)) (log (st_world st')).
Proof.
  revert st acc. induction ds as [|d ds IH]; simpl; intros st acc Hr Hm Hp Hds.
  - simplify_eq. apply events_of_refl.
  - apply Forall_cons in Hds as [Hd Hds].
    destruct (resolveDep try d st) as [[[v|e] st1]|] eqn:Hd1; simplify_eq.
    + pose proof (resolveDep_frame _ try_frame _ _ _ _ Hd1) as [Hm1 Hp1].
      apply resolveDep_events in Hd1; [|done..].
      eapply events_of_trans; [exact Hd1|].
      eapply IH; eauto using truthy_deps_rel, truthy_chain_rel.
    + apply resolveDep_events in Hd1; [|done..].
      eapply events_of_kind; [|exact Hd1]. done.
Qed.
End LoopEvents.

Lemma trace fuel :
  (∀ inj w tok nf r inj' w',
     get fuel inj w tok nf = Some (r, inj', w') →
     truthy_chain inj → events_of r (log w) (log w')) ∧
  (∀ tok record st nf r st',
     tryResolveToken fuel tok record st nf = Some (r, st') →
     truthy_deps (st_records st) → truthy_chain (st_parent st) →
     truthy tok = true →
     events_of r (log (st_world st)) (log (st_world st'))) ∧
  (∀ tok record st nf r st',
     resolveToken fuel tok record st nf = Some (r, st') →
     truthy_deps (st_records st) → truthy_chain (st_parent st) →
     truthy tok = true →
     events_of r (log (st_world st)) (log (st_world st'))).
Proof.
  induction fuel as [|n (IHg & IHt & IHr)]; [by repeat split|].
  split; [|split].
  - intros inj w tok nf r inj' w' Hg Hc.
    destruct inj as [|self m p].
    { simpl in Hg. case_match; simplify_eq;
        [apply events_of_raise|apply events_of_refl]. }
    destruct Hc as [Hm Hp]. rewrite get_unfold in Hg.
    destruct (getId tok) as [id|e] eqn:Hid.
    2:{ simplify_eq. exists []. split; [done|]. by left. }
    apply getId_truthy in Hid.
    destruct (tryResolveToken n _ _ _ _) as [[[v|e] st]|] eqn:Ht; simplify_eq;
      apply IHt in Ht; try done.
    destruct (catchGet e (st_world st)) as [e1 w1] eqn:Hcg. simpl.
    apply catchGet_inv in Hcg
      as [(_ & -> & ->)|(_ & -> & -> & payload & Hk & Hrep)].
    + eapply events_of_kind; [|exact Ht]. done.
    + eapply events_of_unhandled; [exact Hk|by right|exact Ht].
  - intros tok record st nf r st' Ht Hm Hp Htok. simpl in Ht.
    destruct (resolveToken n _ _ _ _) as [[[v|e] st1]|] eqn:Hr; simplify_eq.
    + by apply IHr in Hr.
    + apply IHr in Hr; [|done..].
      apply catchResolve_inv in Ht
        as (_ & [(t & path & _ & -> & _ & Hw & _)|(-> & Hw & _ & [Hn|[Hf _]])]).
      * rewrite Hw. eapply events_of_kind; [|exact Hr]. done.
      * rewrite Hw. apply pathOf_None in Hn as (payload & Hk & Hth & _).
        eapply events_of_unhandled; [exact Hk|by left|exact Hr].
      * congruence.
  - intros tok record st nf r st' Hr Hm Hp Htok. simpl in Hr.
    destruct (deref (st_records st) record) as [[k r0]|] eqn:Hd.
    + apply deref_Some in Hd as [-> Hk].
      destruct (value r0) eqn:Hv.
      * assert (truthy_deps (alter (set_value CIRCULAR) k (st_records st))).
        { intros j rj. rewrite lookup_alter_Some.
          intros [(_ & r1 & ? & ->)|[_ ?]]; simpl; eauto. }
        destruct (resolveDeps _ _ _ _) as [[[args|e] st1]|] eqn:Hl; simplify_eq.
        -- apply resolveDeps_events in Hl;
             [|apply (frame n)|done|done|done|by eapply Hm].
           destruct (construct k r0 args st1) as [res st2] eqn:Hc.
           simplify_eq. apply construct_events in Hc.
           eapply events_of_trans; eauto.
        -- apply resolveDeps_events in Hl;
             [|apply (frame n)|done|done|done|by eapply Hm].
           done.
      * simplify_eq. apply events_of_raise.
      * destruct (equalsIDENT v); simplify_eq;
          [apply events_of_raise|apply events_of_refl].
    + destruct (get n _ _ _ _) as [[[r1 p1] w1]|] eqn:Hg; simplify_eq.
      by apply IHg in Hg.
Qed.

(** ** Resolved records and absent records *)

Lemma try_ok_slot fuel tok k st nf v st' :
  tryResolveToken fuel tok (Some k) st nf = Some (Ok v, st') →
  is_Some (st_records st !! k) →
  ∃ r', st_records st' !! k = Some r' ∧ value r' = Value v.
Proof.
  destruct fuel as [|[|n]]; simpl; try done.
  intros Ht [r Hk]. unfold deref in Ht. simpl in Ht. rewrite Hk in Ht.
  simpl in Ht. destruct (value r) as [| |x] eqn:Hv.
  - destruct (resolveDeps _ _ _ _) as [[[args|e] st1]|] eqn:Hl; simplify_eq.
    2:{ by apply catchResolve_not_Ok in Ht. }
    destruct (construct k r args st1) as [[v'|e] st2] eqn:Hc; simplify_eq.
    2:{ by apply catchResolve_not_Ok in Ht. }
    apply construct_inv in Hc as [_ Hm].
    apply (resolveDeps_frame _ (proj1 (proj2 (frame n)))) in Hl as [Hl _].
    specialize (Hl k). simpl in Hl. rewrite lookup_alter_eq, Hk in Hl.
    inversion Hl as [? r1 ? E1 E2|]; subst.
    rewrite Hm, lookup_alter_eq, <-E2. simpl. eauto.
  - simplify_eq. by apply catchResolve_not_Ok in Ht.
  - destruct (equalsIDENT x); simplify_eq; [|by eauto].
    by apply catchResolve_not_Ok in Ht.
Qed.

Lemma resolveToken_resolved n tok k st nf r v :
  st_records st !! k = Some r → value r = Value v → equalsIDENT v = false →
  resolveToken (S n) tok (Some k) st nf = Some (Ok v, st).
Proof.
  intros Hk Hv Hi. cbn [resolveToken]. unfold deref. cbn [mbind option_bind].
  rewrite Hk. cbn. by rewrite Hv, Hi.
Qed.

Lemma tryResolveToken_resolved n tok k st nf r v :
  st_records st !! k = Some r → value r = Value v → equalsIDENT v = false →
  tryResolveToken (S (S n)) tok (Some k) st nf = Some (Ok v, st).
Proof.
  intros Hk Hv Hi. cbn [tryResolveToken].
  by erewrite resolveToken_resolved.
Qed.

Lemma get_resolved n self m p w tok nf id r v :
  getId tok = Ok id → m !! id = Some r → value r = Value v →
  equalsIDENT v = false →
  get (S (S (S n))) (StaticInjector self m p) w tok nf
  = Some (Ok v, StaticInjector self m p, w).
Proof.
  intros Hid Hk Hv Hi. rewrite get_unfold, Hid. unfold lookupRef. rewrite Hk.
  by erewrite tryResolveToken_resolved.
Qed.

(** A record whose slot [==] takes for the mark fails with the circular
    error, and the [catch] block empties the slot. *)
Lemma tryResolveToken_coerced n tok k st nf r :
  st_records st !! k = Some r → equalsCIRCULAR (value r) = true →
  ∃ t,
    tryResolveToken (S (S n)) tok (Some k) st nf
    = Some (Err (mkError CircularDependency [t] None),
            with_world (record_event (Raise CircularDependency))
              (with_records (alter (set_value EMPTY) k) st)) ∧
    (truthy tok = true → t = tok).
Proof.
  intros Hk Hv. rewrite tryResolveToken_unfold, resolveToken_unfold.
  unfold deref. cbn [mbind option_bind]. rewrite Hk. cbn [mbind option_bind].
  cbv zeta.
  assert (∀ st0, st_records st0 = st_records st →
            ∃ t, catchResolve tok (Some k) (newError CircularDependency) st0
                 = (Err (mkError CircularDependency [t] None),
                    with_records (alter (set_value EMPTY) k) st0) ∧
                 (truthy tok = true → t = tok)) as Hc.
  { intros st0 Hst. unfold catchResolve, deref. cbn [pathOf newError kind
      ngTempTokenPath ngTokenPath mbind option_bind]. rewrite Hst, Hk.
    cbn [mbind option_bind fmap option_fmap option_map]. rewrite Hv.
    destruct (truthy tok); eexists; (split; [reflexivity|done]). }
  destruct (value r) as [| |x] eqn:Hx; [done| |]; [|simpl in Hv; rewrite Hv];
    (destruct (Hc (with_world (record_event (Raise CircularDependency)) st))
      as (t & -> & Ht); [done|]; by exists t).
Qed.

(** An error that leaves [get] carries no temporary path; it is not what a
    function threw and no [catch] block has seen. *)
Lemma tryResolveToken_err fuel tok record st nf e st' :
  tryResolveToken fuel tok record st nf = Some (Err e, st') →
  (∀ payload, kind e = HostThrown payload → ngTempTokenPath e ≠ []).
Proof.
  destruct fuel as [|n]; [done|]. rewrite tryResolveToken_unfold.
  destruct (resolveToken n _ _ _ _) as [[[v|e0] st0]|]; try done.
  intros [= Hc] payload Hk.
  apply catchResolve_inv in Hc as (_ & [(t & path & _ & [= ->] & _)|([= ->] & _)]);
    done.
Qed.

Lemma get_err fuel inj w tok nf e inj' w' :
  get fuel inj w tok nf = Some (Err e, inj', w') →
  ngTempTokenPath e = [] ∧ pathOf e = Some [] ∧ reported e = true.
Proof.
  destruct fuel as [|n]; [done|]. destruct inj as [|self m p].
  { simpl. case_match; intros; by simplify_eq. }
  rewrite get_unfold. destruct (getId tok) as [id|e0] eqn:Hid.
  2:{ intros [= -> <- <-]. unfold getId in Hid.
      destruct (negb (truthy tok)); [by simplify_eq|]. by case_match. }
  destruct (tryResolveToken n _ _ _ _) as [[[v|e0] st]|] eqn:Ht; try done.
  destruct (catchGet e0 (st_world st)) as [e1 w1] eqn:Hcg. simpl.
  intros [= -> <- <-].
  apply catchGet_inv in Hcg as [(Hr & _ & ->)|(_ & _ & -> & _)]; [|done].
  repeat split; [|done]. unfold pathOf. simpl.
  destruct (kind e0) eqn:Hk; try done.
  pose proof (tryResolveToken_err _ _ _ _ _ _ _ Ht _ Hk).
  by destruct (ngTempTokenPath e0).
Qed.

Lemma try_no_record n tok st nf :
  truthy tok = true →
  tryResolveToken (S (S n)) tok None st nf =
  match get n (st_parent st) (st_world st) tok nf with
  | None => None
  | Some (r, p, w) => Some (rethrow tok r, mkState (st_records st) p w)
  end.
Proof.
  intros Ht. cbn [tryResolveToken resolveToken]. unfold deref. cbn.
  destruct (get n _ _ _ _) as [[[[v|e] p] w]|] eqn:Hg; try done.
  apply get_err in Hg as (Hp & Hpath & _).
  unfold catchResolve, rethrow. rewrite Hpath, Ht, Hp. done.
Qed.

Lemma get_absent inj : ∀ n w tok nf id,
  getId tok = Ok id → no_provider inj id → fuel_bound inj ≤ n →
  is_throw_if_not_found nf = false →
  get n inj w tok nf = Some (Ok nf, inj, w).
Proof.
  induction inj as [|self m p IH]; intros n w tok nf id Hid Hno Hn Hnf.
  - destruct n; [simpl in Hn; lia|]. simpl. by rewrite Hnf.
  - destruct Hno as [Hk Hno]. simpl in Hn.
    destruct n as [|[|[|n]]]; try lia.
    rewrite get_unfold, Hid. unfold lookupRef. rewrite Hk.
    rewrite try_no_record by (by eapply getId_truthy). cbn.
    rewrite (IH n w tok nf id) by (done || lia). done.
Qed.

Lemma later_state_kept inj inj' :
  later_state inj inj' → injector_rel resolved_kept inj inj'.
Proof.
  induction 1 as [inj|fuel inj w tok nf r inj1 w1 inj2 Hg _ IH].
  - apply injector_rel_refl. by intros s v.
  - apply (proj1 (frame fuel)) in Hg.
    eapply injector_rel_compose; [apply resolved_kept_trans| |exact IH].
    eapply injector_rel_weaken; [|exact Hg]. apply resolved_kept_step.
Qed.

Lemma get_stable fuel : ∀ inj w tok nf v inj1 w1 inj2 w2,
  get fuel inj w tok nf = Some (Ok v, inj1, w1) →
  equalsIDENT v = false →
  injector_rel resolved_kept inj1 inj2 →
  get fuel inj2 w2 tok nf = Some (Ok v, inj2, w2).
Proof.
  induction (lt_wf fuel) as [fuel _ IH].
  intros inj w tok nf v inj1 w1 inj2 w2 Hg Hi Hrel.
  destruct fuel as [|n]; [done|].
  destruct inj as [|self m p].
  { cbn [get] in Hg. destruct (is_throw_if_not_found nf) eqn:Hnf; simplify_eq.
    inversion Hrel; subst. cbn [get]. by rewrite Hnf. }
  rewrite get_unfold in Hg.
  destruct (getId tok) as [id|e] eqn:Hid; [|done].
  destruct (tryResolveToken n _ _ _ _) as [[[v'|e] st]|] eqn:Ht; simplify_eq.
  inversion Hrel as [|? ? m2 ? p2 Hm Hp]; subst.
  unfold lookupRef in Ht. destruct (m !! id) as [r|] eqn:Hk.
  - destruct n as [|[|n]]; try done.
    apply try_ok_slot in Ht as (r1 & Hk1 & Hv1); [|by eauto].
    destruct (records_rel_lookup _ _ _ _ _ Hm Hk1) as (r2 & Hk2 & (_&_&_&_&Hs)).
    eapply get_resolved; [done..| |done]. by apply Hs.
  - destruct n as [|[|n]]; try done.
    rewrite try_no_record in Ht by (by eapply getId_truthy).
    cbn [st_parent st_world st_records] in Ht.
    destruct (get n p w tok nf) as [[[[v1|e1] p1] w1]|] eqn:Hg;
      cbn [rethrow] in Ht; simplify_eq.
    cbn [st_records st_parent] in Hm, Hp.
    assert (m2 !! id = None) as Hk2.
    { specialize (Hm id). rewrite Hk in Hm. by inversion Hm. }
    rewrite get_unfold, Hid. unfold lookupRef. rewrite Hk2.
    rewrite try_no_record by (by eapply getId_truthy).
    cbn [st_parent st_world st_records].
    assert (n < S (S (S n))) as Hlt by lia.
    rewrite (IH n Hlt _ _ _ _ _ _ _ _ w2 Hg Hi Hp). reflexivity.
Qed.

(** ** The dependency loop over local records *)

Lemma resolveDeps_resolved n pre : ∀ ds st acc xs,
  Forall2 (resolved_to (st_records st)) pre xs →
  Forall (λ x, equalsIDENT x = false) xs →
  resolveDeps (tryResolveToken (S (S n))) (pre ++ ds) st acc
  = resolveDeps (tryResolveToken (S (S n))) ds st (acc ++ xs).
Proof.
  induction pre as [|d pre IH]; intros ds st acc xs Hpre Hxs.
  { apply Forall2_nil_inv_l in Hpre as ->. by rewrite app_nil_r. }
  apply Forall2_cons_inv_l in Hpre as (x & xs' & (Hs & r & Hk & Hv) & Hpre & ->).
  apply Forall_cons in Hxs as [Hx Hxs].
  cbn [app resolveDeps]. unfold resolveDep, childRecordOf, lookupRef.
  rewrite Hs, Hk. cbn [delegatesToNull].
  rewrite (tryResolveToken_resolved _ _ _ _ _ _ _ Hk Hv Hx).
  rewrite (IH _ _ _ _ Hpre Hxs). by rewrite <-app_assoc.
Qed.

Lemma resolveDeps_all_resolved n ds st acc xs :
  Forall2 (resolved_to (st_records st)) ds xs →
  Forall (λ x, equalsIDENT x = false) xs →
  resolveDeps (tryResolveToken (S (S n))) ds st acc = Some (Ok (acc ++ xs), st).
Proof.
  intros Hds Hxs.
  by rewrite <-(app_nil_r ds), (resolveDeps_resolved _ _ _ _ _ _ Hds Hxs).
Qed.

(** Over dependencies that are resolved the loop goes on, unless it meets a
    value that [==] takes for the mark. *)
Lemma resolveDeps_to_circular n pre : ∀ ds st acc,
  Forall (resolved_locally (st_records st)) pre →
  (∃ xs, resolveDeps (tryResolveToken (S (S n))) (pre ++ ds) st acc
         = resolveDeps (tryResolveToken (S (S n))) ds st (acc ++ xs)) ∨
  (∃ e st', resolveDeps (tryResolveToken (S (S n))) (pre ++ ds) st acc
            = Some (Err e, st') ∧ kind e = CircularDependency).
Proof.
  induction pre as [|d pre IH]; intros ds st acc Hpre.
  { left. exists []. by rewrite app_nil_r. }
  apply Forall_cons in Hpre as [(x & Hs & r & Hk & Hv) Hpre].
  cbn [app resolveDeps]. unfold resolveDep, childRecordOf, lookupRef.
  rewrite Hs, Hk. cbn [delegatesToNull].
  destruct (equalsIDENT x) eqn:Hx.
  - right.
    destruct (tryResolveToken_coerced n (dep_token d) (dep_id d) st
                (notFoundFor d) r Hk) as (t & -> & _); [by rewrite Hv|].
    eauto.
  - rewrite (tryResolveToken_resolved _ _ _ _ _ _ _ Hk Hv Hx).
    destruct (IH ds st (acc ++ [x]) Hpre) as [[xs ->]|(e & st' & -> & He)].
    + left. exists (x :: xs). by rewrite <-app_assoc.
    + right. eauto.
Qed.

Lemma resolveDeps_no_fuel n ds st acc :
  n < 2 → ds ≠ [] → resolveDeps (tryResolveToken n) ds st acc = None.
Proof.
  intros Hn Hds. destruct ds as [|d ds]; [done|]. cbn [resolveDeps].
  assert (∀ tok record st nf, tryResolveToken n tok record st nf = None) as Ht.
  { destruct n as [|[|n]]; [done|done|lia]. }
  unfold resolveDep. rewrite !Ht. by destruct (delegatesToNull _ _).
Qed.

Lemma resolveDeps_local n ds : ∀ st acc args st',
  resolveDeps (tryResolveToken n) ds st acc = Some (Ok args, st') →
  Forall (λ d, has_opt (options d) OPT_CHECK_SELF = true ∧
               is_Some (st_records st !! dep_id d)) ds →
  ∃ vs, args = acc ++ vs ∧
        Forall2 (λ d x, ∃ r', st_records st' !! dep_id d = Some r' ∧
                              value r' = Value x) ds vs.
Proof.
  induction ds as [|d ds IH]; intros st acc args st' Hr Hds.
  { simplify_eq/=. exists []. by rewrite app_nil_r. }
  apply Forall_cons in Hds as [[Hs [r Hk]] Hds]. cbn [resolveDeps] in Hr.
  destruct (resolveDep (tryResolveToken n) d st) as [[[x|e] st1]|] eqn:Hd;
    [|done..].
  pose proof (resolveDep_frame _ (proj1 (proj2 (frame n))) _ _ _ _ Hd)
    as [Hm1 _].
  pose proof (resolveDeps_frame _ (proj1 (proj2 (frame n))) _ _ _ _ _ Hr)
    as [Hm2 _].
  unfold resolveDep, childRecordOf, lookupRef in Hd. rewrite Hs, Hk in Hd.
  cbn [delegatesToNull] in Hd.
  apply try_ok_slot in Hd as (r1 & Hk1 & Hv1); [|by eauto].
  destruct (IH _ _ _ _ Hr) as (vs & -> & Hvs).
  { eapply Forall_impl; [exact Hds|]. intros d' [? [r' Hr']].
    split; [done|].
    destruct (records_rel_lookup _ _ _ _ _ Hm1 Hr') as (? & ? & _). eauto. }
  exists (x :: vs). split; [by rewrite <-app_assoc|].
  constructor; [|done].
  destruct (records_rel_lookup _ _ _ _ _ Hm2 Hk1) as (r2 & Hk2 & (_&_&_&_&Hs2)).
  exists r2. split; [done|]. rewrite Hv1 in Hs2. by inversion Hs2.
Qed.

(** ** Dependency cycles *)

Lemma dependency_cycle_mark m C k :
  dependency_cycle m C → C k →
  dependency_cycle (alter (set_value CIRCULAR) k m) C.
Proof.
  intros Hc Hk j Hj.
  destruct (Hc k Hk) as (rk & _ & _ & _ & Hmk & Hvk & _).
  destruct (Hc j Hj) as (r & pre & d & rest & Hm & Hv & Hd & Hpre & Hs & Hn).
  assert (∀ i ri v, m !! i = Some ri → value ri = Value v →
            alter (set_value CIRCULAR) k m !! i = Some ri) as Hres.
  { intros i ri v Hi Hvi. rewrite lookup_alter_ne; [done|].
    intros ->. simplify_eq. by eapply Hvk. }
  destruct (decide (k = j)) as [->|Hne].
  - exists (set_value CIRCULAR r), pre, d, rest.
    rewrite lookup_alter_eq, Hm. repeat split; try done.
    eapply Forall_impl; [exact Hpre|].
    intros p (x & ? & rp & ? & ?). exists x. split; [done|]. eauto.
  - exists r, pre, d, rest.
    rewrite lookup_alter_ne by done. repeat split; try done.
    eapply Forall_impl; [exact Hpre|].
    intros p (x & ? & rp & ? & ?). exists x. split; [done|]. eauto.
Qed.

Lemma cycle_try fuel : ∀ C tok k st nf r st',
  dependency_cycle (st_records st) C → C k →
  tryResolveToken fuel tok (Some k) st nf = Some (r, st') →
  ∃ e, r = Err e ∧ kind e = CircularDependency.
Proof.
  induction (lt_wf fuel) as [fuel _ IH].
  intros C tok k st nf r st' Hc Hk Ht.
  destruct fuel as [|[|n]]; try done.
  assert (∃ e st1, resolveToken (S n) tok (Some k) st nf = Some (Err e, st1)
                   ∧ kind e = CircularDependency) as (e & st1 & Hr & He).
  { destruct (Hc k Hk) as (r0 & pre & d & rest & Hm & Hv & Hd & Hpre & Hs & Hn).
    rewrite tryResolveToken_unfold in Ht.
    destruct (resolveToken (S n) tok (Some k) st nf) as [[r1 st1]|] eqn:Hr;
      [|done].
    rewrite resolveToken_unfold in Hr.
    unfold deref in Hr. cbn [mbind option_bind] in Hr.
    rewrite Hm in Hr. cbn [mbind option_bind] in Hr. cbv zeta in Hr.
    destruct (value r0) eqn:Hv0.
    - (* unresolved: the loop reaches the dependency inside [C] *)
      destruct (decide (n < 2)) as [Hlt|Hge].
      { rewrite resolveDeps_no_fuel in Hr; [done|done|].
        rewrite Hd. by destruct pre. }
      destruct n as [|[|n]]; try lia.
      pose proof (dependency_cycle_mark _ _ _ Hc Hk) as Hc'.
      destruct (Hc' k Hk) as (r0' & pre' & d' & rest' & Hm' & _ & Hd' & Hpre'
                              & Hs' & Hn').
      rewrite lookup_alter_eq, Hm in Hm'. cbn [fmap option_fmap option_map] in Hm'.
      simplify_eq. cbn [deps set_value] in Hd'. rewrite Hd' in Hr.
      destruct (resolveDeps_to_circular n pre' (d' :: rest')
                  (with_records (alter (set_value CIRCULAR) k) st) [] Hpre')
        as [[xs Hxs]|(e1 & st1' & Hxs & He1)]; rewrite Hxs in Hr;
        [|simplify_eq; by eauto].
      cbn [resolveDeps] in Hr.
      destruct (resolveDep (tryResolveToken (S (S n))) d' _)
        as [[r2 st2]|] eqn:Hdep; [|done].
      assert (∃ e2, r2 = Err e2 ∧ kind e2 = CircularDependency)
        as (e2 & -> & He2).
      { destruct (Hc' _ Hn') as (rd & _ & _ & _ & Hmd & _).
        unfold resolveDep, childRecordOf, lookupRef in Hdep.
        cbn [with_records st_records] in Hdep. rewrite Hs', Hmd in Hdep.
        cbn [delegatesToNull] in Hdep.
        eapply (IH (S (S n))); [lia|..|exact Hdep]; done. }
      simplify_eq. eauto.
    - simplify_eq. eauto.
    - by destruct (Hv v). }
  rewrite tryResolveToken_unfold, Hr in Ht. simplify_eq.
  apply (proj2 (proj2 (frame _))) in Hr as [Hm _].
  apply catchResolve_inv in Ht
    as (_ & [(t & path & _ & -> & _)|(_ & _ & _ & [Hn|[_ Hnone]])]).
  - eauto.
  - apply pathOf_None in Hn as (? & ? & _). congruence.
  - destruct (Hc k Hk) as (r0 & _ & _ & _ & Hk0 & _).
    assert (is_Some (st_records (marked (Some k) st) !! k)) as [rm Hrm].
    { unfold marked, with_records, mark_records, deref. cbn.
      rewrite Hk0. cbn. destruct (is_empty (value r0)); [|by eauto].
      rewrite lookup_alter_eq, Hk0. by eauto. }
    destruct (records_rel_lookup _ _ _ _ _ Hm Hrm) as (r' & Hr' & _).
    unfold deref in Hnone. cbn in Hnone. by rewrite Hr' in Hnone.
Qed.

Lemma cycle_get fuel self m p w tok nf id C r inj' w' :
  getId tok = Ok id → C id → dependency_cycle m C →
  get fuel (StaticInjector self m p) w tok nf = Some (r, inj', w') →
  ∃ e, r = Err e ∧ kind e = CircularDependency.
Proof.
  intros Hid Hk Hc Hg. destruct fuel as [|n]; [done|].
  rewrite get_unfold, Hid in Hg.
  destruct (Hc id Hk) as (r0 & _ & _ & _ & Hm & _).
  unfold lookupRef in Hg. rewrite Hm in Hg.
  destruct (tryResolveToken n _ _ _ _) as [[r1 st1]|] eqn:Ht; [|done].
  eapply cycle_try in Ht as (e & -> & He); [|done..].
  simplify_eq. eexists. split; [done|].
  unfold catchGet, reported. by rewrite He.
Qed.

(** ** Ids and the private keys of multi providers *)

Lemma getId_raw tok id : getId tok = Ok id → raw id.
Proof.
  unfold getId, raw.
  destruct tok as [| | | | | | | | | | |k []| |]; cbn [typeof];
    intros; repeat case_match; simplify_eq;
    (eexists _, _; split; [reflexivity|done]).
Qed.

Lemma multiId_not_raw n id : ¬ raw (multiId n id).
Proof.
  intros (c & s & Heq & Hc).
  change (String "_" (pretty n +:+ "_" +:+ id) = String c s) in Heq.
  by injection Heq as <- _.
Qed.

Lemma append_cons c s1 s2 : String c s1 +:+ s2 = String c (s1 +:+ s2).
Proof. done. Qed.

Lemma no_underscore_app s1 s2 :
  no_underscore s1 → no_underscore s2 → no_underscore (s1 +:+ s2).
Proof.
  induction s1 as [|c s1 IH]; [done|]. rewrite append_cons. simpl.
  intros [? ?] ?. auto.
Qed.

Lemma pretty_N_char_digit x : pretty_N_char x ≠ "_"%char.
Proof. unfold pretty_N_char. by repeat case_match. Qed.

Lemma pretty_N_go_digits x s :
  ∃ d, pretty_N_go x s = d +:+ s ∧ no_underscore d.
Proof.
  revert s. induction (N.lt_wf_0 x) as [x _ IH]. intros s.
  destruct (decide (x = 0)%N) as [->|Hx].
  { exists "". rewrite pretty_N_go_0. split; [reflexivity|exact I]. }
  rewrite pretty_N_go_step by lia.
  destruct (IH (x `div` 10)%N) with
    (s := String (pretty_N_char (x `mod` 10)) s) as (d & -> & Hd).
  { apply N.div_lt; lia. }
  exists (d +:+ String (pretty_N_char (x `mod` 10)) "").
  split.
  - clear. induction d as [|c d IH]; [done|].
    by rewrite !append_cons, IH.
  - apply no_underscore_app; [done|]. split; [|done].
    apply pretty_N_char_digit.
Qed.

Lemma pretty_nat_digits (n : nat) : no_underscore (pretty n).
Proof.
  unfold pretty, pretty_nat, pretty, pretty_N.
  destruct (decide (N.of_nat n = 0)%N); [by split|].
  destruct (pretty_N_go_digits (N.of_nat n) "") as (d & -> & Hd).
  apply no_underscore_app; done.
Qed.

Lemma split_at_underscore d1 d2 r1 r2 :
  no_underscore d1 → no_underscore d2 →
  d1 +:+ String "_" r1 = d2 +:+ String "_" r2 → d1 = d2 ∧ r1 = r2.
Proof.
  revert d2. induction d1 as [|c1 d1 IH]; intros [|c2 d2];
    rewrite ?append_cons; simpl;
    change ("" +:+ String "_" r1) with (String "_" r1);
    change ("" +:+ String "_" r2) with (String "_" r2).
  - intros _ _ ?. by simplify_eq.
  - intros _ [? _] ?. by simplify_eq.
  - intros [? _] _ ?. by simplify_eq.
  - intros [_ ?] [_ ?] ?. simplify_eq.
    destruct (IH d2) as [-> ->]; auto.
Qed.

Lemma multiId_inj n n' id id' :
  multiId n id = multiId n' id' → n = n' ∧ id = id'.
Proof.
  intros Heq.
  change (String "_" (pretty n +:+ String "_" id)
          = String "_" (pretty n' +:+ String "_" id')) in Heq.
  injection Heq as Heq.
  apply split_at_underscore in Heq as [Hn ->]; auto using pretty_nat_digits.
  split; [|done]. by apply (inj pretty).
Qed.

(** ** The builder, entry by entry *)

Lemma jsval_arr_ind (P : jsval → Prop) :
  (∀ l, Forall P l → P (VArr l)) →
  (∀ v, (∀ l, v ≠ VArr l) → P v) →
  ∀ v, P v.
Proof.
  intros Harr Hother. fix IH 1. intros v.
  destruct v as [| | | | |l| | | | | | | |];
    try (apply Hother; intros; discriminate).
  apply Harr. induction l as [|a l IHl]; constructor; [apply IH|exact IHl].
Qed.

Lemma rPP_arr records l :
  recursivelyProcessProviders records (VArr l) = processAll records l.
Proof.
  cbn [recursivelyProcessProviders truthy negb resolveForwardRef].
  revert records. induction l as [|e l IH]; intros records; [done|].
  cbn [processAll]. destruct (recursivelyProcessProviders records e); [|done].
  apply IH.
Qed.

Lemma flatten_arr l : flatten (VArr l) = concat (map flatten l).
Proof.
  cbn [flatten truthy negb]. induction l as [|e l IH]; [done|].
  cbn [map concat]. by rewrite IH.
Qed.

Lemma flatten_falsy p : truthy p = false → flatten p = [].
Proof. intros Hp. destruct p; cbn [flatten]; rewrite ?Hp; try done. Qed.

Lemma flatten_leaf p :
  truthy p = true → (∀ l, p ≠ VArr l) → flatten p = [p].
Proof.
  intros Hp Hl. destruct p; cbn [flatten]; rewrite ?Hp; try done.
  by destruct (Hl elems).
Qed.

Lemma rPP_falsy records p :
  truthy p = false → recursivelyProcessProviders records p = Ok records.
Proof. intros Hp. destruct p; cbn [recursivelyProcessProviders]; by rewrite ?Hp. Qed.

Lemma processAll_app records l1 l2 :
  processAll records (l1 ++ l2) =
  match processAll records l1 with
  | Ok records' => processAll records' l2
  | Err e => Err e
  end.
Proof.
  revert records. induction l1 as [|e l1 IH]; intros records; [done|].
  cbn [app processAll].
  destruct (recursivelyProcessProviders records e); [apply IH|done].
Qed.

Lemma rPP_flatten p : ∀ records,
  recursivelyProcessProviders records p = processAll records (flatten p).
Proof.
  induction p as [l IH|p Hp] using jsval_arr_ind; intros records.
  - rewrite rPP_arr, flatten_arr. revert records.
    induction IH as [|e l He _ IHl]; intros records; [done|].
    cbn [map concat processAll]. rewrite processAll_app, <-He.
    destruct (recursivelyProcessProviders records e); [apply IHl|done].
  - destruct (truthy p) eqn:Ht.
    + rewrite flatten_leaf by done. cbn [processAll].
      by destruct (recursivelyProcessProviders records p).
    + by rewrite rPP_falsy, flatten_falsy.
Qed.

Lemma rPP_leaf records e :
  truthy e = true → (∀ l, e ≠ VArr l) →
  recursivelyProcessProviders records e =
  match as_provider e with
  | Some sp => processProvider records sp
  | None =>
      Err (newError (if bool_decide (typeof e = "function")
                     then FunctionNotSupported e else UnexpectedProvider e))
  end.
Proof.
  intros Ht Hl.
  destruct e as [| | | | |l| | | | | |k []| |[p|] ? ? ? ? ? ?];
    cbn [recursivelyProcessProviders resolveForwardRef as_provider];
    rewrite ?Ht; try done.
  by destruct (Hl l).
Qed.

Lemma flatten_leaves p :
  Forall (λ e, truthy e = true ∧ ∀ l, e ≠ VArr l) (flatten p).
Proof.
  induction p as [l IH|p Hp] using jsval_arr_ind.
  - rewrite flatten_arr. induction IH as [|e l He _ IHl]; [constructor|].
    cbn [map concat]. by apply Forall_app.
  - destruct (truthy p) eqn:Ht.
    + rewrite flatten_leaf by done. by repeat constructor.
    + rewrite flatten_falsy by done. constructor.
Qed.

Lemma processAll_providers records es records' :
  Forall (λ e, truthy e = true ∧ ∀ l, e ≠ VArr l) es →
  processAll records es = Ok records' →
  processProviders records (omap as_provider es) = Ok records' ∧
  Forall (λ e, is_Some (as_provider e)) es.
Proof.
  intros Hes. revert records.
  induction Hes as [|e es [Ht Hl] _ IH]; intros records Hp.
  { by simplify_eq/=. }
  cbn [processAll] in Hp. rewrite rPP_leaf in Hp by done.
  cbn [omap list_omap]. destruct (as_provider e) as [sp|] eqn:Hsp; [|done].
  cbn [processProviders].
  destruct (processProvider records sp) as [records1|]; [|done].
  destruct (IH _ Hp). split; [done|]. constructor; [|done].
  rewrite Hsp. eauto.
Qed.

Lemma build_providers records ps records' :
  recursivelyProcessProviders records ps = Ok records' →
  processProviders records (descriptions ps) = Ok records' ∧
  Forall (λ e, is_Some (as_provider e)) (flatten ps).
Proof.
  rewrite rPP_flatten. apply processAll_providers, flatten_leaves.
Qed.

(** ** Dependencies and records of a description *)



Lemma computeDep_truthy d r :
  computeDep d = Ok r → truthy (dep_token r) = true.
Proof.
  unfold computeDep. destruct (match resolveForwardRef d with
                               | VArr _ => _ | _ => _ end) as [opts tok].
  destruct (getId tok) as [id|] eqn:Hid; [|done]. cbn [mbind result_bind].
  intros; simplify_eq. cbn. by eapply getId_truthy.
Qed.

Lemma computeDepsLoop_truthy l ds :
  computeDepsLoop l = Ok ds → Forall (λ d, truthy (dep_token d) = true) ds.
Proof.
  revert ds. induction l as [|d l IH]; intros ds Hl.
  { simplify_eq/=. constructor. }
  cbn [computeDepsLoop] in Hl.
  destruct (computeDep d) as [r|] eqn:Hd; [|done]. cbn [mbind result_bind] in Hl.
  destruct (computeDepsLoop l) as [rs|]; [|done]. cbn [mbind result_bind] in Hl.
  simplify_eq. constructor; [by eapply computeDep_truthy|by apply IH].
Qed.

Lemma computeDeps_truthy sp ds :
  computeDeps sp = Ok ds → Forall (λ d, truthy (dep_token d) = true) ds.
Proof.
  unfold computeDeps. intros Hc.
  assert (∀ ds', (match useExisting sp with
                  | Some e =>
                      id ← getId (resolveForwardRef e);
                      Ok [mkDep id (resolveForwardRef e) OPT_DEFAULT]
                  | None => Ok []
                  end) = Ok ds' →
                 Forall (λ d, truthy (dep_token d) = true) ds') as Hex.
  { intros ds'. destruct (useExisting sp) as [e|].
    - destruct (getId _) as [id|] eqn:Hid; [|done]. cbn [mbind result_bind].
      intros; simplify_eq. repeat constructor. by eapply getId_truthy.
    - intros; simplify_eq. constructor. }
  destruct (provider_deps sp) as [[|d l]|].
  - apply Hex. by destruct (useExisting sp).
  - by apply computeDepsLoop_truthy in Hc.
  - apply Hex. destruct (useExisting sp); [done|].
    by destruct (useValue sp).
Qed.

Lemma resolveProvider_not_multi sp rp :
  resolveProvider sp = Ok rp → is_multi_fn (fn rp) = false.
Proof.
  unfold resolveProvider. destruct (computeDeps sp); [|done].
  cbn [mbind result_bind]. intros. by repeat (case_match; simplify_eq).
Qed.

Lemma resolveProvider_value sp rp x :
  resolveProvider sp = Ok rp → useValue sp = Some x → value rp = Value x.
Proof.
  unfold resolveProvider. destruct (computeDeps sp); [|done].
  cbn [mbind result_bind]. intros Hr Hx. rewrite Hx in Hr. by simplify_eq.
Qed.

Lemma resolveProvider_shape sp rp :
  resolveProvider sp = Ok rp →
  Forall (λ d, truthy (dep_token d) = true) (deps rp) ∧ value rp ≠ CIRCULAR.
Proof.
  unfold resolveProvider. destruct (computeDeps sp) as [ds|] eqn:Hd; [|done].
  apply computeDeps_truthy in Hd. cbn [mbind result_bind]. intros Hr.
  repeat (case_match; simplify_eq); by split.
Qed.

(** ** The registry invariant *)

Lemma storeProvider_inv recs id tok rp recs' :
  storeProvider recs id tok rp = Ok recs' →
  recs' = <[id := rp]> recs ∧
  ∀ r, recs !! id = Some r → is_multi_fn (fn r) = false.
Proof.
  unfold storeProvider. destruct (recs !! id) as [r|] eqn:Hr.
  - destruct (is_multi_fn (fn r)) eqn:Hm; [done|].
    intros; simplify_eq. split; [done|]. by intros; simplify_eq.
  - intros; simplify_eq. split; done.
Qed.

Lemma processProvider_inv recs sp recs' :
  processProvider recs sp = Ok recs' →
  ∃ id rp, id_of sp = Ok id ∧ resolveProvider sp = Ok rp ∧
    if is_multi sp then
      ∃ mp,
        (recs !! id = Some mp ∧ is_multi_fn (fn mp) = true ∨
         recs !! id = None ∧ mp = multiPlaceholder sp) ∧
        recs' = <[multiId (length (deps mp)) id := rp]>
                  (<[id := push_dep (multiDep id (length (deps mp)) sp) mp]>
                     recs)
    else
      recs' = <[id := rp]> recs ∧
      ∀ r, recs !! id = Some r → is_multi_fn (fn r) = false.
Proof.
  unfold processProvider, id_of.
  destruct (getId _) as [id|] eqn:Hid; [|done]. cbn [mbind result_bind].
  destruct (resolveProvider sp) as [rp|] eqn:Hrp; [|done].
  cbn [mbind result_bind]. intros Hp. exists id, rp. split; [done|].
  split; [done|].
  destruct (is_multi sp) eqn:Hm.
  - unfold is_multi in Hm.
    destruct (multi sp) as [[| |[]| | | | | | | | | | |]|]; try done.
    destruct (recs !! id) as [mp|] eqn:Hmp.
    + destruct (is_multi_fn (fn mp)) eqn:Hfn; [|done].
      apply storeProvider_inv in Hp as [-> _]. exists mp. eauto.
    + apply storeProvider_inv in Hp as [-> _].
      exists (multiPlaceholder sp). eauto.
  - assert (storeProvider recs id (resolveForwardRef (prop (provide sp))) rp
            = Ok recs') as Hs.
    { unfold is_multi in Hm.
      destruct (multi sp) as [[| |[]| | | | | | | | | | |]|]; done. }
    by apply storeProvider_inv in Hs.
Qed.

Lemma contributions_snoc id done sp :
  contributions id (done ++ [sp]) =
  contributions id done ++ (if has_id id sp then [sp] else []).
Proof.
  unfold contributions. rewrite filter_app. f_equal.
  rewrite filter_cons, filter_nil.
  destruct (has_id id sp); by case_decide.
Qed.

Lemma has_id_true id sp : has_id id sp = true ↔ id_of sp = Ok id.
Proof.
  unfold has_id. destruct (id_of sp) as [i|e]; [|done].
  rewrite bool_decide_eq_true. split; congruence.
Qed.

Lemma has_id_other id id' sp : id_of sp = Ok id' → id ≠ id' → has_id id sp = false.
Proof.
  intros Hid Hne. unfold has_id. rewrite Hid. by apply bool_decide_eq_false_2.
Qed.

Lemma registry_inv_step done recs sp recs' :
  registry_inv done recs →
  processProvider recs sp = Ok recs' →
  registry_inv (done ++ [sp]) recs'.
Proof.
  intros Hinv Hp.
  apply processProvider_inv in Hp as (id0 & rp & Hid0 & Hrp & Hp).
  pose proof (getId_raw _ _ Hid0) as Hraw0.
  pose proof (resolveProvider_not_multi _ _ Hrp) as Hrpfn.
  intros id Hraw. cbn zeta. rewrite contributions_snoc.
  specialize (Hinv id Hraw). cbn zeta in Hinv.
  destruct (decide (id = id0)) as [->|Hne].
  - (* the token of the description *)
    rewrite (proj2 (has_id_true _ _) Hid0).
    destruct (is_multi sp) eqn:Hm.
    + destruct Hp as (mp & Hmp & ->).
      rewrite lookup_insert_ne by (intros E; by eapply multiId_not_raw; rewrite E).
      rewrite lookup_insert_eq. cbn [fn push_dep].
      assert (is_multi_fn (fn mp) = true ∧
              Forall (λ sp, is_multi sp = true) (contributions id0 done) ∧
              value mp = EMPTY ∧ useNew mp = false ∧
              deps mp = imap (multiDep id0) (contributions id0 done) ∧
              ∀ i sp', contributions id0 done !! i = Some sp' →
                ∃ rp', resolveProvider sp' = Ok rp' ∧
                       recs !! multiId i id0 = Some rp')
        as (Hfn & Hall & Hv & Hn & Hd & Hc).
      { destruct Hmp as [[Hk Hfn]|[Hk ->]]; rewrite Hk in Hinv.
        - rewrite Hfn in Hinv. by destruct Hinv as (?&?&?&?&?).
        - rewrite Hinv. by repeat split. }
      rewrite Hfn. repeat split; try done.
      * apply Forall_app. split; [done|]. by repeat constructor.
      * rewrite imap_app. cbn [deps push_dep]. rewrite Hd. f_equal.
        cbn [imap]. by rewrite length_imap, Nat.add_0_r.
      * intros i sp' Hi. rewrite Hd, length_imap.
        apply lookup_app_Some in Hi as [Hi|[Hlen Hi]].
        -- destruct (Hc i sp' Hi) as (rp' & ? & ?). exists rp'. split; [done|].
           apply lookup_lt_Some in Hi.
           rewrite lookup_insert_ne by (intros E; apply multiId_inj in E; lia).
           by rewrite lookup_insert_ne
             by (intros E; by eapply multiId_not_raw; rewrite <-E).
        -- apply list_lookup_singleton_Some in Hi as [Hi ->].
           assert (i = length (contributions id0 done)) as -> by lia.
           exists rp. by rewrite lookup_insert_eq.
    + destruct Hp as [-> Hfn]. rewrite lookup_insert_eq, Hrpfn.
      apply Forall_app. split; [|by repeat constructor].
      destruct (recs !! id0) as [r|]; [|by rewrite Hinv].
      by rewrite (Hfn r) in Hinv.
  - (* another token *)
    rewrite (has_id_other _ _ _ Hid0 Hne), app_nil_r.
    assert (recs' !! id = recs !! id ∧
            ∀ i, recs' !! multiId i id = recs !! multiId i id) as [-> Hk].
    { destruct (is_multi sp).
      - destruct Hp as (mp & _ & ->). split; [|intros i].
        + rewrite lookup_insert_ne
            by (intros E; by eapply multiId_not_raw; rewrite E).
          by rewrite lookup_insert_ne.
        + rewrite lookup_insert_ne by (intros E; by apply multiId_inj in E as [_ ?]).
          by rewrite lookup_insert_ne
            by (intros E; by eapply multiId_not_raw; rewrite <-E).
      - destruct Hp as [-> _]. split; [|intros i].
        + by rewrite lookup_insert_ne.
        + by rewrite lookup_insert_ne
            by (intros E; by eapply multiId_not_raw; rewrite <-E). }
    destruct (recs !! id) as [r|]; [|done].
    destruct (is_multi_fn (fn r)); [|done].
    destruct Hinv as (?&?&?&?&Hc). repeat split; try done.
    intros i sp' Hi. rewrite Hk. eauto.
Qed.

Lemma registry_inv_build sps : ∀ done recs recs',
  registry_inv done recs →
  processProviders recs sps = Ok recs' →
  registry_inv (done ++ sps) recs'.
Proof.
  induction sps as [|sp sps IH]; intros done recs recs' Hinv Hp.
  { simplify_eq/=. by rewrite app_nil_r. }
  cbn [processProviders] in Hp.
  destruct (processProvider recs sp) as [recs1|] eqn:Hsp; [|done].
  replace (done ++ sp :: sps) with ((done ++ [sp]) ++ sps)
    by by rewrite <-app_assoc.
  eapply IH; [|done]. by eapply registry_inv_step.
Qed.

Lemma registry_inv_init self id :
  registry_inv [] {[ id := selfRecord self ]}.
Proof.
  intros k _. cbn zeta. unfold contributions. rewrite filter_nil.
  destruct (_ !! k) as [r|] eqn:Hk; [|done].
  apply lookup_singleton_Some in Hk as [_ <-]. cbn. constructor.
Qed.

Lemma create_inv self ps parent inj :
  create self ps parent = Ok inj →
  ∃ idI recs,
    getId Injector = Ok idI ∧ inj = StaticInjector self recs parent ∧
    processProviders {[ idI := selfRecord self ]} (descriptions ps) = Ok recs ∧
    registry_inv (descriptions ps) recs.
Proof.
  unfold create. destruct (getId Injector) as [idI|] eqn:HidI; [|done].
  cbn [mbind result_bind].
  destruct (recursivelyProcessProviders _ ps) as [recs|] eqn:Hb; [|done].
  cbn [mbind result_bind]. intros; simplify_eq.
  apply build_providers in Hb as [Hb _].
  exists idI, recs. repeat split; try done.
  eapply (registry_inv_build _ []); [|done]. apply registry_inv_init.
Qed.

Lemma processProviders_keep sps : ∀ recs recs' k,
  processProviders recs sps = Ok recs' → raw k →
  Forall (λ sp, id_of sp ≠ Ok k) sps →
  recs' !! k = recs !! k.
Proof.
  induction sps as [|sp sps IH]; intros recs recs' k Hp Hraw Hall.
  { by simplify_eq/=. }
  apply Forall_cons in Hall as [Hsp Hall]. cbn [processProviders] in Hp.
  destruct (processProvider recs sp) as [recs1|] eqn:Hsp1; [|done].
  rewrite (IH _ _ _ Hp Hraw Hall).
  apply processProvider_inv in Hsp1 as (id & rp & Hid & _ & Hcase).
  assert (k ≠ id) by congruence.
  destruct (is_multi sp).
  - destruct Hcase as (mp & _ & ->).
    rewrite lookup_insert_ne
      by (intros E; by eapply multiId_not_raw; rewrite E).
    by rewrite lookup_insert_ne.
  - destruct Hcase as [-> _]. by rewrite lookup_insert_ne.
Qed.



(** ** The shape of a scope: truthy dependency tokens, no record in progress *)

Lemma processProvider_shape recs sp recs' :
  processProvider recs sp = Ok recs' →
  truthy_deps recs → quiet_records recs →
  truthy_deps recs' ∧ quiet_records recs'.
Proof.
  intros Hp Ht Hq.
  apply processProvider_inv in Hp as (id & rp & Hid & Hrp & Hcase).
  apply resolveProvider_shape in Hrp as [Hrp1 Hrp2].
  apply getId_truthy in Hid.
  destruct (is_multi sp).
  - destruct Hcase as (mp & Hmp & ->).
    assert (Forall (λ d, truthy (dep_token d) = true) (deps mp) ∧
            value mp ≠ CIRCULAR) as [Hmp1 Hmp2].
    { destruct Hmp as [[Hk _]|[_ ->]]; [by eauto|]. by split. }
    split; intros k r Hk;
      apply lookup_insert_Some in Hk as [[_ <-]|[_ Hk]]; try done;
      apply lookup_insert_Some in Hk as [[_ <-]|[_ Hk]]; eauto.
    cbn [deps push_dep]. apply Forall_app. split; [done|]. by repeat constructor.
  - destruct Hcase as [-> _].
    split; intros k r Hk;
      apply lookup_insert_Some in Hk as [[_ <-]|[_ Hk]]; eauto.
Qed.

Lemma processProviders_shape sps : ∀ recs recs',
  processProviders recs sps = Ok recs' →
  truthy_deps recs → quiet_records recs →
  truthy_deps recs' ∧ quiet_records recs'.
Proof.
  induction sps as [|sp sps IH]; intros recs recs' Hp Ht Hq.
  { by simplify_eq/=. }
  cbn [processProviders] in Hp.
  destruct (processProvider recs sp) as [recs1|] eqn:Hsp; [|done].
  destruct (processProvider_shape _ _ _ Hsp Ht Hq). eauto.
Qed.

(** A scope that was constructed over a well-formed parent has truthy
    dependency tokens and no record in progress. *)
Lemma create_shape self ps parent inj :
  create self ps parent = Ok inj →
  truthy_chain parent → quiet parent →
  truthy_chain inj ∧ quiet inj.
Proof.
  intros Hc Ht Hq.
  apply create_inv in Hc as (idI & recs & _ & -> & Hb & _).
  apply processProviders_shape in Hb as [? ?].
  - by repeat split.
  - intros k r Hk. apply lookup_singleton_Some in Hk as [_ <-]. constructor.
  - intros k r Hk. by apply lookup_singleton_Some in Hk as [_ <-].
Qed.

(** Every call of [get] keeps a scope in that shape, when the [catch]
    blocks can annotate whatever a function throws. *)
Lemma get_shape fuel inj w tok nf r inj' w' :
  handled_throws →
  get fuel inj w tok nf = Some (r, inj', w') →
  truthy_chain inj → quiet inj →
  truthy_chain inj' ∧ quiet inj'.
Proof.
  intros Hh Hg Ht Hq. apply (proj1 (frame fuel)) in Hg.
  split; [by eapply truthy_chain_rel|].
  eapply quiet_rel; [done| |done].
  destruct r; [|done]. eapply injector_rel_weaken; [|exact Hg].
  apply ok_step_err.
Qed.


(** ** A token without a provider *)

Lemma get_unprovided inj : ∀ n w tok nf id,
  getId tok = Ok id → no_provider inj id → fuel_bound inj ≤ n →
  get n inj w tok nf =
  if is_throw_if_not_found nf
  then Some (Err (noProviderError inj tok), inj,
             record_event (Raise (NoProvider tok)) w)
  else Some (Ok nf, inj, w).
Proof.
  induction inj as [|self m p IH]; intros n w tok nf id Hid Hno Hn.
  - destruct n; [simpl in Hn; lia|]. simpl.
    by destruct (is_throw_if_not_found nf).
  - destruct Hno as [Hk Hno]. simpl in Hn.
    destruct n as [|[|[|n]]]; try lia.
    rewrite get_unfold, Hid. unfold lookupRef. rewrite Hk.
    rewrite try_no_record by (by eapply getId_truthy).
    cbn [st_parent st_world st_records].
    rewrite (IH n w tok nf id) by (done || lia).
    destruct (is_throw_if_not_found nf); [|done].
    by destruct p.
Qed.

(** ** The claims *)

(** X24.  Once [get] has returned [v] for a token, and [v] is not the
    string that [==] equates with [IDENT], the same [get] returns [v] in
    every later state of the scope, whatever calls of [get] came in between
    and however they ended, and it changes nothing: neither a slot nor the
    history, so no function is invoked.  Every resolved slot of the chain
    that holds such a value keeps it. *)
Theorem get_is_memoized fuel inj w tok nf v inj1 w1 inj2 w2 :
  get fuel inj w tok nf = Some (Ok v, inj1, w1) →
  equalsIDENT v = false →
  later_state inj1 inj2 →
  get fuel inj2 w2 tok nf = Some (Ok v, inj2, w2) ∧
  injector_rel resolved_kept inj1 inj2.
Proof.
  intros Hg Hi Hlater. apply later_state_kept in Hlater.
  split; [by eapply get_stable|done].
Qed.

(** C2.  With fuel up to [fuel_bound], [get] returns.  If the run visited a
    record that was in progress (the [Raise CircularDependency] of
    [resolveToken]), the call fails with the circular-dependency error; and
    so it does whenever the token lies on a dependency cycle, of any
    length. *)
Theorem reentry_fails_circular fuel inj w tok nf :
  truthy_chain inj → fuel_bound inj ≤ fuel →
  ∃ r inj' w',
    get fuel inj w tok nf = Some (r, inj', w') ∧
    (∀ evs, log w' = evs ++ log w → Raise CircularDependency ∈ evs →
            ∃ e, r = Err e ∧ kind e = CircularDependency) ∧
    (∀ id C, getId tok = Ok id → C id →
             dependency_cycle (records_of inj) C →
             ∃ e, r = Err e ∧ kind e = CircularDependency).
Proof.
  intros Hc Hfuel.
  destruct (proj1 (total fuel) inj w tok nf) as [[[r inj'] w'] Hg]; [done|].
  exists r, inj', w'. split; [done|]. split.
  - intros evs Hevs Hin.
    apply (proj1 (trace _)) in Hg as (d & Hd & Hlog); [|done].
    rewrite Forall_forall in Hd. destruct r as [v|e].
    + rewrite Hlog in Hevs. apply app_inv_tail in Hevs as ->.
      by apply Hd in Hin.
    + exists e. split; [done|].
      destruct Hlog as [Hlog|(payload & _ & _ & Hlog)]; rewrite Hlog in Hevs.
      * rewrite app_comm_cons in Hevs. apply app_inv_tail in Hevs as <-.
        apply elem_of_cons in Hin as [Hin|Hin]; [congruence|].
        by apply Hd in Hin.
      * rewrite 2!app_comm_cons in Hevs. apply app_inv_tail in Hevs as <-.
        apply elem_of_cons in Hin as [Hin|Hin]; [done|].
        apply elem_of_cons in Hin as [Hin|Hin]; [done|].
        by apply Hd in Hin.
  - intros id C Hid HC Hcycle. destruct inj as [|self m p].
    + by destruct (Hcycle id HC) as (? & ? & ? & ? & ? & _).
    + by eapply cycle_get.
Qed.

(** X25.  When no description of the provider list is for the [Injector]
    token, [get(Injector)] returns the injector itself, whatever the
    fallback, and changes nothing. *)
Theorem injector_token_resolves_to_self self ps parent inj idI :
  create self ps parent = Ok inj →
  getId Injector = Ok idI →
  Forall (λ sp, id_of sp ≠ Ok idI) (descriptions ps) →
  ∀ n w nf,
    get (S (S (S n))) inj w Injector nf = Some (Ok (VInjector self), inj, w).
Proof.
  intros Hc HidI Hall n w nf.
  apply create_inv in Hc as (idI' & recs & HidI' & -> & Hb & _).
  assert (idI' = idI) as -> by congruence.
  assert (recs !! idI = Some (selfRecord self)) as Hk.
  { rewrite (processProviders_keep _ _ _ _ Hb (getId_raw _ _ HidI) Hall).
    by rewrite lookup_singleton_eq. }
  by eapply get_resolved.
Qed.


(** C6.  A dependency without a provider in the scopes it may consult:
    when it is optional it resolves to [null], the loop goes on with the
    next dependency, and nothing is raised; when it is not, its resolution
    fails with the no-provider error and so does the loop.  No other failure
    is recovered from: a [get] that returns raised nothing. *)
Theorem optional_dependency_yields_null fuel d id st rest acc :
  getId (dep_token d) = Ok id →
  (has_opt (options d) OPT_CHECK_SELF = true →
   st_records st !! dep_id d = None) →
  (has_opt (options d) OPT_CHECK_PARENT = true →
   no_provider (st_parent st) id) →
  try_bound st ≤ fuel →
  (has_opt (options d) OPT_OPTIONAL = true →
   resolveDep (tryResolveToken fuel) d st = Some (Ok VNull, st) ∧
   resolveDeps (tryResolveToken fuel) (d :: rest) st acc
   = resolveDeps (tryResolveToken fuel) rest st (acc ++ [VNull])) ∧
  (has_opt (options d) OPT_OPTIONAL = false →
   let asked :=
     if has_opt (options d) OPT_CHECK_PARENT then st_parent st
     else NULL_INJECTOR in
   let e :=
     mkError (NoProvider (dep_token d)) [dep_token d]
             (ngTokenPath (noProviderError asked (dep_token d))) in
   let st' :=
     with_world (record_event (Raise (NoProvider (dep_token d)))) st in
   resolveDep (tryResolveToken fuel) d st = Some (Err e, st') ∧
   resolveDeps (tryResolveToken fuel) (d :: rest) st acc = Some (Err e, st')) ∧
  ∀ fuel' inj w tok nf v inj' w',
    truthy_chain inj →
    get fuel' inj w tok nf = Some (Ok v, inj', w') →
    ∃ evs, Forall is_invoke evs ∧ log w' = evs ++ log w.
Proof.
  intros Hid Hself Hparent Hfuel.
  pose proof (getId_truthy _ _ Hid) as Ht.
  assert (childRecordOf (st_records st) d = None) as Hchild.
  { unfold childRecordOf, lookupRef.
    destruct (has_opt (options d) OPT_CHECK_SELF); [|done].
    by rewrite Hself. }
  assert (resolveDep (tryResolveToken fuel) d st =
          let asked :=
            if has_opt (options d) OPT_CHECK_PARENT then st_parent st
            else NULL_INJECTOR in
          if has_opt (options d) OPT_OPTIONAL then Some (Ok VNull, st)
          else Some (Err (mkError (NoProvider (dep_token d)) [dep_token d]
                            (ngTokenPath (noProviderError asked (dep_token d)))),
                     with_world
                       (record_event (Raise (NoProvider (dep_token d)))) st))
    as Hd.
  { unfold try_bound in Hfuel. destruct fuel as [|[|n]]; try lia.
    unfold resolveDep. rewrite Hchild. unfold notFoundFor, delegatesToNull.
    destruct (has_opt (options d) OPT_CHECK_PARENT) eqn:Hp; cbn [negb];
      rewrite try_no_record by done;
      cbn [with_parent st_parent st_world st_records].
    - rewrite (get_unprovided _ _ _ _ _ id) by (auto; lia).
      destruct (has_opt (options d) OPT_OPTIONAL); cbn;
        by destruct st as [? [|] ?].
    - rewrite (get_unprovided NULL_INJECTOR _ _ _ _ id); [|done|done|].
      2:{ pose proof (fuel_bound_pos (st_parent st)). simpl. lia. }
      destruct (has_opt (options d) OPT_OPTIONAL); cbn; by destruct st. }
  split; [|split].
  - intros Hopt. rewrite Hopt in Hd. cbn zeta in Hd. split; [done|].
    cbn [resolveDeps]. by rewrite Hd.
  - intros Hopt. rewrite Hopt in Hd. cbn zeta in *. split; [done|].
    cbn [resolveDeps]. by rewrite Hd.
  - intros fuel' inj w tok nf v inj' w' Hc Hg.
    by apply (proj1 (trace _)) in Hg.
Qed.

(** C7.  For a token with multi descriptions, all its descriptions are
    multi; a [get] that returns yields an array with one element per
    description, the [i]-th being the value held by the record of the [i]-th
    description in registration order; and when the descriptions are value
    providers, [get] returns the array of their values, provided none of
    them is the string that [==] equates with [IDENT]. *)
Theorem multi_provider_order self ps parent inj tok id :
  create self ps parent = Ok inj → getId tok = Ok id →
  let cs := contributions id (descriptions ps) in
  (∃ sp, sp ∈ cs ∧ is_multi sp = true) →
  Forall (λ sp, is_multi sp = true) cs ∧
  (∀ fuel w nf v inj' w',
     get fuel inj w tok nf = Some (Ok v, inj', w') →
     ∃ vs, v = VArr vs ∧ length vs = length cs ∧
       ∀ i sp, cs !! i = Some sp →
         ∃ x rp r',
           vs !! i = Some x ∧ resolveProvider sp = Ok rp ∧
           records_of inj' !! multiId i id = Some r' ∧
           same_record ok_step rp r' ∧ value r' = Value x) ∧
  (∀ xs, Forall2 (λ sp x, useValue sp = Some x) cs xs →
         Forall (λ x, equalsIDENT x = false) xs →
         ∀ n w nf, ∃ inj' w',
           get (5 + n) inj w tok nf = Some (Ok (VArr xs), inj', w')).
Proof.
  intros Hc Hid cs (sp0 & Hsp0 & Hm0).
  apply create_inv in Hc as (idI & recs & _ & -> & _ & Hinv).
  specialize (Hinv id (getId_raw _ _ Hid)). cbn zeta in Hinv. fold cs in Hinv.
  destruct (recs !! id) as [r|] eqn:Hk.
  2:{ rewrite Hinv in Hsp0. by apply not_elem_of_nil in Hsp0. }
  destruct (is_multi_fn (fn r)) eqn:Hfn.
  2:{ rewrite Forall_forall in Hinv. apply Hinv in Hsp0. congruence. }
  destruct Hinv as (Hall & Hv & Hnew & Hdeps & Hcs).
  assert (fn r = MULTI_PROVIDER_FN) as Hfn' by (by destruct (fn r)).
  split; [done|]. split.
  - intros fuel w nf v inj' w' Hg.
    pose proof (proj1 (frame _) _ _ _ _ _ _ _ Hg) as Hrel.
    destruct fuel as [|n0]; [done|].
    rewrite get_unfold, Hid in Hg. unfold lookupRef in Hg.
    rewrite Hk in Hg.
    destruct (tryResolveToken _ _ _ _ _) as [[[v'|e] st]|] eqn:Ht;
      simplify_eq.
    destruct n0 as [|n1]; [discriminate|].
    rewrite tryResolveToken_unfold in Ht.
    destruct (resolveToken _ _ _ _ _) as [[[v'|e] st']|] eqn:Hr; [| |done].
    2:{ injection Ht as Ht. by apply catchResolve_not_Ok in Ht. }
    simplify_eq. destruct n1 as [|n]; [discriminate|].
    rewrite resolveToken_unfold in Hr. unfold deref in Hr.
    cbn [mbind option_bind st_records] in Hr. rewrite Hk in Hr.
    cbn [mbind option_bind] in Hr. rewrite Hv in Hr. cbv zeta in Hr.
    destruct (resolveDeps _ _ _ _) as [[[args|e] st1]|] eqn:Hl; simplify_eq.
    apply resolveDeps_local in Hl as (vs & -> & Hvs).
    2:{ rewrite Hdeps. apply Forall_forall. intros d Hd.
        apply list_elem_of_lookup in Hd as [i Hd].
        rewrite list_lookup_imap in Hd.
        destruct (cs !! i) as [sp|] eqn:Hi; simplify_eq/=.
        split; [done|]. destruct (Hcs i sp Hi) as (rp & _ & Hrp).
        rewrite lookup_alter_ne
          by (intros E; by eapply multiId_not_raw, getId_raw; rewrite <-E).
        eauto. }
    unfold construct in Hr. rewrite Hnew, Hfn' in Hr.
    cbn [applyFn] in Hr. simplify_eq. cbn [app].
    exists vs. split; [done|].
    apply Forall2_length in Hvs as Hlen. rewrite Hdeps, length_imap in Hlen.
    split; [done|]. intros i sp Hi.
    destruct (Hcs i sp Hi) as (rp & Hrp & Hki).
    destruct (Forall2_lookup_l _ _ _ i (multiDep id i sp) Hvs)
      as (x & Hx & r' & Hr' & Hx').
    { by rewrite Hdeps, list_lookup_imap, Hi. }
    exists x, rp, r'. cbn [dep_id multiDep] in Hr'.
    assert (same_record ok_step rp r') as Hsame.
    { inversion Hrel as [|? ? ? ? ? Hm Hp]; subst.
      destruct (records_rel_lookup _ _ _ _ _ Hm Hki) as (r2 & Hr2 & Hsame).
      cbn [with_records st_records] in Hr2.
      rewrite lookup_alter_ne in Hr2
        by (intros E; by eapply multiId_not_raw, getId_raw; rewrite <-E).
      simplify_eq. exact Hsame. }
    cbn [records_of with_records st_records].
    rewrite lookup_alter_ne
      by (intros E; by eapply multiId_not_raw, getId_raw; rewrite <-E).
    split; [done|]. split; [done|]. split; [done|]. by split.
  - intros xs Hxs Hplain n w nf.
    eexists _, _. cbn [Nat.add]. rewrite get_unfold, Hid. unfold lookupRef.
    rewrite Hk. rewrite tryResolveToken_unfold, resolveToken_unfold.
    unfold deref. cbn [mbind option_bind st_records]. rewrite Hk.
    cbn [mbind option_bind]. rewrite Hv. cbv zeta.
    rewrite (resolveDeps_all_resolved _ _ _ _ xs); [| |done].
    + unfold construct. rewrite Hnew, Hfn'. cbn [applyFn app]. done.
    + rewrite Hdeps. apply Forall2_same_length_lookup. split.
      { rewrite length_imap. by eapply Forall2_length. }
      intros i d x Hd Hx. rewrite list_lookup_imap in Hd.
      destruct (cs !! i) as [sp|] eqn:Hi; simplify_eq/=.
      split; [done|]. destruct (Hcs i sp Hi) as (rp & Hrp & Hki).
      exists rp. split.
      * cbn [with_records st_records dep_id multiDep].
        by rewrite lookup_alter_ne
          by (intros E; by eapply multiId_not_raw, getId_raw; rewrite <-E).
      * eapply resolveProvider_value; [done|].
        exact (Forall2_lookup_lr _ _ _ _ _ _ Hxs Hi Hx).
Qed.


(** C9 (amended).  A class record whose function has a prototype is
    instantiated on a fresh object, made by [Object.create], with the
    resolved dependencies as arguments.  The resolved value is that object
    when the function returns [undefined]; any other value it returns,
    object or not, is the resolved value.  On a function without a
    prototype the resolution fails with a [TypeError] before any call. *)
Theorem class_instantiation n tok k st nf r f args st1 :
  st_records st !! k = Some r → value r = EMPTY →
  useNew r = true → fn r = UserFn f →
  resolveDeps (tryResolveToken n) (deps r)
    (with_records (alter (set_value CIRCULAR) k) st) [] = Some (Ok args, st1) →
  let obj := VInst (next (st_world st1)) in
  let resolved v :=
    Some (Ok v,
          mkState (alter (set_value (Value v)) k (st_records st1))
                  (st_parent st1)
                  (mkWorld (Invoke (UserFn f) obj args :: log (st_world st1))
                           (S (next (st_world st1))))) in
  (typeof f = "function" → hasPrototype f = true →
   (call f obj args = Return VUndefined →
    resolveToken (S n) tok (Some k) st nf = resolved obj) ∧
   (∀ ret, call f obj args = Return ret → ret ≠ VUndefined →
           resolveToken (S n) tok (Some k) st nf = resolved ret)) ∧
  (hasPrototype f = false →
   resolveToken (S n) tok (Some k) st nf
   = Some (Err (newError TypeError),
           with_world (record_event (Raise TypeError)) st1)).
Proof.
  intros Hk Hv Hnew Hfn Hdeps obj resolved.
  assert (resolveToken (S n) tok (Some k) st nf = Some (construct k r args st1))
    as ->.
  { cbn [resolveToken]. unfold deref. cbn [mbind option_bind].
    rewrite Hk. cbn [mbind option_bind]. by rewrite Hv, Hdeps. }
  unfold construct. rewrite Hnew, Hfn. cbn [has_prototype applyFn].
  split.
  - intros Hty Hproto. rewrite Hproto, bool_decide_eq_true_2 by done.
    cbn [andb with_world st_world alloc next log record_event]. fold obj.
    split.
    + by intros ->.
    + intros ret -> Hret. by destruct ret.
  - intros ->. by rewrite andb_false_r.
Qed.

(** C10.  A falsy entry is skipped: it changes nothing and raises nothing,
    alone or inside a list; a truthy entry that is not an array, not a
    function and not an object with a [provide] key is rejected. *)
Theorem falsy_entries_are_skipped p :
  truthy p = false →
  (∀ records, recursivelyProcessProviders records p = Ok records) ∧
  (∀ records l1 l2,
     recursivelyProcessProviders records (VArr (l1 ++ p :: l2))
     = recursivelyProcessProviders records (VArr (l1 ++ l2))) ∧
  (∀ records q,
     truthy q = true → (∀ l, q ≠ VArr l) → typeof q ≠ "function" →
     as_provider q = None →
     recursivelyProcessProviders records q
     = Err (newError (UnexpectedProvider q))).
Proof.
  intros Hp. split; [|split].
  - intros records. by apply rPP_falsy.
  - intros records l1 l2. rewrite !rPP_flatten, !flatten_arr.
    rewrite !map_app, !concat_app. cbn [map concat].
    by rewrite flatten_falsy.
  - intros records q Hq Hl Hty Has. rewrite rPP_leaf, Has by done.
    by rewrite bool_decide_eq_false_2.
Qed.

(** ** Further properties: token ids *)

Lemma typeof_no_underscore v : no_underscore (typeof v).
Proof.
  destruct v as [| | | | | | | | | | |k []| |]; cbn; repeat split; done.
Qed.

Lemma getId_Ok tok id :
  getId tok = Ok id →
  truthy tok = true ∧
  id = typeof tok +:+ String "_"
         (if by_reference tok then pretty (expando tok) else toString tok).
Proof.
  unfold getId, by_reference. destruct (truthy tok); cbn [negb]; [|done].
  destruct (_ || _); intros; simplify_eq; done.
Qed.

Lemma getId_err tok e :
  getId tok = Err e →
  e = newError (TokenMustBeTruthy tok) ∧ truthy tok = false.
Proof.
  unfold getId. destruct (truthy tok); cbn [negb].
  - by case_match.
  - intros; by simplify_eq.
Qed.

(** X1.  Two tokens get the same id only when they are of the same type and,
    for primitives, equal, or, for functions and objects, carry the same
    cached number; and the id of a token is never the private key of a multi
    constituent. *)
Theorem token_identity a b id :
  getId a = Ok id → getId b = Ok id →
  typeof a = typeof b ∧
  (if by_reference a then expando a = expando b else a = b) ∧
  ∀ n id', id ≠ multiId n id'.
Proof.
  intros Ha Hb.
  pose proof (getId_raw _ _ Ha) as Hraw.
  apply getId_Ok in Ha as [Hta ->]. apply getId_Ok in Hb as [Htb Hb].
  apply split_at_underscore in Hb as [Hty Hs]; [|apply typeof_no_underscore..].
  split; [done|]. split.
  - unfold by_reference in *. rewrite Hty in *.
    destruct (_ || _) eqn:Hr.
    + by apply (inj pretty) in Hs.
    + destruct a as [| |[]| | | | | | | | |k []| |],
               b as [| |[]| | | | | | | | |k' []| |]; try done.
      * cbn in Hs. apply (inj pretty) in Hs. by subst.
      * cbn in Hs. by subst.
  - intros n id' E. rewrite E in Hraw. by eapply multiId_not_raw.
Qed.

(** ** Further properties: annotation lists *)






(** ** Further properties: key names *)

(** X4.  [getClosureSafeProperty] returns the first key of the literal whose
    value is the marker, and throws exactly when no value is the marker; on
    the six literals of the file it returns the key names [resolveProvider],
    [computeDeps] and [recursivelyProcessProviders] test for. *)
Theorem closure_safe_property obj :
  match getClosureSafeProperty obj with
  | Some key =>
      ∃ pre v post,
        obj = pre ++ (key, v) :: post ∧ is_GET_PROPERTY_NAME v = true ∧
        Forall (λ kv, is_GET_PROPERTY_NAME kv.2 = false) pre
  | None => Forall (λ kv, is_GET_PROPERTY_NAME kv.2 = false) obj
  end ∧
  USE_CLASS = Some "useClass" ∧ USE_VALUE = Some "useValue" ∧
  USE_FACTORY = Some "useFactory" ∧ USE_EXISTING = Some "useExisting" ∧
  PROVIDE = Some "provide" ∧ MULTI = Some "multi".
Proof.
  split; [|by repeat split].
  induction obj as [|[key v] obj IH]; cbn [getClosureSafeProperty].
  { constructor. }
  destruct (is_GET_PROPERTY_NAME v) eqn:Hv.
  { exists [], v, obj. by repeat split. }
  destruct (getClosureSafeProperty obj) as [k|].
  - destruct IH as (pre & v' & post & -> & Hv' & Hpre).
    exists ((key, v) :: pre), v', post. repeat split; try done.
    by constructor.
  - by constructor.
Qed.

(** ** Further properties: the registry builder *)

(** X5.  Only the sequence of entries counts: provider lists that flatten to
    the same entries, however nested and whatever falsy entries they hold,
    give the same scope or the same error. *)
Theorem nesting_is_irrelevant self ps ps' parent :
  flatten ps = flatten ps' →
  create self ps parent = create self ps' parent.
Proof.
  intros Hf. unfold create. destruct (getId Injector) as [id|]; [|done].
  cbn [mbind result_bind]. by rewrite !rPP_flatten, Hf.
Qed.

(** X6.  The recipe of a description is checked when it is registered, after
    its token: a description with a truthy token that is neither a value nor
    an alias is rejected with ['deps' required] when it has no [deps] key,
    and with the not-newable error when it names no factory and no class and
    its token is not a function. *)
Theorem recipe_is_validated_at_registration records tok sp :
  provide sp = Some tok → truthy tok = true →
  useValue sp = None → useExisting sp = None →
  (provider_deps sp = None →
   recursivelyProcessProviders records (to_jsval sp)
   = Err (newError (DepsRequired (to_jsval sp)))) ∧
  (∀ ds, computeDeps sp = Ok ds →
         useFactory sp = None → useClass sp = None →
         typeof tok ≠ "function" →
         recursivelyProcessProviders records (to_jsval sp)
         = Err (newError (NotNewable (to_jsval sp)))).
Proof.
  intros Hp Ht Hv He.
  assert (∃ id, getId tok = Ok id) as [id Hid].
  { unfold getId. rewrite Ht. cbn [negb]. case_match; eauto. }
  assert (recursivelyProcessProviders records (to_jsval sp)
          = processProvider records sp) as ->.
  { destruct sp as [p v f e c d m]. cbn in Hp. subst p. done. }
  unfold processProvider, resolveProvider, resolveForwardRef.
  rewrite Hp. change (prop (Some tok)) with tok. rewrite Hid.
  cbn [mbind result_bind].
  split.
  - intros Hd. unfold computeDeps. by rewrite Hd, He, Hv.
  - intros ds Hds Hf Hc Hty. rewrite Hds. cbn [mbind result_bind].
    rewrite Hv, Hf, He, Hc.
    by rewrite bool_decide_eq_false_2.
Qed.

Lemma getId_Injector : getId Injector = Ok injectorId.
Proof. done. Qed.

Lemma injectorId_raw : raw injectorId.
Proof. apply (getId_raw Injector). apply getId_Injector. Qed.

Lemma raw_dec k : raw k ∨ ¬ raw k.
Proof.
  destruct k as [|c s]; [right; by intros (?&?&?&?)|].
  destruct (decide (c = "_"%char)) as [->|Hc].
  - right. intros (?&?&?&?). by simplify_eq.
  - left. by exists c, s.
Qed.

Lemma processProviders_app sps1 sps2 : ∀ recs,
  processProviders recs (sps1 ++ sps2) =
  match processProviders recs sps1 with
  | Ok recs' => processProviders recs' sps2
  | Err e => Err e
  end.
Proof.
  induction sps1 as [|sp sps1 IH]; intros recs; [done|].
  cbn [app processProviders].
  destruct (processProvider recs sp); [apply IH|done].
Qed.

Lemma contributions_mono id done sp :
  contributions id done ≠ [] → contributions id (done ++ [sp]) ≠ [].
Proof.
  rewrite contributions_snoc. destruct (contributions id done); [done|].
  intros _. done.
Qed.

Lemma contributions_length_mono id done sp :
  length (contributions id done) ≤ length (contributions id (done ++ [sp])).
Proof. rewrite contributions_snoc, length_app. lia. Qed.

Lemma contributions_own id done sp :
  id_of sp = Ok id →
  contributions id (done ++ [sp]) = contributions id done ++ [sp].
Proof.
  intros Hid. by rewrite contributions_snoc, (proj2 (has_id_true _ _) Hid).
Qed.

Lemma elem_of_contributions id sps sp :
  sp ∈ contributions id sps ↔ sp ∈ sps ∧ id_of sp = Ok id.
Proof.
  unfold contributions. rewrite list_elem_of_filter, has_id_true. tauto.
Qed.

Lemma contributions_nonempty id sps :
  contributions id sps ≠ [] ↔ ∃ sp, sp ∈ sps ∧ id_of sp = Ok id.
Proof.
  split.
  - destruct (contributions id sps) as [|sp l] eqn:E; [done|]. intros _.
    exists sp. apply elem_of_contributions. rewrite E. apply list_elem_of_here.
  - intros (sp & Hsp). apply elem_of_contributions in Hsp.
    by destruct (contributions id sps); [apply not_elem_of_nil in Hsp|].
Qed.

Lemma keys_inv_init self : keys_inv [] {[ injectorId := selfRecord self ]}.
Proof.
  split; [|split; [|split]].
  - exists (selfRecord self). by rewrite lookup_singleton_eq.
  - intros k r Hk Hm. apply lookup_singleton_Some in Hk as [_ <-]. done.
  - intros k _ [r Hk]. apply lookup_singleton_Some in Hk as [<- _]. by left.
  - intros k Hraw [r Hk]. apply lookup_singleton_Some in Hk as [<- _].
    destruct Hraw. apply injectorId_raw.
Qed.

Lemma keys_inv_step done recs sp recs' :
  registry_inv done recs → keys_inv done recs →
  processProvider recs sp = Ok recs' →
  keys_inv (done ++ [sp]) recs'.
Proof.
  intros Hreg (Ha & Hb & Hc & Hd) Hp.
  apply processProvider_inv in Hp as (id & rp & Hid & Hrp & Hcase).
  pose proof (getId_raw _ _ Hid) as Hraw.
  pose proof (resolveProvider_not_multi _ _ Hrp) as Hrpfn.
  pose proof injectorId_raw as HrawI.
  assert (∀ i j, multiId i j ≠ injectorId) as HneI.
  { intros i j E. rewrite <-E in HrawI. by eapply multiId_not_raw. }
  assert (∀ i j, multiId i j ≠ id) as Hne.
  { intros i j E. rewrite <-E in Hraw. by eapply multiId_not_raw. }
  destruct (is_multi sp) eqn:Hm.
  - destruct Hcase as (mp & Hmp & ->).
    assert (id ≠ injectorId) as HidI.
    { intros ->. destruct Ha as (r & Hr & Hfn).
      destruct Hmp as [[Hk Hfn']|[Hk _]]; congruence. }
    assert (length (deps mp) = length (contributions id done)) as Hlen.
    { specialize (Hreg id Hraw). cbn zeta in Hreg.
      destruct Hmp as [[Hk Hfn]|[Hk ->]]; rewrite Hk in Hreg.
      - rewrite Hfn in Hreg. destruct Hreg as (_&_&_&->&_).
        by rewrite length_imap.
      - by rewrite Hreg. }
    assert (is_multi_fn (fn mp) = true) as Hmpfn.
    { by destruct Hmp as [[_ ?]|[_ ->]]. }
    split; [|split; [|split]].
    + destruct Ha as (r & Hr & Hfn). exists r.
      by rewrite lookup_insert_ne, lookup_insert_ne.
    + intros k r Hk Hfn.
      apply lookup_insert_Some in Hk as [[<- <-]|[_ Hk]]; [congruence|].
      apply lookup_insert_Some in Hk as [[<- <-]|[_ Hk]].
      * split; [done|]. rewrite contributions_own by done.
        by destruct (contributions id done).
      * destruct (Hb k r Hk Hfn). split; [done|].
        by apply contributions_mono.
    + intros k Hk [r Hr].
      apply lookup_insert_Some in Hr as [[<- _]|[_ Hr]].
      { by destruct (multiId_not_raw _ _ Hk). }
      apply lookup_insert_Some in Hr as [[<- _]|[_ Hr]].
      * right. rewrite contributions_own by done.
        by destruct (contributions id done).
      * destruct (Hc k Hk) as [?|?]; eauto using contributions_mono.
    + intros k Hk [r Hr].
      apply lookup_insert_Some in Hr as [[<- _]|[Hnek Hr]].
      * exists (length (deps mp)), id,
          (push_dep (multiDep id (length (deps mp)) sp) mp).
        split; [done|]. split; [done|]. split.
        { rewrite contributions_own, length_app by done. simpl. lia. }
        by rewrite lookup_insert_ne, lookup_insert_eq.
      * apply lookup_insert_Some in Hr as [[<- _]|[_ Hr]]; [done|].
        destruct (Hd k Hk) as (i & id0 & r0 & -> & Hraw0 & Hi & Hr0 & Hfn0);
          [by eauto|].
        pose proof (contributions_length_mono id0 done sp).
        destruct (decide (id0 = id)) as [->|Hne0].
        -- eexists i, id, _. split; [done|]. split; [done|].
           split; [lia|]. by rewrite lookup_insert_ne, lookup_insert_eq.
        -- exists i, id0, r0. split; [done|]. split; [done|]. split; [lia|].
           rewrite lookup_insert_ne
             by (intros E; rewrite <-E in Hraw0; by eapply multiId_not_raw).
           by rewrite lookup_insert_ne.
  - destruct Hcase as [-> Hold].
    split; [|split; [|split]].
    + destruct (decide (id = injectorId)) as [->|HidI].
      * exists rp. by rewrite lookup_insert_eq.
      * destruct Ha as (r & Hr & Hfn). exists r. by rewrite lookup_insert_ne.
    + intros k r Hk Hfn.
      apply lookup_insert_Some in Hk as [[<- <-]|[_ Hk]]; [congruence|].
      destruct (Hb k r Hk Hfn). split; [done|]. by apply contributions_mono.
    + intros k Hk [r Hr].
      apply lookup_insert_Some in Hr as [[<- _]|[_ Hr]].
      * right. rewrite contributions_own by done.
        by destruct (contributions id done).
      * destruct (Hc k Hk) as [?|?]; eauto using contributions_mono.
    + intros k Hk [r Hr].
      apply lookup_insert_Some in Hr as [[<- _]|[_ Hr]]; [done|].
      destruct (Hd k Hk) as (i & id0 & r0 & -> & Hraw0 & Hi & Hr0 & Hfn0);
        [by eauto|].
      pose proof (contributions_length_mono id0 done sp).
      exists i, id0, r0. split; [done|]. split; [done|]. split; [lia|].
      rewrite lookup_insert_ne; [done|]. intros <-.
      rewrite (Hold _ Hr0) in Hfn0. done.
Qed.

Lemma invariants_build sps : ∀ done recs recs',
  registry_inv done recs → keys_inv done recs →
  processProviders recs sps = Ok recs' →
  registry_inv (done ++ sps) recs' ∧ keys_inv (done ++ sps) recs'.
Proof.
  induction sps as [|sp sps IH]; intros done recs recs' Hreg Hkeys Hp.
  { simplify_eq/=. by rewrite app_nil_r. }
  cbn [processProviders] in Hp.
  destruct (processProvider recs sp) as [recs1|] eqn:Hsp; [|done].
  replace (done ++ sp :: sps) with ((done ++ [sp]) ++ sps)
    by by rewrite <-app_assoc.
  eapply IH; [| |done].
  - by eapply registry_inv_step.
  - by eapply keys_inv_step.
Qed.

Lemma create_invariants self ps parent inj :
  create self ps parent = Ok inj →
  registry_inv (descriptions ps) (records_of inj) ∧
  keys_inv (descriptions ps) (records_of inj).
Proof.
  intros Hc. apply create_inv in Hc as (idI & recs & HidI & -> & Hb & _).
  rewrite getId_Injector in HidI. simplify_eq.
  eapply (invariants_build _ []); [| |done].
  - apply registry_inv_init.
  - apply keys_inv_init.
Qed.

(** X7.  The registry of a scope holds exactly: the seeded record of the
    injector, one record under the id of each described token, and one
    record under the private key of each constituent of a multi provider. *)
Theorem registry_keys self ps parent inj k :
  create self ps parent = Ok inj →
  is_Some (records_of inj !! k) ↔
  k = injectorId ∨
  (∃ sp, sp ∈ descriptions ps ∧ id_of sp = Ok k) ∨
  (∃ i id sp, k = multiId i id ∧
              contributions id (descriptions ps) !! i = Some sp ∧
              is_multi sp = true).
Proof.
  intros Hc. apply create_invariants in Hc as [Hreg (Ha & Hb & Hc & Hd)].
  set (recs := records_of inj) in *. set (sps := descriptions ps) in *.
  assert (∀ id r, raw id → recs !! id = Some r → is_multi_fn (fn r) = true →
            Forall (λ sp, is_multi sp = true) (contributions id sps) ∧
            ∀ i sp, contributions id sps !! i = Some sp →
                    is_Some (recs !! multiId i id)) as Hmulti.
  { intros id r Hraw Hr Hfn. specialize (Hreg id Hraw). cbn zeta in Hreg.
    rewrite Hr, Hfn in Hreg. destruct Hreg as (Hall & _ & _ & _ & Hcs).
    split; [done|]. intros i sp Hi. destruct (Hcs i sp Hi) as (rp & _ & ->).
    eauto. }
  split.
  - intros Hk. destruct (raw_dec k) as [Hraw|Hraw].
    + destruct (Hc k Hraw Hk) as [?|Hne]; [by left|]. right; left.
      by apply contributions_nonempty.
    + destruct (Hd k Hraw Hk) as (i & id & r & -> & Hrawid & Hi & Hr & Hfn).
      right; right. apply lookup_lt_is_Some in Hi as [sp Hi].
      exists i, id, sp. split; [done|]. split; [done|].
      destruct (Hmulti id r Hrawid Hr Hfn) as [Hall _].
      rewrite Forall_forall in Hall. apply Hall.
      by eapply list_elem_of_lookup_2.
  - intros [->|[(sp & Hsp & Hid)|(i & id & sp & -> & Hi & Hm)]].
    + destruct Ha as (r & -> & _). eauto.
    + specialize (Hreg k (getId_raw _ _ Hid)). cbn zeta in Hreg.
      destruct (recs !! k) as [r|]; [eauto|].
      assert (sp ∈ contributions k sps) as Hin
        by by apply elem_of_contributions.
      rewrite Hreg in Hin. by apply not_elem_of_nil in Hin.
    + assert (sp ∈ contributions id sps) as Hin
        by by eapply list_elem_of_lookup_2.
      apply elem_of_contributions in Hin as Hin'. destruct Hin' as [_ Hid].
      pose proof (getId_raw _ _ Hid) as Hraw.
      pose proof (Hreg id Hraw) as Hr. cbn zeta in Hr.
      destruct (recs !! id) as [r|] eqn:Hk.
      2:{ rewrite Hr in Hin. by apply not_elem_of_nil in Hin. }
      destruct (is_multi_fn (fn r)) eqn:Hfn.
      * destruct (Hmulti id r Hraw Hk Hfn) as [_ Hcs]. by eapply Hcs.
      * rewrite Forall_forall in Hr. apply Hr in Hin. congruence.
Qed.










Lemma processProviders_last pre sp post recs recs' id :
  processProviders recs (pre ++ sp :: post) = Ok recs' →
  id_of sp = Ok id → is_multi sp = false →
  Forall (λ sq, id_of sq ≠ Ok id) post →
  ∃ rp, resolveProvider sp = Ok rp ∧ recs' !! id = Some rp.
Proof.
  intros Hp Hid Hm Hpost. rewrite processProviders_app in Hp.
  destruct (processProviders recs pre) as [recs1|]; [|done].
  cbn [processProviders] in Hp.
  destruct (processProvider recs1 sp) as [recs2|] eqn:Hsp; [|done].
  rewrite (processProviders_keep _ _ _ _ Hp (getId_raw _ _ Hid) Hpost).
  apply processProvider_inv in Hsp as (id' & rp & Hid' & Hrp & Hcase).
  rewrite Hm in Hcase. destruct Hcase as [-> _].
  assert (id' = id) as -> by congruence.
  exists rp. by rewrite lookup_insert_eq.
Qed.

(** X9.  Among the regular descriptions of a token the last one wins: the
    registry holds, under the id of the token, the record [resolveProvider]
    makes of the last description registered for it. *)
Theorem last_description_wins self ps parent inj pre sp post id :
  create self ps parent = Ok inj →
  descriptions ps = pre ++ sp :: post →
  id_of sp = Ok id → is_multi sp = false →
  Forall (λ sq, id_of sq ≠ Ok id) post →
  ∃ rp, resolveProvider sp = Ok rp ∧ records_of inj !! id = Some rp.
Proof.
  intros Hc Hps Hid Hm Hpost.
  apply create_inv in Hc as (idI & recs & _ & -> & Hb & _).
  rewrite Hps in Hb. by eapply processProviders_last.
Qed.

(** X10.  A token whose last description is a value provider resolves to
    that value, also when the value is falsy, without invoking a function
    and without changing the scope, unless the value is the string that
    [==] equates with [IDENT]. *)
Theorem value_provider_round_trip self ps parent inj pre sp post tok id v :
  create self ps parent = Ok inj →
  descriptions ps = pre ++ sp :: post →
  id_of sp = Ok id → is_multi sp = false →
  Forall (λ sq, id_of sq ≠ Ok id) post →
  useValue sp = Some v → equalsIDENT v = false → getId tok = Ok id →
  ∀ n w nf, get (S (S (S n))) inj w tok nf = Some (Ok v, inj, w).
Proof.
  intros Hc Hps Hid Hm Hpost Hv Hi Htok n w nf.
  apply create_inv in Hc as (idI & recs & _ & -> & Hb & _).
  rewrite Hps in Hb.
  destruct (processProviders_last _ _ _ _ _ _ Hb Hid Hm Hpost)
    as (rp & Hrp & Hk).
  eapply get_resolved; [done..| |done]. by eapply resolveProvider_value.
Qed.

(** X11.  A [useExisting] description without listed dependencies registers
    an alias: the identity function over the one dependency on the existing
    token.  When dependencies are listed, they are the dependencies of the
    record and the existing token is not added to them. *)
Theorem existing_description_registers_alias sp b idb :
  useValue sp = None → useFactory sp = None → useExisting sp = Some b →
  getId b = Ok idb →
  (provider_deps sp = None ∨ provider_deps sp = Some [] →
   resolveProvider sp
   = Ok (mkRecord (resolveForwardRef (prop (provide sp))) IDENT false
                  [mkDep idb b OPT_DEFAULT] EMPTY)) ∧
  (∀ d ds rs,
     provider_deps sp = Some (d :: ds) → computeDepsLoop (d :: ds) = Ok rs →
     resolveProvider sp
     = Ok (mkRecord (resolveForwardRef (prop (provide sp))) IDENT false rs
                    EMPTY)).
Proof.
  intros Hv Hf He Hid. unfold resolveProvider, computeDeps, resolveForwardRef.
  rewrite Hv, Hf, He, Hid. split.
  - by intros [->| ->].
  - intros d ds rs -> ->. done.
Qed.

(** ** Further properties: resolution *)

Lemma ok_step_circular s s' : ok_step s s' → s' = CIRCULAR → s = CIRCULAR.
Proof. by destruct 1. Qed.

Lemma ok_step_from_circular s' : ok_step CIRCULAR s' → s' = CIRCULAR.
Proof. by inversion 1. Qed.

Lemma resolveDeps_singleton try d st :
  resolveDeps try [d] st [] =
  match resolveDep try d st with
  | None => None
  | Some (Err e, st') => Some (Err e, st')
  | Some (Ok v, st') => Some (Ok [v], st')
  end.
Proof.
  cbn [resolveDeps]. by destruct (resolveDep try d st) as [[[v|e] st']|].
Qed.

(** X12.  A record with the identity function and one dependency, as
    [useExisting] makes it, is an alias: it resolves to what the dependency
    resolves to and fails when the dependency fails; afterwards the alias
    and a local target hold the same value. *)
Theorem existing_provider_is_alias n tok k st nf r d :
  st_records st !! k = Some r → value r = EMPTY →
  fn r = IDENT → useNew r = false → deps r = [d] →
  resolveToken (S n) tok (Some k) st nf =
    match resolveDep (tryResolveToken n) d
            (with_records (alter (set_value CIRCULAR) k) st) with
    | None => None
    | Some (Err e, st1) => Some (Err e, st1)
    | Some (Ok v, st1) =>
        Some (Ok v,
              with_records (alter (set_value (Value v)) k)
                (with_world (record_event (Invoke IDENT VUndefined [v])) st1))
    end ∧
  ∀ v st2,
    resolveToken (S n) tok (Some k) st nf = Some (Ok v, st2) →
    has_opt (options d) OPT_CHECK_SELF = true →
    is_Some (st_records st !! dep_id d) →
    ∃ ra rb,
      st_records st2 !! k = Some ra ∧ value ra = Value v ∧
      st_records st2 !! dep_id d = Some rb ∧ value rb = Value v.
Proof.
  intros Hk Hv Hfn Hnew Hdeps.
  assert (resolveToken (S n) tok (Some k) st nf =
    match resolveDep (tryResolveToken n) d
            (with_records (alter (set_value CIRCULAR) k) st) with
    | None => None
    | Some (Err e, st1) => Some (Err e, st1)
    | Some (Ok v, st1) =>
        Some (Ok v,
              with_records (alter (set_value (Value v)) k)
                (with_world (record_event (Invoke IDENT VUndefined [v])) st1))
    end) as Heq.
  { rewrite resolveToken_unfold. unfold deref. cbn [mbind option_bind].
    rewrite Hk. cbn [mbind option_bind]. rewrite Hv, Hdeps. cbv zeta.
    rewrite resolveDeps_singleton.
    destruct (resolveDep _ _ _) as [[[v|e] st1]|]; try done.
    unfold construct. rewrite Hnew, Hfn. done. }
  split; [done|]. intros v st2 Hr Hself [rd Hd]. rewrite Heq in Hr.
  destruct (resolveDep _ _ _) as [[[v'|e] st1]|] eqn:Hdep; simplify_eq.
  pose proof (resolveDep_frame _ (proj1 (proj2 (frame n))) _ _ _ _ Hdep)
    as [Hm _].
  unfold resolveDep, childRecordOf, lookupRef in Hdep. rewrite Hself in Hdep.
  cbn [with_records st_records] in Hdep, Hm.
  assert (is_Some (alter (set_value CIRCULAR) k (st_records st) !! dep_id d))
    as Hd'.
  { rewrite lookup_alter_is_Some. eauto. }
  destruct Hd' as [rd' Hd']. rewrite Hd' in Hdep. cbn [delegatesToNull] in Hdep.
  apply try_ok_slot in Hdep as (rb & Hrb & Hvb); [|by eauto].
  assert (dep_id d ≠ k) as Hne.
  { intros E. rewrite E in Hrb. specialize (Hm k).
    rewrite lookup_alter_eq, Hk, Hrb in Hm. cbn in Hm.
    inversion Hm as [? ? (_&_&_&_&Hs)|]; subst. cbn in Hs.
    apply ok_step_from_circular in Hs. congruence. }
  cbn [with_records with_world st_records].
  destruct (records_rel_lookup _ _ _ k (set_value CIRCULAR r) Hm)
    as (ra & Hra & _).
  { by rewrite lookup_alter_eq, Hk. }
  exists (set_value (Value v) ra), rb.
  rewrite lookup_alter_eq, Hra, lookup_alter_ne by done. done.
Qed.

(** X13.  When the function of a record throws, nothing happens after the
    throw but the [catch] block.  When the block can annotate what was
    thrown, the resolution fails with it, the path being the token and what
    the thrown value carried, and the record is unresolved again, so that a
    later [get] calls the function again.  When it cannot, the resolution
    fails with the [TypeError] of the block, and the record stays marked in
    progress. *)
Theorem throwing_function_leaves_record_unresolved
    n tok k st nf r f args st1 payload :
  truthy tok = true →
  st_records st !! k = Some r → value r = EMPTY →
  fn r = UserFn f → typeof f = "function" →
  (useNew r = true → hasPrototype f = true) →
  resolveDeps (tryResolveToken n) (deps r)
    (with_records (alter (set_value CIRCULAR) k) st) [] = Some (Ok args, st1) →
  let this := if useNew r then VInst (next (st_world st1)) else VUndefined in
  call f this args = Throw payload →
  let called :=
    Raise (HostThrown payload) :: Invoke (UserFn f) this args
      :: log (st_world st1) in
  ∃ st',
    st_parent st' = st_parent st1 ∧
    match thrown payload with
    | Some path =>
        tryResolveToken (S (S n)) tok (Some k) st nf
        = Some (Err (mkError (HostThrown payload) (tok :: path) None), st') ∧
        st_records st' = alter (set_value EMPTY) k (st_records st1) ∧
        (∃ r', st_records st' !! k = Some r' ∧ value r' = EMPTY) ∧
        log (st_world st') = called
    | None =>
        tryResolveToken (S (S n)) tok (Some k) st nf
        = Some (Err (newError TypeError), st') ∧
        st_records st' = st_records st1 ∧
        (∃ r', st_records st' !! k = Some r' ∧ value r' = CIRCULAR) ∧
        log (st_world st') = Raise TypeError :: called
    end.
Proof.
  intros Htok Hk Hv Hfn Hty Hproto Hdeps this Hcall called.
  pose proof (resolveDeps_frame _ (proj1 (proj2 (frame n))) _ _ _ _ _ Hdeps)
    as [Hm _].
  destruct (records_rel_lookup _ _ _ k (set_value CIRCULAR r) Hm)
    as (r1 & Hr1 & (_&_&_&_&Hs)).
  { cbn [with_records st_records]. by rewrite lookup_alter_eq, Hk. }
  cbn [set_value value] in Hs. apply ok_step_from_circular in Hs.
  rewrite tryResolveToken_unfold, resolveToken_unfold. unfold deref.
  cbn [mbind option_bind]. rewrite Hk. cbn [mbind option_bind].
  rewrite Hv. cbv zeta. rewrite Hdeps. unfold construct. rewrite Hfn.
  cbn [has_prototype applyFn]. rewrite !bool_decide_eq_true_2 by done.
  assert (∀ st2 : State, st_records st2 = st_records st1 →
            deref (st_records st2) (Some k) = Some (k, r1)) as Hderef.
  { intros st2 E. apply deref_Some. by rewrite E. }
  subst this called.
  destruct (useNew r);
    [rewrite Hproto by done|]; cbn [andb with_world st_world alloc next log];
    rewrite Hcall; unfold catchResolve, pathOf;
    cbn [newError kind ngTempTokenPath ngTokenPath];
    destruct (thrown payload) as [path|]; rewrite ?Htok, ?Hderef by done;
    rewrite ?Hs; cbn [equalsCIRCULAR];
    (eexists; split; [|split; [reflexivity|]]);
    cbn [with_records with_world st_records st_parent st_world log
         record_event];
    rewrite ?lookup_alter_eq, ?Hr1; (repeat split; try done);
    by eexists.
Qed.

Lemma get_err_temp_path fuel inj w tok nf e inj' w' :
  get fuel inj w tok nf = Some (Err e, inj', w') → ngTempTokenPath e = [].
Proof. intros Hg. by apply get_err in Hg as [? _]. Qed.

(** X14.  A token without a record in the scope is the parent's business:
    [get] returns what the parent's [get] returns and leaves the registry of
    the scope as it is; an error of the parent comes back with the token as
    its path. *)
Theorem missing_record_delegates_to_parent n self m p w tok nf id :
  getId tok = Ok id → m !! id = None →
  get (S (S (S n))) (StaticInjector self m p) w tok nf =
  match get n p w tok nf with
  | None => None
  | Some (Ok v, p', w') => Some (Ok v, StaticInjector self m p', w')
  | Some (Err e, p', w') =>
      Some (Err (mkError (kind e) [] (Some [tok])), StaticInjector self m p', w')
  end.
Proof.
  intros Hid Hk. rewrite get_unfold, Hid. unfold lookupRef. rewrite Hk.
  rewrite try_no_record by (by eapply getId_truthy).
  cbn [st_parent st_world st_records].
  destruct (get n p w tok nf) as [[[[v|e] p'] w']|] eqn:Hg; [done| |done].
  apply get_err in Hg as (Hg & _ & Hrep). cbn [rethrow]. unfold catchGet.
  change (reported (mkError (kind e) (tok :: ngTempTokenPath e) (ngTokenPath e)))
    with (reported e).
  rewrite Hrep.
  cbn [kind ngTempTokenPath st_records st_parent st_world fst snd].
  by rewrite Hg.
Qed.

(** X15.  A token no scope of the chain has a record for: [get] returns the
    fallback when one is given, whatever it is, and throws the no-provider
    error naming the token when none is given or it is [undefined]; no
    registry changes. *)
Theorem unknown_token inj : ∀ n w tok nf id,
  getId tok = Ok id → no_provider inj id → fuel_bound inj ≤ n →
  get n inj w tok nf =
  if is_throw_if_not_found nf
  then Some (Err (noProviderError inj tok), inj,
             record_event (Raise (NoProvider tok)) w)
  else Some (Ok nf, inj, w).
Proof. apply get_unprovided. Qed.

Lemma tryResolveToken_record n tok k st nf nf' :
  is_Some (st_records st !! k) →
  tryResolveToken n tok (Some k) st nf = tryResolveToken n tok (Some k) st nf'.
Proof.
  intros [r Hk]. destruct n as [|[|n]]; [reflexivity..|].
  rewrite !tryResolveToken_unfold, !resolveToken_unfold.
  unfold deref. cbn [mbind option_bind]. rewrite Hk. done.
Qed.

(** X16.  The fallback of [get] counts only for a token no scope provides:
    when some scope of the chain has a record for the token, the outcome of
    [get] does not depend on the fallback, so a fallback never makes up for
    a failure inside the resolution of a provided token. *)
Theorem fallback_only_for_unprovided_tokens inj : ∀ fuel w tok nf nf' id,
  getId tok = Ok id → provided inj id →
  get fuel inj w tok nf = get fuel inj w tok nf'.
Proof.
  induction inj as [|self m p IH]; intros fuel w tok nf nf' id Hid Hp; [done|].
  destruct fuel as [|fuel]; [done|]. cbn [get]. rewrite Hid.
  unfold lookupRef. destruct (m !! id) as [r|] eqn:Hk.
  - by rewrite (tryResolveToken_record _ _ _ _ nf nf') by (simpl; eauto).
  - destruct Hp as [[? ?]|Hp]; [congruence|].
    destruct fuel as [|[|n]]; [reflexivity..|].
    rewrite !try_no_record by (by eapply getId_truthy).
    cbn [st_parent st_world]. by rewrite (IH n w tok nf nf' id).
Qed.

Lemma calls_of_refl l : calls_of 0 l l.
Proof. by exists []. Qed.

Lemma calls_of_trans n n' l1 l2 l3 :
  calls_of n l1 l2 → calls_of n' l2 l3 → calls_of (n + n') l1 l3.
Proof.
  intros (d1 & -> & Hd1 & <-) (d2 & -> & Hd2 & <-). exists (d2 ++ d1).
  rewrite app_assoc, length_app. split; [done|].
  split; [by apply Forall_app|lia].
Qed.

Lemma construct_calls k r args st v st' :
  construct k r args st = (Ok v, st') →
  calls_of 1 (log (st_world st)) (log (st_world st')).
Proof.
  unfold construct. intros Hc.
  repeat (case_match; simplify_eq/=);
    (eexists [_]; split; [reflexivity|]; by repeat constructor).
Qed.

Lemma empties_alter_keep m k r s :
  m !! k = Some r → value r ≠ EMPTY → s ≠ EMPTY →
  empties (alter (set_value s) k m) = empties m.
Proof.
  intros Hk Hv Hs. apply set_eq. intros j. rewrite !elem_of_empties.
  destruct (decide (k = j)) as [->|Hne].
  - rewrite lookup_alter_eq, Hk. simpl. split.
    + intros (r' & ? & ?). simplify_eq/=.
    + intros (r' & ? & ?). simplify_eq/=.
  - by rewrite lookup_alter_ne.
Qed.

Lemma injector_rel_null R p : injector_rel R NULL_INJECTOR p → p = NULL_INJECTOR.
Proof. by inversion 1. Qed.

Section LoopCalls.
Variable try :
  jsval → option string → State → jsval → option (result jsval * State).
Hypothesis try_frame : ∀ tok record st nf r st',
  try tok record st nf = Some (r, st') → state_rel (step_of r) st st'.
Hypothesis try_calls : ∀ tok record st nf v st',
  try tok record st nf = Some (Ok v, st') →
  ∃ n, calls_of n (log (st_world st)) (log (st_world st')) ∧
       n + unresolved_state st' = unresolved_state st.

Lemma resolveDep_calls d st v st' :
  resolveDep try d st = Some (Ok v, st') →
  ∃ n, calls_of n (log (st_world st)) (log (st_world st')) ∧
       n + unresolved_state st' = unresolved_state st.
Proof.
  unfold resolveDep. destruct (delegatesToNull _ _); [|by apply try_calls].
  destruct (try _ _ _ _) as [[r1 st1]|] eqn:Ht; intros; simplify_eq.
  pose proof (try_frame _ _ _ _ _ _ Ht) as [_ Hp].
  apply injector_rel_null in Hp.
  apply try_calls in Ht as (n & Hn & Hu). exists n. split; [done|].
  unfold unresolved_state in *. cbn [with_parent st_records st_parent] in *.
  rewrite Hp in Hu. simpl in Hu. lia.
Qed.

Lemma resolveDeps_calls ds st acc args st' :
  resolveDeps try ds st acc = Some (Ok args, st') →
  ∃ n, calls_of n (log (st_world st)) (log (st_world st')) ∧
       n + unresolved_state st' = unresolved_state st.
Proof.
  revert st acc. induction ds as [|d ds IH]; simpl; intros st acc Hr.
  { simplify_eq. exists 0. split; [apply calls_of_refl|done]. }
  destruct (resolveDep try d st) as [[[v|e1] st1]|] eqn:Hd1; simplify_eq.
  apply resolveDep_calls in Hd1 as (n1 & Hn1 & Hu1).
  apply IH in Hr as (n2 & Hn2 & Hu2).
  exists (n1 + n2). split; [by eapply calls_of_trans|lia].
Qed.
End LoopCalls.

Lemma calls fuel :
  (∀ inj w tok nf v inj' w',
     get fuel inj w tok nf = Some (Ok v, inj', w') →
     ∃ n, calls_of n (log w) (log w') ∧ n + unresolved inj' = unresolved inj) ∧
  (∀ tok record st nf v st',
     tryResolveToken fuel tok record st nf = Some (Ok v, st') →
     ∃ n, calls_of n (log (st_world st)) (log (st_world st')) ∧
          n + unresolved_state st' = unresolved_state st) ∧
  (∀ tok record st nf v st',
     resolveToken fuel tok record st nf = Some (Ok v, st') →
     ∃ n, calls_of n (log (st_world st)) (log (st_world st')) ∧
          n + unresolved_state st' = unresolved_state st).
Proof.
  induction fuel as [|n (IHg & IHt & IHr)]; [by repeat split|].
  split; [|split].
  - intros inj w tok nf v inj' w' Hg.
    destruct inj as [|self m p].
    { simpl in Hg. case_match; simplify_eq. exists 0.
      split; [apply calls_of_refl|done]. }
    rewrite get_unfold in Hg.
    destruct (getId tok) as [id|e0] eqn:Hid; [|done].
    destruct (tryResolveToken n _ _ _ _) as [[[v1|e1] st]|] eqn:Ht; simplify_eq.
    by apply IHt in Ht.
  - intros tok record st nf v st' Ht. rewrite tryResolveToken_unfold in Ht.
    destruct (resolveToken n _ _ _ _) as [[[v1|e1] st1]|] eqn:Hr; [| |done].
    + simplify_eq. by apply IHr in Hr.
    + injection Ht as Ht. by apply catchResolve_not_Ok in Ht.
  - intros tok record st nf v st' Hr. rewrite resolveToken_unfold in Hr.
    destruct (deref (st_records st) record) as [[k r0]|] eqn:Hd.
    + apply deref_Some in Hd as [-> Hk]. cbv zeta in Hr.
      destruct (value r0) as [| |x] eqn:Hv; [|by simplify_eq|];
        [|destruct (equalsIDENT x); simplify_eq].
      * destruct (resolveDeps _ _ _ _) as [[[args|e1] st1]|] eqn:Hl;
          simplify_eq.
        pose proof (resolveDeps_frame _ (proj1 (proj2 (frame n))) _ _ _ _ _ Hl)
          as [Hm _].
        destruct (records_rel_lookup _ _ _ k (set_value CIRCULAR r0) Hm)
          as (r1 & Hr1 & (_&_&_&_&Hs)).
        { cbn [with_records st_records]. by rewrite lookup_alter_eq, Hk. }
        cbn [set_value value] in Hs. apply ok_step_from_circular in Hs.
        apply (resolveDeps_calls _ (proj1 (proj2 (frame n))) IHt) in Hl
          as (n1 & Hn1 & Hu1).
        destruct (construct k r0 args st1) as [res st2] eqn:Hc. simplify_eq.
        pose proof (construct_calls _ _ _ _ _ _ Hc) as Hn2.
        apply construct_inv in Hc as [Hp2 Hm2].
        exists (n1 + 1). split; [by eapply calls_of_trans|].
        unfold unresolved_state in *. rewrite Hp2, Hm2.
        rewrite (empties_alter_keep _ _ r1) by (done || congruence).
        cbn [with_records st_records st_parent] in Hu1.
        pose proof (empties_mark _ _ _ Hk Hv). lia.
      * exists 0. split; [apply calls_of_refl|done].
    + destruct (get n _ _ _ _) as [[[r1 p1] w1]|] eqn:Hg; simplify_eq.
      apply IHg in Hg as (n1 & Hn1 & Hu1). exists n1. split; [done|].
      unfold unresolved_state. simpl. lia.
Qed.

(** X17.  A [get] that returns called one function for each record it
    resolved, in this scope or in its ancestors, and raised nothing: the
    number of calls is the number of records that went from unresolved to
    resolved. *)
Theorem one_call_per_resolved_record fuel inj w tok nf v inj' w' :
  get fuel inj w tok nf = Some (Ok v, inj', w') →
  ∃ evs, log w' = evs ++ log w ∧ Forall is_invoke evs ∧
         length evs + unresolved inj' = unresolved inj.
Proof.
  intros Hg. apply (proj1 (calls fuel)) in Hg as (n & (evs & ? & ? & <-) & ?).
  by exists evs.
Qed.

(** ** Further properties: errors *)

(** X18.  A [get] that throws reports the last error that was raised, and
    nothing ran after that raise.  Every call of a function before it
    returned, and nothing else was raised, with one exception: when a
    function threw a value on which a [catch] block throws, the error
    reported is the [TypeError] of that block, raised right after the value
    was. *)
Theorem failure_is_the_raised_error fuel inj w tok nf e inj' w' :
  truthy_chain inj →
  get fuel inj w tok nf = Some (Err e, inj', w') →
  ∃ evs, Forall is_invoke evs ∧
    (log w' = Raise (kind e) :: evs ++ log w ∨
     ∃ payload,
       (thrown payload = None ∨ reportable payload = false) ∧
       kind e = TypeError ∧
       log w' = Raise TypeError :: Raise (HostThrown payload) :: evs ++ log w).
Proof. intros Hc Hg. by apply (proj1 (trace _)) in Hg. Qed.

Lemma construct_err k r args st e st' :
  construct k r args st = (Err e, st') →
  ngTempTokenPath e = [] ∧ ngTokenPath e = None ∧
  (kind e = TypeError ∨ ∃ p, kind e = HostThrown p).
Proof.
  unfold construct, applyFn. intros Hc.
  repeat (case_match; simplify_eq/=); eauto.
Qed.

Lemma catchResolve_kind tok record e st e' st' :
  catchResolve tok record e st = (Err e', st') →
  kind e' = kind e ∨ kind e' = TypeError.
Proof.
  intros Hc.
  apply catchResolve_inv in Hc
    as (_ & [(t & path & _ & [= ->] & _)|([= ->] & _)]); auto.
Qed.

Lemma catchGet_kind e w :
  kind (catchGet e w).1 = kind e ∨ kind (catchGet e w).1 = TypeError.
Proof. unfold catchGet. destruct (reported e); auto. Qed.

Lemma truthy_deps_mark m k s :
  truthy_deps m → truthy_deps (alter (set_value s) k m).
Proof.
  intros Hm j rj. rewrite lookup_alter_Some.
  intros [(_ & r1 & ? & ->)|[_ ?]]; simpl; eauto.
Qed.

Section LoopKinds.
Variable try :
  jsval → option string → State → jsval → option (result jsval * State).
Hypothesis try_frame : ∀ tok record st nf r st',
  try tok record st nf = Some (r, st') → state_rel (step_of r) st st'.
Hypothesis try_kinds : ∀ tok record st nf e st',
  try tok record st nf = Some (Err e, st') →
  truthy_deps (st_records st) → truthy_chain (st_parent st) →
  truthy tok = true → raised_by_resolution (kind e).

Lemma resolveDep_kinds d st e st' :
  resolveDep try d st = Some (Err e, st') →
  truthy_deps (st_records st) → truthy_chain (st_parent st) →
  truthy (dep_token d) = true → raised_by_resolution (kind e).
Proof.
  unfold resolveDep. destruct (delegatesToNull _ _); [|by apply try_kinds].
  destruct (try _ _ _ _) as [[r1 st1]|] eqn:Ht; intros; simplify_eq.
  by apply try_kinds in Ht.
Qed.

Lemma resolveDeps_kinds ds st acc e st' :
  resolveDeps try ds st acc = Some (Err e, st') →
  truthy_deps (st_records st) → truthy_chain (st_parent st) →
  Forall (λ d, truthy (dep_token d) = true) ds →
  raised_by_resolution (kind e).
Proof.
  revert st acc. induction ds as [|d ds IH]; simpl; intros st acc Hr Hm Hp Hds.
  { done. }
  apply Forall_cons in Hds as [Hd Hds].
  destruct (resolveDep try d st) as [[[v|e1] st1]|] eqn:Hd1; simplify_eq.
  - pose proof (resolveDep_frame _ try_frame _ _ _ _ Hd1) as [Hm1 Hp1].
    eapply IH; eauto using truthy_deps_rel, truthy_chain_rel.
  - by eapply resolveDep_kinds.
Qed.
End LoopKinds.

Lemma kinds fuel :
  (∀ inj w tok nf e inj' w',
     get fuel inj w tok nf = Some (Err e, inj', w') →
     truthy_chain inj →
     raised_by_resolution (kind e) ∨
     kind e = TokenMustBeTruthy tok ∧ truthy tok = false) ∧
  (∀ tok record st nf e st',
     tryResolveToken fuel tok record st nf = Some (Err e, st') →
     truthy_deps (st_records st) → truthy_chain (st_parent st) →
     truthy tok = true → raised_by_resolution (kind e)) ∧
  (∀ tok record st nf e st',
     resolveToken fuel tok record st nf = Some (Err e, st') →
     truthy_deps (st_records st) → truthy_chain (st_parent st) →
     truthy tok = true → raised_by_resolution (kind e)).
Proof.
  induction fuel as [|n (IHg & IHt & IHr)]; [by repeat split|].
  split; [|split].
  - intros inj w tok nf e inj' w' Hg Hc.
    destruct inj as [|self m p].
    { simpl in Hg. case_match; simplify_eq. by left. }
    destruct Hc as [Hm Hp]. rewrite get_unfold in Hg.
    destruct (getId tok) as [id|e0] eqn:Hid.
    2:{ simplify_eq. apply getId_err in Hid as [-> ?]. by right. }
    apply getId_truthy in Hid.
    destruct (tryResolveToken n _ _ _ _) as [[[v|e1] st]|] eqn:Ht; simplify_eq.
    left. apply IHt in Ht; [|done..].
    by destruct (catchGet_kind e1 (st_world st)) as [-> | ->].
  - intros tok record st nf e st' Ht Hm Hp Htok.
    rewrite tryResolveToken_unfold in Ht.
    destruct (resolveToken n _ _ _ _) as [[[v|e1] st1]|] eqn:Hr; simplify_eq.
    apply IHr in Hr; [|done..].
    by apply catchResolve_kind in Ht as [-> | ->].
  - intros tok record st nf e st' Hr Hm Hp Htok.
    rewrite resolveToken_unfold in Hr.
    destruct (deref (st_records st) record) as [[k r0]|] eqn:Hd.
    + apply deref_Some in Hd as [-> Hk]. cbv zeta in Hr.
      destruct (value r0) as [| |x] eqn:Hv; [|by simplify_eq|];
        [|by destruct (equalsIDENT x); simplify_eq].
      destruct (resolveDeps _ _ _ _) as [[[args|e1] st1]|] eqn:Hl; simplify_eq.
      * destruct (construct k r0 args st1) as [res st2] eqn:Hc. simplify_eq.
        apply construct_err in Hc as (_ & _ & [->|[p ->]]); done.
      * eapply (resolveDeps_kinds _ (proj1 (proj2 (frame n))) IHt);
          [exact Hl| | |].
        -- by apply truthy_deps_mark.
        -- done.
        -- by eapply Hm.
    + destruct (get n _ _ _ _) as [[[r1 p1] w1]|] eqn:Hg; simplify_eq.
      apply IHg in Hg as [?|[_ ?]]; [done|congruence|done].
Qed.

(** X19.  The errors of the registry builder are raised at construction
    only: a [get] fails with a no-provider, a circular-dependency or a type
    error or with what a function threw, and with the truthiness error only
    for a falsy token it was called with. *)
Theorem get_fails_only_with_resolution_errors fuel inj w tok nf e inj' w' :
  truthy_chain inj →
  get fuel inj w tok nf = Some (Err e, inj', w') →
  raised_by_resolution (kind e) ∨
  kind e = TokenMustBeTruthy tok ∧ truthy tok = false.
Proof. intros Hc Hg. by apply (proj1 (kinds _)) in Hg. Qed.

Lemma lookupRef_rel R m m' id :
  records_rel R m m' → lookupRef m id = lookupRef m' id.
Proof.
  intros Hm. unfold lookupRef. specialize (Hm id).
  by destruct Hm.
Qed.

Lemma childRecordOf_rel R m m' d :
  records_rel R m m' → childRecordOf m d = childRecordOf m' d.
Proof.
  intros Hm. unfold childRecordOf. by rewrite (lookupRef_rel _ _ _ _ Hm).
Qed.

Lemma dep_chain_rel R m m' path : ∀ record,
  records_rel R m m' → dep_chain m' record path → dep_chain m record path.
Proof.
  induction path as [|t rest IH]; intros record Hm; [done|].
  intros (k & r' & d & -> & Hk & Hd & Ht & Hrest).
  destruct (records_rel_lookup_r _ _ _ _ _ Hm Hk) as (r & Hr & (_&_&_&Hds&_)).
  exists k, r, d. rewrite Hds, (childRecordOf_rel _ _ _ _ Hm).
  repeat split; try done. by apply IH.
Qed.

Lemma records_rel_mark m k s :
  records_rel (λ _ _, True) m (alter (set_value s) k m).
Proof.
  intros j. destruct (decide (k = j)) as [->|Hne].
  - rewrite lookup_alter_eq. destruct (m !! j); by constructor.
  - rewrite lookup_alter_ne by done. destruct (m !! j); by constructor.
Qed.

Lemma pathOf_cons k t path o :
  pathOf (mkError k (t :: path) o) = Some (t :: path).
Proof. unfold pathOf. simpl. by destruct k. Qed.

Lemma path_along_rel R m m' record e path :
  records_rel R m m' → path_along m' record e path → path_along m record e path.
Proof.
  intros Hm (rest & tail & -> & Hchain & Hc). exists rest, tail.
  repeat split; try done. by eapply dep_chain_rel.
Qed.

Lemma path_along_nil m record e : path_along m record e [].
Proof. exists [], []. repeat split. by left. Qed.

Section LoopPaths.
Variable try :
  jsval → option string → State → jsval → option (result jsval * State).
Hypothesis try_frame : ∀ tok record st nf r st',
  try tok record st nf = Some (r, st') → state_rel (step_of r) st st'.
Hypothesis try_path : ∀ tok record st nf e st',
  try tok record st nf = Some (Err e, st') →
  truthy_deps (st_records st) → truthy tok = true →
  annotated (st_records st) tok record e.

Lemma resolveDep_path d st e st' :
  resolveDep try d st = Some (Err e, st') →
  truthy_deps (st_records st) → truthy (dep_token d) = true →
  annotated (st_records st) (dep_token d)
            (childRecordOf (st_records st) d) e.
Proof.
  unfold resolveDep. destruct (delegatesToNull _ _); [|by apply try_path].
  destruct (try _ _ _ _) as [[r1 st1]|] eqn:Ht; intros; simplify_eq.
  by apply try_path in Ht.
Qed.

Lemma resolveDeps_path ds st acc e st' :
  resolveDeps try ds st acc = Some (Err e, st') →
  truthy_deps (st_records st) →
  Forall (λ d, truthy (dep_token d) = true) ds →
  ∃ d, d ∈ ds ∧
       annotated (st_records st) (dep_token d)
                 (childRecordOf (st_records st) d) e.
Proof.
  revert st acc. induction ds as [|d ds IH]; simpl; intros st acc Hr Hm Hds.
  { done. }
  apply Forall_cons in Hds as [Hd Hds].
  destruct (resolveDep try d st) as [[[v|e1] st1]|] eqn:Hd1; simplify_eq.
  - pose proof (resolveDep_frame _ try_frame _ _ _ _ Hd1) as [Hm1 _].
    destruct (IH _ _ Hr) as (d' & Hin & Hpath & Hchain);
      [by eapply truthy_deps_rel|done|].
    exists d'. split; [by apply list_elem_of_further|]. split; [done|].
    rewrite (childRecordOf_rel _ _ _ _ Hm1).
    destruct Hchain as [?|(path & ? & ?)]; [by left|right].
    exists path. split; [done|]. by eapply path_along_rel.
  - exists d. split; [apply list_elem_of_here|]. by eapply resolveDep_path.
Qed.
End LoopPaths.

Lemma token_path fuel :
  (∀ tok record st nf e st',
     tryResolveToken fuel tok record st nf = Some (Err e, st') →
     truthy_deps (st_records st) → truthy tok = true →
     annotated (st_records st) tok record e) ∧
  (∀ tok record st nf e st',
     resolveToken fuel tok record st nf = Some (Err e, st') →
     truthy_deps (st_records st) →
     unseen e ∨
     pathOf e = Some (ngTempTokenPath e) ∧
     path_along (st_records st) record e (ngTempTokenPath e)).
Proof.
  induction fuel as [|n (IHt & IHr)]; [by split|].
  split.
  - intros tok record st nf e st' Ht Hm Htok.
    rewrite tryResolveToken_unfold in Ht.
    destruct (resolveToken n _ _ _ _) as [[[v|e1] st1]|] eqn:Hr; simplify_eq.
    apply IHr in Hr; [|done].
    apply catchResolve_inv in Ht
      as (_ & [(t & path & Hpath & [= ->] & Ht & _)|([= ->] & _)]).
    2:{ split; [done|]. by left. }
    rewrite (Ht Htok). split; [apply pathOf_cons|]. right.
    exists path. split; [done|].
    destruct Hr as [(payload & Hk & Hp & Ho)|[Hp Hchain]].
    + exists [], path. repeat split. right. exists payload. split; [done|].
      unfold pathOf in Hpath. by rewrite Hk, Hp, Ho in Hpath.
    + rewrite Hp in Hpath. by simplify_eq.
  - intros tok record st nf e st' Hr Hm.
    rewrite resolveToken_unfold in Hr.
    destruct (deref (st_records st) record) as [[k r0]|] eqn:Hd.
    + apply deref_Some in Hd as [-> Hk]. cbv zeta in Hr.
      destruct (value r0) as [| |x] eqn:Hv.
      * destruct (resolveDeps _ _ _ _) as [[[args|e1] st1]|] eqn:Hl;
          simplify_eq.
        -- destruct (construct k r0 args st1) as [res st2] eqn:Hc. simplify_eq.
           apply construct_err in Hc as (Hp & Ho & [Hkind|[payload Hkind]]).
           ++ right. rewrite Hp. split; [|apply path_along_nil].
              unfold pathOf. by rewrite Hkind, Hp.
           ++ left. by exists payload.
        -- right.
           destruct (resolveDeps_path _ (proj1 (proj2 (frame n))) IHt
                       _ _ _ _ _ Hl) as (d & Hin & Hpath & Hchain).
           { by apply truthy_deps_mark. }
           { by eapply Hm. }
           split; [done|].
           destruct Hchain as [[-> _]|(path & -> & rest & tail & -> & Hc & Ht)];
             [apply path_along_nil|].
           exists (dep_token d :: rest), tail. repeat split; try done.
           cbn [with_records st_records] in Hc.
           exists k, r0, d. repeat split; try done.
           rewrite (childRecordOf_rel _ _ _ _ (records_rel_mark _ k CIRCULAR)).
           eapply dep_chain_rel; [apply records_rel_mark|done].
      * simplify_eq. right. split; [done|apply path_along_nil].
      * destruct (equalsIDENT x); simplify_eq.
        right. split; [done|apply path_along_nil].
    + destruct (get n _ _ _ _) as [[[r1 p1] w1]|] eqn:Hg; simplify_eq.
      apply get_err in Hg as (Hp & Hpath & _). right. rewrite Hp.
      split; [done|apply path_along_nil].
Qed.

(** X20.  The error of a [get] that throws carries the token path: it starts
    with the token asked for and goes on along dependencies, each token a
    dependency of the record looked up for the one before, and it ends with
    the path that the thrown value carried, if any; the temporary path is
    cleared.  The exception is the [TypeError] of a [catch] block that threw
    while [get] was returning: it may carry no path. *)
Theorem error_reports_token_path fuel self m p w tok nf e inj' w' id :
  truthy_deps m → getId tok = Ok id →
  get fuel (StaticInjector self m p) w tok nf = Some (Err e, inj', w') →
  ngTempTokenPath e = [] ∧
  (ngTokenPath e = None ∧ kind e = TypeError ∨
   ∃ path tail,
     ngTokenPath e = Some (tok :: path ++ tail) ∧
     dep_chain m (lookupRef m id) path ∧
     (tail = [] ∨
      ∃ payload, kind e = HostThrown payload ∧ thrown payload = Some tail)).
Proof.
  intros Hm Hid Hg. split; [by eapply get_err_temp_path|].
  destruct fuel as [|n]; [done|]. rewrite get_unfold, Hid in Hg.
  destruct (tryResolveToken n _ _ _ _) as [[[v|e1] st]|] eqn:Ht; simplify_eq.
  apply (proj1 (token_path n)) in Ht as [_ Hpath];
    [|done|by eapply getId_truthy].
  unfold catchGet. destruct (reported e1); [|by left]. cbn [fst ngTokenPath kind].
  destruct Hpath as [[-> ?]|(path & -> & rest & tail & -> & Hchain & Hc)];
    [by left|right].
  by exists rest, tail.
Qed.

Lemma depends_on_rel R m m' k k' :
  records_rel R m m' → depends_on m' k k' → depends_on m k k'.
Proof.
  intros Hm (r' & d & Hk & Hd & Hc).
  destruct (records_rel_lookup_r _ _ _ _ _ Hm Hk) as (r & Hr & (_&_&_&Hds&_)).
  exists r, d. by rewrite Hds, (childRecordOf_rel _ _ _ _ Hm).
Qed.

Lemma on_cycle_rel R m m' :
  records_rel R m m' →
  (∃ k, tc (depends_on m') k k) → ∃ k, tc (depends_on m) k k.
Proof.
  intros Hm [k Hk]. exists k.
  eapply (tc_congruence id); [|exact Hk].
  intros ? ?. by apply (depends_on_rel R).
Qed.

Lemma has_cycle_rel R p p' :
  injector_rel R p p' → has_cycle p' → has_cycle p.
Proof.
  induction 1 as [|self m m' p p' Hm _ IH]; [done|].
  intros [Hc|Hc]; [left; by eapply on_cycle_rel|right; by apply IH].
Qed.

Lemma cycle_or_mark_rel st st' record :
  state_rel ok_step st st' → cycle_or_mark st' record → cycle_or_mark st record.
Proof.
  intros [Hm Hp] [Hc|[Hc|(k0 & k1 & r1 & -> & Hpath & Hk1 & Hv)]].
  - left. by eapply on_cycle_rel.
  - right; left. by eapply has_cycle_rel.
  - right; right.
    destruct (records_rel_lookup_r _ _ _ _ _ Hm Hk1) as (r & Hr & (_&_&_&_&Hs)).
    exists k0, k1, r. split; [done|]. split.
    + eapply (rtc_congruence id); [|exact Hpath].
      intros ? ?. by apply (depends_on_rel ok_step).
    + split; [done|]. by eapply ok_step_circular.
Qed.

Lemma quiet_ok_step p p' : injector_rel ok_step p p' → quiet p → quiet p'.
Proof.
  induction 1 as [|self m m' p p' Hm Hp IH]; simpl; [done|].
  intros [Hqm Hqp]. split; [|by apply IH].
  intros k r' Hk.
  destruct (records_rel_lookup_r _ _ _ _ _ Hm Hk) as (r & Hr & (_&_&_&_&Hs)).
  specialize (Hqm k r Hr). inversion Hs; congruence.
Qed.

(** The history only grows. *)
Lemma events_of_suffix {A} (r : result A) l l' : events_of r l l' → l `suffix_of` l'.
Proof.
  intros (d & _ & Hr). destruct r as [a|e].
  - exists d. done.
  - destruct Hr as [->|(payload & _ & _ & ->)].
    + by exists (Raise (kind e) :: d).
    + by exists (Raise TypeError :: Raise (HostThrown payload) :: d).
Qed.

Section LoopHistory.
Variable try :
  jsval → option string → State → jsval → option (result jsval * State).
Hypothesis try_history : ∀ tok record st nf r st',
  try tok record st nf = Some (r, st') →
  log (st_world st) `suffix_of` log (st_world st').

Lemma resolveDep_history d st r st' :
  resolveDep try d st = Some (r, st') →
  log (st_world st) `suffix_of` log (st_world st').
Proof.
  unfold resolveDep. destruct (delegatesToNull _ _); [|by apply try_history].
  destruct (try _ _ _ _) as [[r1 st1]|] eqn:Ht; intros; simplify_eq.
  by apply try_history in Ht.
Qed.

Lemma resolveDeps_history ds st acc r st' :
  resolveDeps try ds st acc = Some (r, st') →
  log (st_world st) `suffix_of` log (st_world st').
Proof.
  revert st acc. induction ds as [|d ds IH]; simpl; intros st acc Hr.
  { by simplify_eq. }
  destruct (resolveDep try d st) as [[[v|e1] st1]|] eqn:Hd1; simplify_eq.
  - etrans; [by eapply resolveDep_history|by eapply IH].
  - by eapply resolveDep_history.
Qed.
End LoopHistory.

Lemma history fuel :
  (∀ inj w tok nf r inj' w',
     get fuel inj w tok nf = Some (r, inj', w') → log w `suffix_of` log w') ∧
  (∀ tok record st nf r st',
     tryResolveToken fuel tok record st nf = Some (r, st') →
     log (st_world st) `suffix_of` log (st_world st')) ∧
  (∀ tok record st nf r st',
     resolveToken fuel tok record st nf = Some (r, st') →
     log (st_world st) `suffix_of` log (st_world st')).
Proof.
  induction fuel as [|n (IHg & IHt & IHr)]; [by repeat split|].
  split; [|split].
  - intros inj w tok nf r inj' w' Hg. destruct inj as [|self m p].
    { simpl in Hg. case_match; simplify_eq; [by apply suffix_cons_r|done]. }
    rewrite get_unfold in Hg. destruct (getId tok) as [id|e0].
    2:{ simplify_eq. by apply suffix_cons_r. }
    destruct (tryResolveToken n _ _ _ _) as [[[v|e1] st]|] eqn:Ht; simplify_eq;
      apply IHt in Ht; [done|].
    unfold catchGet. destruct (reported e1); [done|]. by apply suffix_cons_r.
  - intros tok record st nf r st' Ht. rewrite tryResolveToken_unfold in Ht.
    destruct (resolveToken n _ _ _ _) as [[[v|e1] st1]|] eqn:Hr; simplify_eq.
    + by apply IHr in Hr.
    + apply IHr in Hr.
      apply catchResolve_inv in Ht
        as (_ & [(_ & _ & _ & _ & _ & -> & _)|(_ & -> & _)]); [done|].
      by apply suffix_cons_r.
  - intros tok record st nf r st' Hr. rewrite resolveToken_unfold in Hr.
    destruct (deref (st_records st) record) as [[k r0]|] eqn:Hd.
    + cbv zeta in Hr. destruct (value r0) as [| |x] eqn:Hv.
      * destruct (resolveDeps _ _ _ _) as [[[args|e1] st1]|] eqn:Hl;
          simplify_eq; apply (resolveDeps_history _ IHt) in Hl; [|done].
        destruct (construct k r0 args st1) as [res st2] eqn:Hc. simplify_eq.
        apply construct_events, events_of_suffix in Hc. by etrans.
      * simplify_eq. by apply suffix_cons_r.
      * destruct (equalsIDENT x); simplify_eq; [by apply suffix_cons_r|done].
    + destruct (get n _ _ _ _) as [[[r1 p1] w1]|] eqn:Hg; simplify_eq.
      by apply IHg in Hg.
Qed.

Lemma plain_calls_suffix l l' : l `suffix_of` l' → plain_calls l' → plain_calls l.
Proof.
  intros [d ->] Hl f this args v Hin. apply Hl, elem_of_app. by right.
Qed.

Lemma plain_records_alter m k s :
  plain_records m → (∀ v, s = Value v → equalsIDENT v = false) →
  plain_records (alter (set_value s) k m).
Proof.
  intros Hm Hs j r v. rewrite lookup_alter_Some.
  intros [(_ & r1 & ? & ->)|[_ ?]]; simpl; eauto.
Qed.

Lemma construct_plain k r args st v st' :
  construct k r args st = (Ok v, st') →
  Forall (λ x, equalsIDENT x = false) args →
  plain_calls (log (st_world st')) → equalsIDENT v = false.
Proof.
  unfold construct. intros Hc Hargs Hcalls.
  assert (∀ obj st0,
            match applyFn (fn r) obj args with
            | Returned v0 => plain_calls
                (Invoke (fn r) obj args :: log (st_world st0)) →
                equalsIDENT v0 = false
            | Threw _ => True
            end) as Happly.
  { intros obj st0. unfold applyFn. destruct (fn r) as [| |g]; simpl.
    - intros _. destruct args as [|a args']; [done|].
      by apply Forall_cons in Hargs as [? _].
    - done.
    - case_bool_decide; [|done].
      destruct (call g obj args) as [v0|] eqn:Hcall; [|done].
      intros Hl. eapply Hl; [apply list_elem_of_here|done]. }
  destruct (useNew r).
  - destruct (has_prototype (fn r)); [|done].
    specialize (Happly (VInst (next (st_world st))) st).
    destruct (applyFn _ _ _) as [v0|]; [|done]. simplify_eq/=.
    specialize (Happly Hcalls). by destruct v0.
  - specialize (Happly VUndefined st).
    destruct (applyFn _ _ _) as [v0|]; [|done]. simplify_eq/=. by apply Happly.
Qed.

Section LoopCycles.
Variable try :
  jsval → option string → State → jsval → option (result jsval * State).
Hypothesis try_frame : ∀ tok record st nf r st',
  try tok record st nf = Some (r, st') → state_rel (step_of r) st st'.
Hypothesis try_history : ∀ tok record st nf r st',
  try tok record st nf = Some (r, st') →
  log (st_world st) `suffix_of` log (st_world st').
Hypothesis try_cycle : ∀ tok record st nf r st',
  try tok record st nf = Some (r, st') →
  plain_calls (log (st_world st')) →
  plain_records (st_records st) → plain_chain (st_parent st) →
  quiet (st_parent st) →
  sound st record nf r st'.

Lemma resolveDep_cycle d st r st' :
  resolveDep try d st = Some (r, st') →
  plain_calls (log (st_world st')) →
  plain_records (st_records st) → plain_chain (st_parent st) →
  quiet (st_parent st) →
  sound st (childRecordOf (st_records st) d) (notFoundFor d) r st'.
Proof.
  unfold resolveDep. destruct (delegatesToNull _ _); [|by apply try_cycle].
  destruct (try _ _ _ _) as [[r1 st1]|] eqn:Ht; intros; simplify_eq.
  apply try_cycle in Ht; try done. destruct r as [v|e]; simpl in *.
  - by destruct Ht as (? & _ & ?).
  - intros He. destruct (Ht He) as [?|[[]|?]]; [by left|by right; right].
Qed.

Lemma resolveDeps_cycle ds st acc r st' :
  resolveDeps try ds st acc = Some (r, st') →
  plain_calls (log (st_world st')) →
  plain_records (st_records st) → plain_chain (st_parent st) →
  quiet (st_parent st) →
  Forall (λ x, equalsIDENT x = false) acc →
  match r with
  | Ok args =>
      plain_records (st_records st') ∧ plain_chain (st_parent st') ∧
      Forall (λ x, equalsIDENT x = false) args
  | Err e =>
      kind e = CircularDependency →
      ∃ d, d ∈ ds ∧ cycle_or_mark st (childRecordOf (st_records st) d)
  end.
Proof.
  revert st acc. induction ds as [|d ds IH]; simpl;
    intros st acc Hr Hcalls Hm Hp Hq Hacc.
  { by simplify_eq. }
  destruct (resolveDep try d st) as [[[v|e1] st1]|] eqn:Hd1; simplify_eq.
  - pose proof (resolveDep_frame _ try_frame _ _ _ _ Hd1) as Hrel.
    pose proof (resolveDeps_history _ try_history _ _ _ _ _ Hr) as Hsuf.
    apply resolveDep_cycle in Hd1 as (Hm1 & Hp1 & Hv);
      [|by eapply plain_calls_suffix|done..].
    assert (equalsIDENT v = false) as Hv'.
    { apply Hv. unfold notFoundFor.
      by destruct (has_opt (options d) OPT_OPTIONAL). }
    assert (quiet (st_parent st1)) as Hq1.
    { destruct Hrel. by eapply quiet_ok_step. }
    assert (Forall (λ x, equalsIDENT x = false) (acc ++ [v])) as Hacc1.
    { apply Forall_app. split; [done|]. by repeat constructor. }
    pose proof (IH _ _ Hr Hcalls Hm1 Hp1 Hq1 Hacc1) as Hres.
    destruct r as [args|e]; [done|].
    intros He. destruct (Hres He) as (d' & Hin & Hc).
    exists d'. split; [by apply list_elem_of_further|].
    rewrite (childRecordOf_rel _ _ _ _ (proj1 Hrel)).
    by eapply cycle_or_mark_rel.
  - apply resolveDep_cycle in Hd1; [|done..].
    intros He. exists d. split; [apply list_elem_of_here|]. by apply Hd1.
Qed.
End LoopCycles.

Lemma cycles fuel :
  (∀ inj w tok nf r inj' w',
     get fuel inj w tok nf = Some (r, inj', w') →
     plain_calls (log w') → plain_chain inj → quiet inj →
     match r with
     | Ok v => plain_chain inj' ∧ (equalsIDENT nf = false → equalsIDENT v = false)
     | Err e => kind e = CircularDependency → has_cycle inj
     end) ∧
  (∀ tok record st nf r st',
     tryResolveToken fuel tok record st nf = Some (r, st') →
     plain_calls (log (st_world st')) →
     plain_records (st_records st) → plain_chain (st_parent st) →
     quiet (st_parent st) →
     sound st record nf r st') ∧
  (∀ tok record st nf r st',
     resolveToken fuel tok record st nf = Some (r, st') →
     plain_calls (log (st_world st')) →
     plain_records (st_records st) → plain_chain (st_parent st) →
     quiet (st_parent st) →
     sound st record nf r st').
Proof.
  induction fuel as [|n (IHg & IHt & IHr)]; [by repeat split|].
  split; [|split].
  - intros inj w tok nf r inj' w' Hg Hcalls Hplain Hq.
    destruct inj as [|self m p].
    { simpl in Hg. case_match; by simplify_eq. }
    destruct Hq as [Hm Hp]. destruct Hplain as [Hpm Hpp].
    rewrite get_unfold in Hg.
    destruct (getId tok) as [id|e0] eqn:Hid.
    2:{ simplify_eq. by apply getId_err in Hid as [-> ?]. }
    destruct (tryResolveToken n _ _ _ _) as [[[v|e1] st]|] eqn:Ht; simplify_eq.
    + apply IHt in Ht as (? & ? & ?); done.
    + intros He.
      assert (kind e1 = CircularDependency ∧
              plain_calls (log (st_world st))) as [He1 Hcalls1].
      { revert He Hcalls. unfold catchGet. destruct (reported e1); [done|].
        done. }
      apply IHt in Ht; [|done..].
      destruct (Ht He1) as [?|[?|(k0 & k1 & r1 & _ & _ & Hk1 & Hv)]].
      * by left.
      * by right.
      * by destruct (Hm _ _ Hk1).
  - intros tok record st nf r st' Ht Hcalls Hm Hp Hq.
    rewrite tryResolveToken_unfold in Ht.
    destruct (resolveToken n _ _ _ _) as [[[v|e1] st1]|] eqn:Hr; simplify_eq.
    { by apply IHr in Hr. }
    destruct (catchResolve tok record e1 st1) as [res st2] eqn:Hc.
    simplify_eq. pose proof Hc as Hc'.
    apply catchResolve_inv in Hc'
      as (_ & [(t & path & _ & -> & _ & Hw & _)|(-> & _)]); [|done].
    intros He. apply IHr in Hr; [by apply Hr|by rewrite <-Hw|done..].
  - intros tok record st nf r st' Hr Hcalls Hm Hp Hq.
    rewrite resolveToken_unfold in Hr.
    destruct (deref (st_records st) record) as [[k r0]|] eqn:Hd.
    + apply deref_Some in Hd as [-> Hk]. cbv zeta in Hr.
      destruct (value r0) as [| |x] eqn:Hv.
      * destruct (resolveDeps _ _ _ _) as [[[args|e1] st1]|] eqn:Hl;
          simplify_eq.
        -- destruct (construct k r0 args st1) as [res st2] eqn:Hc.
           simplify_eq.
           apply (resolveDeps_cycle _ (proj1 (proj2 (frame n)))
                    (proj1 (proj2 (history n))) IHt) in Hl
             as (Hm1 & Hp1 & Hargs); try done.
           2:{ eapply plain_calls_suffix; [|exact Hcalls].
               by eapply events_of_suffix, construct_events. }
           2:{ by apply plain_records_alter. }
           destruct r as [v|e]; simpl.
           ++ pose proof (construct_plain _ _ _ _ _ _ Hc Hargs Hcalls) as Hv'.
              apply construct_inv in Hc as [-> ->].
              split; [|done]. apply plain_records_alter; [done|].
              by intros ? [= <-].
           ++ apply construct_err in Hc as (_ & _ & [?|[? ?]]); congruence.
        -- intros He.
           apply (resolveDeps_cycle _ (proj1 (proj2 (frame n)))
                    (proj1 (proj2 (history n))) IHt) in Hl; try done.
           2:{ by apply plain_records_alter. }
           destruct (Hl He) as (d & Hin & Hc).
           unfold cycle_or_mark in Hc.
           cbn [with_records st_records st_parent] in Hc.
           pose proof (records_rel_mark (st_records st) k CIRCULAR) as Hmark.
           rewrite <-(childRecordOf_rel _ _ _ _ Hmark) in Hc.
           destruct Hc as [Hc|[Hc|(k0 & k1 & r1 & Hk0 & Hpath & Hk1 & Hv1)]].
           ++ left. by eapply on_cycle_rel.
           ++ by right; left.
           ++ assert (tc (depends_on (st_records st)) k k1) as Htc.
              { eapply tc_rtc_r.
                - apply tc_once. by exists r0, d.
                - eapply (rtc_congruence id); [|exact Hpath].
                  intros ? ?. by apply (depends_on_rel (λ _ _, True)). }
              destruct (decide (k1 = k)) as [->|Hne]; [left; by exists k|].
              right; right. exists k, k1, r1. split; [done|].
              split; [by apply tc_rtc|]. by rewrite lookup_alter_ne in Hk1.
      * simplify_eq. intros _. right; right. exists k, k, r0. by repeat split.
      * rewrite (Hm _ _ _ Hk Hv) in Hr. simplify_eq. simpl.
        repeat split; try done. intros _. by eapply Hm.
    + destruct (get n _ _ _ _) as [[[r1 p1] w1]|] eqn:Hg; simplify_eq.
      apply IHg in Hg; [|done..]. destruct r as [v|e]; simpl in *.
      * by destruct Hg.
      * intros He. right; left. by apply Hg.
Qed.

(** X21.  The circular-dependency error is no false alarm: when a [get]
    fails with it that started with no record in progress and with no slot
    holding the string that [==] equates with [IDENT], and no function
    returned that string, some registry of the chain has a record that
    depends on itself through records of that registry. *)
Theorem circular_error_only_on_cycles fuel inj w tok nf e inj' w' :
  quiet inj → plain_chain inj →
  get fuel inj w tok nf = Some (Err e, inj', w') →
  plain_calls (log w') →
  kind e = CircularDependency →
  has_cycle inj.
Proof.
  intros Hq Hp Hg Hcalls He.
  by apply (proj1 (cycles fuel) _ _ _ _ _ _ _ Hg Hcalls Hp Hq).
Qed.

(** ** Further properties: what a call resolves *)

Lemma unmark_records_lookup_ne record m k :
  record ≠ Some k → unmark_records record m !! k = m !! k.
Proof.
  intros Hne. unfold unmark_records.
  destruct (deref m record) as [[k0 r]|] eqn:Hd; [|done].
  apply deref_Some in Hd as [-> _].
  destruct (equalsCIRCULAR (value r)); [|done].
  rewrite lookup_alter_ne; [done|congruence].
Qed.

Lemma rtc_depends_on_rel R m m' k k' :
  records_rel R m m' →
  rtc (depends_on m') k k' → rtc (depends_on m) k k'.
Proof.
  intros Hm. apply (rtc_congruence id). intros ? ?.
  by apply (depends_on_rel R).
Qed.

Section LoopLazy.
Variable try :
  jsval → option string → State → jsval → option (result jsval * State).
Hypothesis try_frame : ∀ tok record st nf r st',
  try tok record st nf = Some (r, st') → state_rel (step_of r) st st'.
Hypothesis try_lazy : ∀ tok record st nf r st' k,
  try tok record st nf = Some (r, st') →
  resolved_by (st_records st) (st_records st') k →
  ∃ k0, record = Some k0 ∧ rtc (depends_on (st_records st)) k0 k.

Lemma resolveDep_lazy d st r st' k :
  resolveDep try d st = Some (r, st') →
  resolved_by (st_records st) (st_records st') k →
  ∃ k0, childRecordOf (st_records st) d = Some k0 ∧
        rtc (depends_on (st_records st)) k0 k.
Proof.
  unfold resolveDep. destruct (delegatesToNull _ _); [|by apply try_lazy].
  destruct (try _ _ _ _) as [[r1 st1]|] eqn:Ht; intros; simplify_eq.
  by eapply try_lazy in Ht.
Qed.

Lemma resolveDeps_lazy ds st acc r st' k :
  resolveDeps try ds st acc = Some (r, st') →
  resolved_by (st_records st) (st_records st') k →
  ∃ d k0, d ∈ ds ∧ childRecordOf (st_records st) d = Some k0 ∧
          rtc (depends_on (st_records st)) k0 k.
Proof.
  revert st acc. induction ds as [|d ds IH]; simpl; intros st acc Hr Hk.
  { simplify_eq. destruct Hk as (r0 & r' & v & ? & ? & ? & ?). congruence. }
  destruct (resolveDep try d st) as [[[v|e1] st1]|] eqn:Hd1; simplify_eq.
  - pose proof (resolveDep_frame _ try_frame _ _ _ _ Hd1) as [Hm1 _].
    destruct Hk as (r0 & r' & v' & Hk0 & Hv0 & Hk' & Hv').
    destruct (records_rel_lookup _ _ _ _ _ Hm1 Hk0) as (r1 & Hk1 & (_&_&_&_&Hs)).
    destruct (value r1) as [| |v1] eqn:Hv1.
    + destruct (IH _ _ Hr) as (d' & k0 & Hin & Hc & Hpath).
      { by exists r1, r', v'. }
      exists d', k0. split; [by apply list_elem_of_further|].
      rewrite (childRecordOf_rel _ _ _ _ Hm1). split; [done|].
      by eapply rtc_depends_on_rel.
    + rewrite Hv0 in Hs. inversion Hs.
    + destruct (resolveDep_lazy _ _ _ _ k Hd1) as (k0 & Hc & Hpath).
      { by exists r0, r1, v1. }
      exists d, k0. split; [apply list_elem_of_here|done].
  - destruct (resolveDep_lazy _ _ _ _ k Hd1 Hk) as (k0 & Hc & Hpath).
    exists d, k0. split; [apply list_elem_of_here|done].
Qed.
End LoopLazy.

Lemma resolved_by_same m k : ¬ resolved_by m m k.
Proof. intros (r & r' & v & ? & ? & ? & ?). congruence. Qed.

Lemma laziness fuel :
  (∀ tok record st nf r st' k,
     tryResolveToken fuel tok record st nf = Some (r, st') →
     resolved_by (st_records st) (st_records st') k →
     ∃ k0, record = Some k0 ∧ rtc (depends_on (st_records st)) k0 k) ∧
  (∀ tok record st nf r st' k,
     resolveToken fuel tok record st nf = Some (r, st') →
     resolved_by (st_records st) (st_records st') k →
     ∃ k0, record = Some k0 ∧ rtc (depends_on (st_records st)) k0 k).
Proof.
  induction fuel as [|n (IHt & IHr)]; [by split|].
  split.
  - intros tok record st nf r st' k Ht Hres.
    rewrite tryResolveToken_unfold in Ht.
    destruct (resolveToken n _ _ _ _) as [[[v1|e1] st1]|] eqn:Hr; [| |done].
    + simplify_eq. by eapply IHr.
    + injection Ht as Ht. apply catchResolve_inv in Ht as (_ & Hcase).
      destruct (decide (record = Some k)) as [->|Hne].
      { by exists k. }
      eapply IHr; [done|].
      destruct Hres as (r0 & r' & v & ? & ? & Hk' & ?).
      exists r0, r', v. repeat split; try done.
      destruct Hcase as [(_ & _ & _ & _ & _ & _ & Hm)|(_ & _ & Hm & _)];
        rewrite Hm in Hk'; [|done].
      by rewrite unmark_records_lookup_ne in Hk'.
  - intros tok record st nf r st' k Hr Hres.
    rewrite resolveToken_unfold in Hr.
    destruct (deref (st_records st) record) as [[k0 r0]|] eqn:Hd.
    + apply deref_Some in Hd as [-> Hk].
      destruct (decide (k0 = k)) as [->|Hne]; [by exists k|].
      exists k0. split; [done|]. cbv zeta in Hr.
      destruct (value r0) as [| |x] eqn:Hv; [|simplify_eq|];
        [| |destruct (equalsIDENT x); simplify_eq].
      * pose proof (records_rel_mark (st_records st) k0 CIRCULAR) as Hmark.
        assert (∀ st1 r1, resolveDeps (tryResolveToken n) (deps r0)
                   (with_records (alter (set_value CIRCULAR) k0) st) []
                 = Some (r1, st1) →
                 resolved_by (st_records st) (st_records st1) k →
                 rtc (depends_on (st_records st)) k0 k) as Hloop.
        { intros st1 r1 Hl Hres1.
          destruct (resolveDeps_lazy _ (proj1 (proj2 (frame n))) IHt
                      _ _ _ _ _ k Hl) as (d & k1 & Hin & Hc & Hpath).
          { destruct Hres1 as (ra & rb & v & ? & ? & ? & ?).
            exists ra, rb, v. cbn [with_records st_records].
            by rewrite lookup_alter_ne. }
          cbn [with_records st_records] in Hc, Hpath.
          rewrite <-(childRecordOf_rel _ _ _ _ Hmark) in Hc.
          eapply rtc_l; [by exists r0, d|].
          by eapply rtc_depends_on_rel. }
        destruct (resolveDeps _ _ _ _) as [[[args|e1] st1]|] eqn:Hl;
          simplify_eq.
        -- destruct (construct k0 r0 args st1) as [res st2] eqn:Hc.
           simplify_eq. apply construct_inv in Hc as [_ Hm2].
           eapply Hloop; [done|].
           destruct Hres as (ra & rb & v & ? & ? & Hk' & ?).
           exists ra, rb, v. repeat split; try done.
           rewrite Hm2 in Hk'. destruct r; [|done].
           by rewrite lookup_alter_ne in Hk'.
        -- by eapply Hloop.
      * by apply resolved_by_same in Hres.
      * by apply resolved_by_same in Hres.
      * by apply resolved_by_same in Hres.
    + destruct (get n _ _ _ _) as [[[r1 p1] w1]|] eqn:Hg; simplify_eq.
      by apply resolved_by_same in Hres.
Qed.

(** X22.  Resolution is lazy: a record of the scope that a [get] resolves,
    whether the call returns or throws, is the record of the requested token
    or one it depends on, directly or through other records of the scope. *)
Theorem get_resolves_only_dependencies fuel self m p w tok nf r inj' w' id k :
  getId tok = Ok id →
  get fuel (StaticInjector self m p) w tok nf = Some (r, inj', w') →
  resolved_by m (records_of inj') k →
  rtc (depends_on m) id k.
Proof.
  intros Hid Hg Hres. destruct fuel as [|n]; [done|].
  rewrite get_unfold, Hid in Hg.
  destruct (tryResolveToken n _ _ _ _) as [[[v|e1] st]|] eqn:Ht; simplify_eq.
  - destruct (proj1 (laziness n) _ _ _ _ _ _ k Ht Hres) as (k0 & Hk0 & Hpath).
    unfold lookupRef in Hk0. by case_match; simplify_eq.
  - destruct (proj1 (laziness n) _ _ _ _ _ _ k Ht Hres) as (k0 & Hk0 & Hpath).
    unfold lookupRef in Hk0. by case_match; simplify_eq.
Qed.

(** ** Further properties: the states of a scope *)

Lemma later_state_shape inj inj' :
  handled_throws →
  later_state inj inj' → truthy_chain inj → quiet inj →
  truthy_chain inj' ∧ quiet inj'.
Proof.
  intros Hh.
  induction 1 as [inj|fuel inj w tok nf r inj1 w1 inj2 Hg _ IH]; [done|].
  intros Ht Hq. destruct (get_shape _ _ _ _ _ _ _ _ Hh Hg Ht Hq). by apply IH.
Qed.

(** X23.  When the [catch] block of [tryResolveToken] can annotate whatever
    a function throws: in every state a scope reaches after its
    construction, by calls of [get] of any tokens and with any outcome, no
    record of the chain is marked in progress and every dependency token is
    truthy. *)
Theorem no_record_in_progress_between_calls self ps parent inj inj' :
  handled_throws →
  create self ps parent = Ok inj →
  truthy_chain parent → quiet parent →
  later_state inj inj' →
  truthy_chain inj' ∧ quiet inj'.
Proof.
  intros Hh Hc Ht Hq Hlater.
  destruct (create_shape _ _ _ _ Hc Ht Hq). by eapply later_state_shape.
Qed.

(** A check of [plain_records] that evaluates. *)
Lemma plain_records_check m :
  forallb (λ kr : string * Record_,
             match value kr.2 with
             | Value v => negb (equalsIDENT v)
             | _ => true
             end) (map_to_list m) = true →
  plain_records m.
Proof.
  intros Hall k r v Hk Hv. rewrite forallb_forall in Hall.
  apply elem_of_map_to_list, list_elem_of_In in Hk.
  specialize (Hall _ Hk). simpl in Hall. rewrite Hv in Hall.
  by apply negb_true_iff.
Qed.

End Proofs.

(** * The theorems at concrete inputs *)

Lemma get_is_memoized_witness :
  get (H:=host0) 6 injectorAB world0 (VStr "B") VUndefined
  = Some (Ok (VNum 2), afterB.1, afterB.2) ∧
  get (H:=host0) 6 afterB.1 afterB.2 (VStr "A") VUndefined
  = Some (Ok (VNum 1), afterBA.1, afterBA.2) ∧
  get (H:=host0) 6 afterBA.1 afterBA.2 (VStr "B") VUndefined
  = Some (Ok (VNum 2), afterBA.1, afterBA.2).
Proof.
  assert (get (H:=host0) 6 injectorAB world0 (VStr "B") VUndefined
          = Some (Ok (VNum 2), afterB.1, afterB.2)) as E1
    by (vm_compute; reflexivity).
  assert (get (H:=host0) 6 afterB.1 afterB.2 (VStr "A") VUndefined
          = Some (Ok (VNum 1), afterBA.1, afterBA.2)) as E2
    by (vm_compute; reflexivity).
  split; [exact E1|]. split; [exact E2|].
  exact (proj1 (get_is_memoized (H:=host0) _ _ _ _ _ _ _ _ _ afterBA.2 E1
                  eq_refl (later_get _ _ _ _ _ _ _ _ _ E2 (later_now _)))).
Defined.

Lemma injectorX_created :
  create (H:=host0) 7 providersX NULL_INJECTOR = Ok injectorX.
Proof. vm_compute. reflexivity. Qed.

Lemma reentry_fails_circular_witness :
  truthy_chain injectorX ∧ fuel_bound injectorX ≤ 6 ∧
  ∃ e inj' w',
    get (H:=host0) 6 injectorX world0 (VStr "X") VUndefined
    = Some (Err e, inj', w') ∧ kind e = CircularDependency.
Proof.
  assert (truthy_chain injectorX) as Ht.
  { by apply (create_shape (H:=host0) _ _ _ _ injectorX_created). }
  assert (fuel_bound injectorX ≤ 6) as Hf by (vm_compute; lia).
  split; [done|]. split; [done|].
  destruct (reentry_fails_circular (H:=host0) 6 injectorX world0 (VStr "X")
              VUndefined Ht Hf) as (r & inj' & w' & Hg & _ & Hcycle).
  destruct (Hcycle "string_X" (λ k, k = "string_X")) as (e & -> & He).
  - vm_compute. reflexivity.
  - reflexivity.
  - intros k ->.
    exists (mkRecord (VStr "X") (UserFn (VFun 2)) false
              [mkDep "string_X" (VStr "X") OPT_DEFAULT] EMPTY),
           [], (mkDep "string_X" (VStr "X") OPT_DEFAULT), [].
    split; [vm_compute; reflexivity|]. by repeat split.
  - eauto.
Defined.

Lemma injectorAB_created :
  create (H:=host0) 7 providersAB NULL_INJECTOR = Ok injectorAB.
Proof. vm_compute. reflexivity. Qed.

Lemma injector_token_resolves_to_self_witness :
  get (H:=host0) 3 injectorAB world0 Injector VUndefined
  = Some (Ok (VInjector 7), injectorAB, world0).
Proof.
  apply (injector_token_resolves_to_self (H:=host0) 7 providersAB
           NULL_INJECTOR injectorAB "function_0" injectorAB_created).
  - vm_compute. reflexivity.
  - assert (descriptions providersAB
            = omap as_provider
                [valueProvider (VStr "A") (VNum 1);
                 factoryProvider (VStr "B") (VFun 1) [VStr "A"]]) as ->
      by (vm_compute; reflexivity).
    repeat constructor; intros E; vm_compute in E; discriminate.
Defined.

(** C4.  The claim fails when a description overrides the [Injector]
    token: the injector made of [{provide: Injector, useValue: 42}] returns
    42 for [get(Injector)], not itself. *)
Lemma injector_token_overridden :
  ∃ inj inj' w',
    create (H:=host0) 7 providersOverride NULL_INJECTOR = Ok inj ∧
    get (H:=host0) 3 inj world0 Injector VUndefined
    = Some (Ok (VNum 42), inj', w') ∧
    VNum 42 ≠ VInjector 7.
Proof. do 3 eexists. split; [|split]; [vm_compute; reflexivity..|done]. Qed.


Lemma optional_dependency_yields_null_witness :
  resolveDep (tryResolveToken (H:=host0) 3)
    (mkDep "string_Z" (VStr "Z") (Z.lor OPT_DEFAULT OPT_OPTIONAL))
    (mkState ∅ NULL_INJECTOR world0)
  = Some (Ok VNull, mkState ∅ NULL_INJECTOR world0) ∧
  resolveDep (tryResolveToken (H:=host0) 3)
    (mkDep "string_Z" (VStr "Z") OPT_DEFAULT)
    (mkState ∅ NULL_INJECTOR world0)
  = Some (Err (mkError (NoProvider (VStr "Z")) [VStr "Z"] None),
          with_world (record_event (Raise (NoProvider (VStr "Z"))))
            (mkState ∅ NULL_INJECTOR world0)).
Proof.
  assert (getId (H:=host0) (VStr "Z") = Ok "string_Z") as Hid
    by (vm_compute; reflexivity).
  assert (try_bound (mkState ∅ NULL_INJECTOR world0) ≤ 3) as Hf
    by (vm_compute; lia).
  split.
  - exact (proj1 (proj1 (optional_dependency_yields_null (H:=host0) 3
                    (mkDep "string_Z" (VStr "Z")
                           (Z.lor OPT_DEFAULT OPT_OPTIONAL))
                    "string_Z" (mkState ∅ NULL_INJECTOR world0) [] []
                    Hid (λ _, lookup_empty _) (λ _, I) Hf) eq_refl)).
  - exact (proj1 (proj1 (proj2 (optional_dependency_yields_null (H:=host0) 3
                    (mkDep "string_Z" (VStr "Z") OPT_DEFAULT)
                    "string_Z" (mkState ∅ NULL_INJECTOR world0) [] []
                    Hid (λ _, lookup_empty _) (λ _, I) Hf)) eq_refl)).
Defined.

Lemma injectorM_created :
  create (H:=host0) 7 providersM NULL_INJECTOR = Ok injectorM.
Proof. vm_compute. reflexivity. Qed.

Lemma multi_provider_order_witness :
  ∃ inj' w',
    get (H:=host0) 5 injectorM world0 (VStr "M") VUndefined
    = Some (Ok (VArr [VNum 1; VNum 2; VNum 3]), inj', w').
Proof.
  assert (getId (H:=host0) (VStr "M") = Ok "string_M") as Hid
    by (vm_compute; reflexivity).
  assert (contributions (H:=host0) "string_M" (descriptions providersM)
          = omap as_provider
              [multiValueProvider (VStr "M") (VNum 1);
               multiValueProvider (VStr "M") (VNum 2);
               multiValueProvider (VStr "M") (VNum 3)]) as Hcs
    by (vm_compute; reflexivity).
  destruct (multi_provider_order (H:=host0) 7 providersM NULL_INJECTOR
              injectorM (VStr "M") "string_M" injectorM_created Hid)
    as (_ & _ & Hvalues).
  - rewrite Hcs. eexists. split; [apply list_elem_of_here|reflexivity].
  - apply (Hvalues [VNum 1; VNum 2; VNum 3]) with (n := 0).
    + rewrite Hcs. by repeat constructor.
    + by repeat constructor.
Defined.



Lemma class_instantiation_witness :
  resolveToken (H:=host0) 1 (VStr "C") (Some "string_C")
    (mkState {[ "string_C" :=
                  mkRecord (VStr "C") (UserFn (VFun 3)) true [] EMPTY ]}
             NULL_INJECTOR world0) VUndefined
  = Some (Ok (VInst 0),
          mkState (alter (set_value (Value (VInst 0))) "string_C"
                     (alter (set_value CIRCULAR) "string_C"
                        {[ "string_C" :=
                             mkRecord (VStr "C") (UserFn (VFun 3)) true []
                                      EMPTY ]}))
                  NULL_INJECTOR
                  (mkWorld [Invoke (UserFn (VFun 3)) (VInst 0) []] 1)).
Proof.
  set (r := mkRecord (VStr "C") (UserFn (VFun 3)) true [] EMPTY).
  set (st := mkState {[ "string_C" := r ]} NULL_INJECTOR world0).
  assert (st_records st !! "string_C" = Some r) as Hk
    by apply lookup_singleton_eq.
  pose proof (class_instantiation (H:=host0) 0 (VStr "C") "string_C" st
                VUndefined r (VFun 3) []
                (with_records (alter (set_value CIRCULAR) "string_C") st)
                Hk eq_refl eq_refl eq_refl eq_refl)
    as [Hres _].
  exact (proj1 (Hres eq_refl eq_refl) eq_refl).
Defined.

(** The claim fails for a class whose function returns a number: the
    injector made of [providersClass] resolves ['C'] to 2, the value the
    function returned, and not to the object it was applied to.  It also
    fails for a class that is an arrow function: the injector made of
    [providersArrow] throws a [TypeError] for ['D'] and calls nothing. *)
Lemma class_result_is_kept :
  (∃ inj' w',
     get (H:=host0) 6 injectorClass world0 (VStr "C") VUndefined
     = Some (Ok (VNum 2), inj', w') ∧
     log w' = [Invoke (UserFn (VFun 1)) (VInst 0) [VNum 1]] ∧
     VNum 2 ≠ VInst 0) ∧
  ∃ inj' w',
    get (H:=host1) 6 injectorArrow world0 (VStr "D") VUndefined
    = Some (Err (mkError TypeError [] (Some [VStr "D"])), inj', w') ∧
    log w' = [Raise TypeError].
Proof.
  split.
  - do 2 eexists. split; [|split]; [vm_compute; reflexivity..|done].
  - do 2 eexists. split; vm_compute; reflexivity.
Qed.

(** C1.  The claim fails for a function that returns the source text of
    [IDENT]: the first [get] returns that string and stores it; the second
    takes the stored value for the mark, throws the circular-dependency
    error and empties the slot; the third calls the function again. *)
Lemma coerced_value_is_not_memoized :
  ∃ inj1 w1 inj2 w2 inj3 w3,
    get (H:=host1) 4 injectorCoerced world0 (VStr "T") VUndefined
    = Some (Ok (VStr (identSource (Host:=host1))), inj1, w1) ∧
    get (H:=host1) 4 inj1 w1 (VStr "T") VUndefined
    = Some (Err (mkError CircularDependency [] (Some [VStr "T"])), inj2, w2) ∧
    get (H:=host1) 4 inj2 w2 (VStr "T") VUndefined
    = Some (Ok (VStr (identSource (Host:=host1))), inj3, w3) ∧
    log w3 = [Invoke (UserFn (VFun 6)) VUndefined [];
              Raise CircularDependency;
              Invoke (UserFn (VFun 6)) VUndefined []].
Proof.
  do 6 eexists. split; [|split; [|split]]; vm_compute; reflexivity.
Qed.

(** C3.  The claim fails for a function that throws a frozen error: the
    [catch] block of [tryResolveToken] throws a [TypeError] before it
    resets the mark, so the [get] that failed leaves the record in
    progress, and the next [get] reports a circular dependency. *)
Lemma frozen_error_leaves_mark :
  ∃ inj1 w1 r1 inj2 w2,
    quiet injectorFrozen ∧
    get (H:=host1) 4 injectorFrozen world0 (VStr "T") VUndefined
    = Some (Err (newError TypeError), inj1, w1) ∧
    records_of inj1 !! "string_T" = Some r1 ∧ value r1 = CIRCULAR ∧
    get (H:=host1) 4 inj1 w1 (VStr "T") VUndefined
    = Some (Err (mkError CircularDependency [] (Some [VStr "T"])), inj2, w2).
Proof.
  do 5 eexists. split; [|split; [|split; [|split]]].
  - by apply (create_shape (H:=host1) 7 providersFrozen NULL_INJECTOR).
  - vm_compute. reflexivity.
  - vm_compute. reflexivity.
  - reflexivity.
  - vm_compute. reflexivity.
Qed.

Lemma falsy_entries_are_skipped_witness :
  truthy VNull = false ∧
  recursivelyProcessProviders (H:=host0) ∅
    (VArr [VNull; VUndefined; VBool false; VNum 0; VStr ""])
  = Ok ∅.
Proof.
  split; [reflexivity|].
  pose proof (falsy_entries_are_skipped (H:=host0) VNull eq_refl)
    as (_ & Hskip & _).
  etrans; [exact (Hskip ∅ [] _)|]. cbn [app].
  pose proof (falsy_entries_are_skipped (H:=host0) VUndefined eq_refl)
    as (_ & Hskip1 & _).
  etrans; [exact (Hskip1 ∅ [] _)|]. cbn [app].
  pose proof (falsy_entries_are_skipped (H:=host0) (VBool false) eq_refl)
    as (_ & Hskip2 & _).
  etrans; [exact (Hskip2 ∅ [] _)|]. cbn [app].
  pose proof (falsy_entries_are_skipped (H:=host0) (VNum 0) eq_refl)
    as (_ & Hskip3 & _).
  etrans; [exact (Hskip3 ∅ [] _)|]. cbn [app].
  pose proof (falsy_entries_are_skipped (H:=host0) (VStr "") eq_refl)
    as (_ & Hskip4 & _).
  etrans; [exact (Hskip4 ∅ [] [])|]. reflexivity.
Defined.

(** * The further properties at concrete inputs *)

Lemma token_identity_witness :
  getId (H:=host0) (VStr "A") = Ok "string_A" ∧
  ∀ n id', "string_A" ≠ multiId n id'.
Proof.
  assert (getId (H:=host0) (VStr "A") = Ok "string_A") as Hid
    by (vm_compute; reflexivity).
  split; [exact Hid|].
  exact (proj2 (proj2 (token_identity (H:=host0) _ _ _ Hid Hid))).
Defined.



Lemma nesting_is_irrelevant_witness :
  create (H:=host0) 7 providersM NULL_INJECTOR
  = create (H:=host0) 7
      (VArr [multiValueProvider (VStr "M") (VNum 1);
             multiValueProvider (VStr "M") (VNum 2);
             multiValueProvider (VStr "M") (VNum 3)]) NULL_INJECTOR.
Proof.
  apply (nesting_is_irrelevant (H:=host0)). reflexivity.
Defined.

Lemma recipe_is_validated_at_registration_witness :
  recursivelyProcessProviders (H:=host0) ∅
    (VProvider (Some (VStr "T")) None (Some (VFun 1)) None None None None)
  = Err (newError (DepsRequired
      (VProvider (Some (VStr "T")) None (Some (VFun 1)) None None None None))).
Proof.
  exact (proj1 (recipe_is_validated_at_registration (H:=host0) ∅ (VStr "T")
                  (mkProvider (Some (VStr "T")) None (Some (VFun 1)) None None
                              None None)
                  eq_refl eq_refl eq_refl eq_refl) eq_refl).
Defined.

Lemma registry_keys_witness :
  is_Some (records_of injectorM !! "_1_string_M").
Proof.
  apply (registry_keys (H:=host0) 7 providersM NULL_INJECTOR injectorM
           "_1_string_M" injectorM_created).
  right; right.
  exists 1, "string_M",
    (mkProvider (Some (VStr "M")) (Some (VNum 2)) None None None None
                (Some (VBool true))).
  split; [reflexivity|]. split; [vm_compute; reflexivity|reflexivity].
Defined.


Lemma injectorAAB_created :
  create (H:=host0) 7 providersAAB NULL_INJECTOR = Ok injectorAAB.
Proof. vm_compute. reflexivity. Qed.

Lemma providersAAB_descriptions :
  descriptions providersAAB
  = [mkProvider (Some (VStr "A")) (Some (VNum 1)) None None None None None]
    ++ mkProvider (Some (VStr "A")) (Some (VNum 2)) None None None None None
    :: [mkProvider (Some (VStr "B")) None (Some (VFun 1)) None None
                   (Some [VStr "A"]) None].
Proof. reflexivity. Qed.

Lemma providersAAB_last :
  Forall (λ sq, id_of (H:=host0) sq ≠ Ok "string_A")
    [mkProvider (Some (VStr "B")) None (Some (VFun 1)) None None
                (Some [VStr "A"]) None].
Proof. repeat constructor. intros E. vm_compute in E. discriminate. Qed.

Lemma last_description_wins_witness :
  ∃ rp,
    resolveProvider (H:=host0)
      (mkProvider (Some (VStr "A")) (Some (VNum 2)) None None None None None)
    = Ok rp ∧
    records_of injectorAAB !! "string_A" = Some rp.
Proof.
  apply (last_description_wins (H:=host0) 7 providersAAB NULL_INJECTOR
           injectorAAB _ _ _ "string_A" injectorAAB_created
           providersAAB_descriptions).
  - vm_compute. reflexivity.
  - reflexivity.
  - exact providersAAB_last.
Defined.

Lemma value_provider_round_trip_witness :
  get (H:=host0) 3 injectorAAB world0 (VStr "A") VUndefined
  = Some (Ok (VNum 2), injectorAAB, world0).
Proof.
  apply (value_provider_round_trip (H:=host0) 7 providersAAB NULL_INJECTOR
           injectorAAB _ _ _ (VStr "A") "string_A" (VNum 2)
           injectorAAB_created providersAAB_descriptions).
  - vm_compute. reflexivity.
  - reflexivity.
  - exact providersAAB_last.
  - reflexivity.
  - reflexivity.
  - vm_compute. reflexivity.
Defined.

Lemma existing_description_registers_alias_witness :
  resolveProvider (H:=host0)
    (mkProvider (Some (VStr "A")) None None (Some (VStr "B")) None None None)
  = Ok (mkRecord (VStr "A") IDENT false
          [mkDep "string_B" (VStr "B") OPT_DEFAULT] EMPTY) ∧
  records_of injectorAlias !! "string_A"
  = Some (mkRecord (VStr "A") IDENT false
            [mkDep "string_B" (VStr "B") OPT_DEFAULT] EMPTY).
Proof.
  split; [|vm_compute; reflexivity].
  apply (existing_description_registers_alias (H:=host0)
           (mkProvider (Some (VStr "A")) None None (Some (VStr "B")) None None
                       None) (VStr "B") "string_B" eq_refl eq_refl eq_refl).
  - vm_compute. reflexivity.
  - by left.
Defined.

Lemma existing_provider_is_alias_witness :
  ∃ st2 ra rb,
    resolveToken (H:=host0) 3 (VStr "A") (Some "string_A")
      (mkState (records_of injectorAlias) NULL_INJECTOR world0) VUndefined
    = Some (Ok (VNum 5), st2) ∧
    st_records st2 !! "string_A" = Some ra ∧ value ra = Value (VNum 5) ∧
    st_records st2 !! "string_B" = Some rb ∧ value rb = Value (VNum 5).
Proof.
  set (st := mkState (records_of injectorAlias) NULL_INJECTOR world0).
  set (d := mkDep "string_B" (VStr "B") OPT_DEFAULT).
  set (r := mkRecord (VStr "A") IDENT false [d] EMPTY).
  assert (st_records st !! "string_A" = Some r) as Hk
    by (vm_compute; reflexivity).
  destruct (existing_provider_is_alias (H:=host0) 2 (VStr "A") "string_A" st
              VUndefined r d Hk eq_refl eq_refl eq_refl eq_refl)
    as [_ Hshare].
  assert (∃ st2, resolveToken (H:=host0) 3 (VStr "A") (Some "string_A") st
                   VUndefined = Some (Ok (VNum 5), st2)) as [st2 Hr].
  { eexists. vm_compute. reflexivity. }
  destruct (Hshare _ _ Hr) as (ra & rb & H1 & H2 & H3 & H4).
  - reflexivity.
  - vm_compute. eauto.
  - exists st2, ra, rb. done.
Defined.

Lemma throwing_function_leaves_record_unresolved_witness :
  ∃ st' r',
    tryResolveToken (H:=host0) 2 (VStr "T") (Some "string_T")
      (mkState (records_of injectorThrow) NULL_INJECTOR world0) VUndefined
    = Some (Err (mkError (HostThrown (VStr "boom")) [VStr "T"] None), st') ∧
    st_records st' !! "string_T" = Some r' ∧ value r' = EMPTY.
Proof.
  set (st := mkState (records_of injectorThrow) NULL_INJECTOR world0).
  set (r := mkRecord (VStr "T") (UserFn (VFun 4)) false [] EMPTY).
  assert (st_records st !! "string_T" = Some r) as Hk
    by (vm_compute; reflexivity).
  destruct (throwing_function_leaves_record_unresolved (H:=host0) 0 (VStr "T")
              "string_T" st VUndefined r (VFun 4) []
              (with_records (alter (set_value CIRCULAR) "string_T") st)
              (VStr "boom") eq_refl Hk eq_refl eq_refl eq_refl
              (λ _, eq_refl) eq_refl eq_refl)
    as (st' & _ & Ht & _ & (r' & Hr' & Hv') & _).
  exists st', r'. done.
Defined.

Lemma missing_record_delegates_to_parent_witness :
  get (H:=host0) 5 (StaticInjector 8 ∅ injectorAB) world0 (VStr "A") VUndefined
  = match get (H:=host0) 2 injectorAB world0 (VStr "A") VUndefined with
    | None => None
    | Some (Ok v, p', w') => Some (Ok v, StaticInjector 8 ∅ p', w')
    | Some (Err e, p', w') =>
        Some (Err (mkError (kind e) [] (Some [VStr "A"])),
              StaticInjector 8 ∅ p', w')
    end.
Proof.
  apply (missing_record_delegates_to_parent (H:=host0) 2 8 ∅ injectorAB world0
           (VStr "A") VUndefined "string_A").
  - vm_compute. reflexivity.
  - apply lookup_empty.
Defined.

Lemma unknown_token_witness :
  get (H:=host0) 6 injectorAB world0 (VStr "Z") VUndefined
  = Some (Err (mkError (NoProvider (VStr "Z")) [] (Some [VStr "Z"])),
          injectorAB, record_event (Raise (NoProvider (VStr "Z"))) world0) ∧
  get (H:=host0) 6 injectorAB world0 (VStr "Z") VNull
  = Some (Ok VNull, injectorAB, world0).
Proof.
  assert (getId (H:=host0) (VStr "Z") = Ok "string_Z") as Hid
    by (vm_compute; reflexivity).
  assert (no_provider injectorAB "string_Z") as Hno
    by (vm_compute; split; [reflexivity|exact I]).
  assert (fuel_bound injectorAB ≤ 6) as Hf by (vm_compute; lia).
  split.
  - exact (unknown_token (H:=host0) injectorAB 6 world0 (VStr "Z") VUndefined
             "string_Z" Hid Hno Hf).
  - exact (unknown_token (H:=host0) injectorAB 6 world0 (VStr "Z") VNull
             "string_Z" Hid Hno Hf).
Defined.

Lemma injectorX_fails :
  ∃ e inj' w',
    get (H:=host0) 6 injectorX world0 (VStr "X") VUndefined
    = Some (Err e, inj', w') ∧ kind e = CircularDependency.
Proof. do 3 eexists. split; vm_compute; reflexivity. Qed.

Lemma failure_is_the_raised_error_witness :
  ∃ e inj' w' evs,
    get (H:=host0) 6 injectorX world0 (VStr "X") VUndefined
    = Some (Err e, inj', w') ∧
    Forall is_invoke evs ∧
    (log w' = Raise (kind e) :: evs ++ log world0 ∨
     ∃ payload,
       (thrown (Host:=host0) payload = None ∨
        reportable (Host:=host0) payload = false) ∧
       kind e = TypeError ∧
       log w' = Raise TypeError :: Raise (HostThrown payload)
                  :: evs ++ log world0).
Proof.
  destruct injectorX_fails as (e & inj' & w' & Hg & _).
  assert (truthy_chain injectorX) as Ht.
  { by apply (create_shape (H:=host0) _ _ _ _ injectorX_created). }
  destruct (failure_is_the_raised_error (H:=host0) _ _ _ _ _ _ _ _ Ht Hg)
    as (evs & Hevs & Hlog).
  exists e, inj', w', evs. done.
Defined.

Lemma get_fails_only_with_resolution_errors_witness :
  ∃ e inj' w',
    get (H:=host0) 6 injectorX world0 (VStr "X") VUndefined
    = Some (Err e, inj', w') ∧
    (raised_by_resolution (kind e) ∨
     kind e = TokenMustBeTruthy (VStr "X") ∧ truthy (VStr "X") = false).
Proof.
  destruct injectorX_fails as (e & inj' & w' & Hg & _).
  assert (truthy_chain injectorX) as Ht.
  { by apply (create_shape (H:=host0) _ _ _ _ injectorX_created). }
  exists e, inj', w'. split; [exact Hg|].
  exact (get_fails_only_with_resolution_errors (H:=host0) _ _ _ _ _ _ _ _
           Ht Hg).
Defined.

Lemma error_reports_token_path_witness :
  ∃ e inj' w',
    get (H:=host0) 6
      (StaticInjector 7 (records_of injectorX) NULL_INJECTOR) world0
      (VStr "X") VUndefined
    = Some (Err e, inj', w') ∧
    ngTempTokenPath e = [] ∧
    (ngTokenPath e = None ∧ kind e = TypeError ∨
     ∃ path tail,
       ngTokenPath e = Some (VStr "X" :: path ++ tail) ∧
       dep_chain (records_of injectorX)
         (lookupRef (records_of injectorX) "string_X") path ∧
       (tail = [] ∨
        ∃ payload, kind e = HostThrown payload ∧
                   thrown (Host:=host0) payload = Some tail)).
Proof.
  destruct injectorX_fails as (e & inj' & w' & Hg & _).
  assert (truthy_chain injectorX) as Ht.
  { by apply (create_shape (H:=host0) _ _ _ _ injectorX_created). }
  assert (getId (H:=host0) (VStr "X") = Ok "string_X") as Hid
    by (vm_compute; reflexivity).
  exists e, inj', w'. split; [exact Hg|].
  exact (error_reports_token_path (H:=host0) 6 7 (records_of injectorX)
           NULL_INJECTOR world0 (VStr "X") VUndefined e inj' w' "string_X"
           (proj1 Ht) Hid Hg).
Defined.

Lemma injectorX_get :
  get (H:=host0) 6 injectorX world0 (VStr "X") VUndefined
  = Some (Err (mkError CircularDependency [] (Some [VStr "X"; VStr "X"])),
          afterX.1, afterX.2).
Proof. vm_compute. reflexivity. Qed.

Lemma circular_error_only_on_cycles_witness : has_cycle injectorX.
Proof.
  assert (quiet injectorX) as Hq.
  { by apply (create_shape (H:=host0) _ _ _ _ injectorX_created). }
  assert (plain_chain (H:=host0) injectorX) as Hp.
  { split; [|exact I]. apply plain_records_check. vm_compute. reflexivity. }
  assert (plain_calls (H:=host0) (log afterX.2)) as Hcalls.
  { assert (log afterX.2 = [Raise CircularDependency]) as ->
      by (vm_compute; reflexivity).
    intros f this args v Hin. apply list_elem_of_singleton in Hin.
    discriminate. }
  exact (circular_error_only_on_cycles (H:=host0) _ _ _ _ _ _ _ _ Hq Hp
           injectorX_get Hcalls eq_refl).
Defined.

Lemma no_record_in_progress_between_calls_witness :
  truthy_chain afterBA.1 ∧ quiet afterBA.1.
Proof.
  assert (get (H:=host0) 6 injectorAB world0 (VStr "B") VUndefined
          = Some (Ok (VNum 2), afterB.1, afterB.2)) as E1
    by (vm_compute; reflexivity).
  assert (get (H:=host0) 6 afterB.1 afterB.2 (VStr "A") VUndefined
          = Some (Ok (VNum 1), afterBA.1, afterBA.2)) as E2
    by (vm_compute; reflexivity).
  assert (handled_throws (H:=host0)) as Hh by (intros payload; discriminate).
  apply (no_record_in_progress_between_calls (H:=host0) 7 providersAB
           NULL_INJECTOR injectorAB afterBA.1 Hh injectorAB_created I I).
  exact (later_get _ _ _ _ _ _ _ _ _ E1
           (later_get _ _ _ _ _ _ _ _ _ E2 (later_now _))).
Defined.

Lemma fallback_only_for_unprovided_tokens_witness :
  get (H:=host0) 6 injectorAB world0 (VStr "B") VUndefined
  = get (H:=host0) 6 injectorAB world0 (VStr "B") VNull.
Proof.
  apply (fallback_only_for_unprovided_tokens (H:=host0) injectorAB 6 world0
           (VStr "B") VUndefined VNull "string_B").
  - vm_compute. reflexivity.
  - left. vm_compute. eauto.
Defined.

Lemma injectorAB_get_B :
  get (H:=host0) 6 injectorAB world0 (VStr "B") VUndefined
  = Some (Ok (VNum 2), afterB.1, afterB.2).
Proof. vm_compute. reflexivity. Qed.

Lemma one_call_per_resolved_record_witness :
  ∃ evs,
    log afterB.2 = evs ++ log world0 ∧ Forall is_invoke evs ∧
    length evs + unresolved afterB.1 = unresolved injectorAB.
Proof.
  exact (one_call_per_resolved_record (H:=host0) _ _ _ _ _ _ _ _
           injectorAB_get_B).
Defined.

Lemma get_resolves_only_dependencies_witness :
  rtc (depends_on (records_of injectorAB)) "string_B" "string_B".
Proof.
  apply (get_resolves_only_dependencies (H:=host0) 6 7
           (records_of injectorAB) NULL_INJECTOR world0 (VStr "B") VUndefined
           (Ok (VNum 2)) afterB.1 afterB.2 "string_B" "string_B").
  - vm_compute. reflexivity.
  - exact injectorAB_get_B.
  - do 3 eexists. vm_compute. repeat split; reflexivity.
Defined.
